(** * lsp-mcp: the LSP client engine of [src/lspClient.ts]

    A shallow embedding of the class [LSPClient]: the frame decoder
    ([handleData]), the request/response correlator ([sendRequest],
    [handleMessage], the request timers), the diagnostics store and its
    subscribers, the document sessions and the lifecycle operations
    ([initialize], [shutdown], [restart]).

    JavaScript strings are lists of UTF-16 code units ([list N]); byte
    chunks read from the child process are [list byte]; JavaScript maps
    keyed by numbers or strings whose iteration order is never observed
    are [gmap]s, those that are iterated ([Set.forEach], [Map.forEach],
    [for ... of]) are insertion-ordered lists.  Numbers used as counters
    (ids, versions, lengths) are integers in [Z]: the code only ever adds
    one to them or compares them, which is exact in IEEE doubles far
    beyond any count a run can reach. *)

From Stdlib Require Import ZArith NArith List Lia Bool Strings.Byte.
From stdpp Require Import gmap strings list.
Import ListNotations.

Local Open Scope Z_scope.

(** ** JavaScript strings *)

Module JsString.

Definition of_bytes (bs : list byte) : list N := map Byte.to_N bs.

(** A literal of the model, written as a Rocq string of ASCII characters. *)
Definition lit (s : string) : list N := of_bytes (String.list_byte_of_string s).

Definition CR : N := 13%N.
Definition LF : N := 10%N.
Definition CLOSE_BRACE : N := 125%N.
Definition REPLACEMENT : N := 65533%N.

(** [s.length] *)
Definition len (s : list N) : Z := Z.of_nat (length s).

(** [s.substring(start)]: a start beyond the end gives the empty string,
    a negative one counts as 0. *)
Definition substringFrom (s : list N) (start : Z) : list N :=
  drop (Z.to_nat start) s.

(** [s.substring(start, stop)] for [start <= stop], the only way the
    client calls it. *)
Definition substring (s : list N) (start stop : Z) : list N :=
  take (Z.to_nat stop - Z.to_nat start) (drop (Z.to_nat start) s).

(** [s[s.length - 1]], [None] for [undefined] on the empty string. *)
Definition lastChar (s : list N) : option N := last s.

(** [s.lastIndexOf(c)], [None] for -1. *)
Fixpoint lastIndexOf (s : list N) (c : N) : option Z :=
  match s with
  | [] => None
  | x :: r =>
      match lastIndexOf r c with
      | Some i => Some (i + 1)
      | None => if N.eqb x c then Some 0 else None
      end
  end.

(** [\d] of a regular expression without the unicode flag. *)
Definition isDigit (c : N) : bool := (48 <=? c)%N && (c <=? 57)%N.

(** The longest run of digits at the head of [s], and what follows it. *)
Fixpoint spanDigits (s : list N) : list N * list N :=
  match s with
  | c :: r =>
      if isDigit c then let '(ds, rest) := spanDigits r in (c :: ds, rest)
      else ([], s)
  | [] => ([], [])
  end.

(** [s] without the prefix [p], when it starts with it. *)
Fixpoint stripPrefix (p s : list N) : option (list N) :=
  match p, s with
  | [], _ => Some s
  | a :: p', b :: s' => if N.eqb a b then stripPrefix p' s' else None
  | _ :: _, [] => None
  end.

(** [parseInt(ds, 10)] on a run of decimal digits. *)
Definition parseInt (ds : list N) : Z :=
  fold_left (fun acc d => acc * 10 + (Z.of_N d - 48)) ds 0.

Definition isCont (b : N) : bool := (128 <=? b)%N && (b <=? 191)%N.

(** The code units of a code point: itself in the basic plane, a
    surrogate pair above. *)
Definition units (cp : N) : list N :=
  if (cp <? 65536)%N then [cp]
  else [(55296 + (cp - 65536) / 1024)%N; (56320 + (cp - 65536) mod 1024)%N].

(** [Buffer.prototype.toString()] on one chunk: UTF-8 decoding, every
    ill-formed sequence replaced by U+FFFD.  Each chunk is decoded on its
    own, as [handleData] does. *)
Fixpoint utf8 (bs : list N) : list N :=
  match bs with
  | [] => []
  | b0 :: r =>
      if (b0 <? 128)%N then b0 :: utf8 r
      else if (194 <=? b0)%N && (b0 <=? 223)%N then
        match r with
        | b1 :: r1 =>
            if isCont b1
            then ((b0 - 192) * 64 + (b1 - 128))%N :: utf8 r1
            else REPLACEMENT :: utf8 r
        | [] => [REPLACEMENT]
        end
      else if (224 <=? b0)%N && (b0 <=? 239)%N then
        match r with
        | b1 :: r1 =>
            if ((if N.eqb b0 224 then 160 else 128) <=? b1)%N
               && (b1 <=? (if N.eqb b0 237 then 159 else 191))%N
            then
              match r1 with
              | b2 :: r2 =>
                  if isCont b2
                  then ((b0 - 224) * 4096 + (b1 - 128) * 64 + (b2 - 128))%N
                         :: utf8 r2
                  else REPLACEMENT :: utf8 r1
              | [] => [REPLACEMENT]
              end
            else REPLACEMENT :: utf8 r
        | [] => [REPLACEMENT]
        end
      else if (240 <=? b0)%N && (b0 <=? 244)%N then
        match r with
        | b1 :: r1 =>
            if ((if N.eqb b0 240 then 144 else 128) <=? b1)%N
               && (b1 <=? (if N.eqb b0 244 then 143 else 191))%N
            then
              match r1 with
              | b2 :: r2 =>
                  if isCont b2 then
                    match r2 with
                    | b3 :: r3 =>
                        if isCont b3
                        then units ((b0 - 240) * 262144 + (b1 - 128) * 4096
                                    + (b2 - 128) * 64 + (b3 - 128))%N
                               ++ utf8 r3
                        else REPLACEMENT :: utf8 r2
                    | [] => [REPLACEMENT]
                    end
                  else REPLACEMENT :: utf8 r1
              | [] => [REPLACEMENT]
              end
            else REPLACEMENT :: utf8 r
        | [] => [REPLACEMENT]
        end
      else REPLACEMENT :: utf8 r
  end.

Definition toString (data : list byte) : list N := utf8 (of_bytes data).

Definition isAscii (b : byte) : bool := (Byte.to_N b <? 128)%N.

End JsString.

(** ** The inbound messages

    [LSPMessage] is declared in [src/types/index.ts], which is not part of
    the sources at hand; the client reads the fields [id], [method],
    [params], [result] and [error] of it, each possibly [undefined]. *)

#[warnings="-register-all"]
Inductive JSON : Type :=
  | JNull
  | JBool (b : bool)
  | JNum (n : Z)
  | JStr (s : string)
  | JArr (items : list JSON)
  | JObj (fields : list (string * JSON)).

(** Truthiness of a value, as [if (v)] and [v || d] test it. *)
Definition truthy (v : JSON) : bool :=
  match v with
  | JNull => false
  | JBool b => b
  | JNum n => negb (n =? 0)
  | JStr s => negb (String.eqb s "")
  | JArr _ | JObj _ => true
  end.

(** [v.name] on a parsed value: [None] for [undefined]. *)
Fixpoint assoc (name : string) (fields : list (string * JSON)) : option JSON :=
  match fields with
  | [] => None
  | (k, v) :: r => if String.eqb k name then Some v else assoc name r
  end.

Definition field (name : string) (v : JSON) : option JSON :=
  match v with
  | JObj fields => assoc name fields
  | _ => None
  end.

(** Whether [String(v)], and [Number(v)], return rather than throw.  An
    object is converted through its [toString], or its [valueOf]: the
    [valueOf] it inherits returns the object itself, and the [toString] it
    inherits returns a string, but a field named ["toString"] of a parsed
    object shadows it with a value that cannot be called, and then the
    conversion throws a [TypeError].  An array is joined: its elements are
    converted in turn, [null] to the empty string. *)
Fixpoint convertible (v : JSON) : bool :=
  match v with
  | JObj fields =>
      match assoc "toString" fields with
      | Some _ => false
      | None => true
      end
  | JArr items => forallb convertible items
  | _ => true
  end.

(** Modelled from the spec: the type [LSPMessage] of [src/types/index.ts],
    a JSON-RPC object whose fields are optional ("a Request has a unique
    id, a method name, and parameters; a Response has an id and exactly one
    of result, error; a Notification has a method name and parameters, no
    id").  [None] is a field that is absent ([undefined]). *)
Record LSPMessage : Type := {
  msg_id : option JSON;
  msg_method : option JSON;
  msg_params : option JSON;
  msg_result : option JSON;
  msg_error : option JSON;
}.

(** ** The frame decoder: [LSPClient.handleData] *)

Module Decoder.
Import JsString.

Definition MAX_BUFFER_SIZE : Z := 10 * 1024 * 1024.

Definition HEADER : list N := Eval cbv in lit "Content-Length: ".
Definition CRLFCRLF : list N := [CR; LF; CR; LF].

(** [buffer.match(/^Content-Length: (\d+)\r\n\r\n/)]: the digits of
    group 1 and the length of the whole match. *)
Definition matchHeader (buffer : list N) : option (list N * Z) :=
  match stripPrefix HEADER buffer with
  | None => None
  | Some afterName =>
      match spanDigits afterName with
      | ([], _) => None
      | (digits, afterDigits) =>
          match stripPrefix CRLFCRLF afterDigits with
          | None => None
          | Some _ => Some (digits, len HEADER + len digits + len CRLFCRLF)
          end
      end
  end.

Section Loop.
(** [JSON.parse(content) as LSPMessage]; [None] when it throws. *)
Variable JSON_parse : list N -> option LSPMessage.

(** The [while (true)] loop of [handleData]: the messages pushed on the
    queue, in order, and the buffer it leaves.  Every iteration that
    goes round again drops a whole header from the buffer, so
    [S (length buffer)] rounds are never used up
    ([processBuffer_fuel] below). *)
Fixpoint processBuffer (fuel : nat) (buffer : list N)
  : list LSPMessage * list N :=
  match fuel with
  | O => ([], buffer)
  | S fuel' =>
      match matchHeader buffer with
      | None => ([], buffer)
      | Some (digits, headerEnd) =>
          let contentLength := parseInt digits in
          if MAX_BUFFER_SIZE <? contentLength then
            processBuffer fuel'
              (substringFrom buffer (headerEnd + contentLength))
          else if len buffer <? headerEnd + contentLength then
            ([], buffer)
          else
            let content :=
              substring buffer headerEnd (headerEnd + contentLength) in
            let '(content, buffer) :=
              if negb (bool_decide (lastChar content = Some CLOSE_BRACE))
              then
                match lastIndexOf content CLOSE_BRACE with
                | Some lastBraceIndex =>
                    let actualContentLength := lastBraceIndex + 1 in
                    (substring content 0 actualContentLength,
                     substringFrom buffer (headerEnd + actualContentLength))
                | None =>
                    (content,
                     substringFrom buffer (headerEnd + contentLength))
                end
              else
                (content, substringFrom buffer (headerEnd + contentLength))
            in
            let '(later, rest) := processBuffer fuel' buffer in
            match JSON_parse content with
            | Some message => (message :: later, rest)
            | None => (later, rest)
            end
      end
  end.

(** The buffer after the new data is appended and the cap applied. *)
Definition appendData (buffer : list N) (data : list byte) : list N :=
  let buffer := buffer ++ toString data in
  if MAX_BUFFER_SIZE <? len buffer
  then substringFrom buffer (len buffer - MAX_BUFFER_SIZE)
  else buffer.

(** The loop run on a whole buffer. *)
Definition decode (buffer : list N) : list LSPMessage * list N :=
  processBuffer (S (length buffer)) buffer.

(** [handleData(data)] on the buffer: the messages decoded from this
    chunk and the buffer kept for the next one. *)
Definition handleData (buffer : list N) (data : list byte)
  : list LSPMessage * list N :=
  decode (appendData buffer data).

(** A sequence of [data] events, from a given buffer. *)
Fixpoint feed (buffer : list N) (chunks : list (list byte))
  : list LSPMessage * list N :=
  match chunks with
  | [] => ([], buffer)
  | data :: chunks' =>
      let '(now, buffer) := handleData buffer data in
      let '(later, buffer) := feed buffer chunks' in
      (now ++ later, buffer)
  end.

End Loop.

(** A frame on the wire: the header with the given digits, then the
    payload. *)
Definition HEADER_BYTES : list byte :=
  Eval cbv in String.list_byte_of_string "Content-Length: ".
Definition CRLFCRLF_BYTES : list byte := [x0d; x0a; x0d; x0a].

Definition encodeFrame (digits payload : list byte) : list byte :=
  HEADER_BYTES ++ digits ++ CRLFCRLF_BYTES ++ payload.

(** The bytes of a sequence of frames, each given by the digits of its
    header and its payload. *)
Definition encodeFrames (frames : list (list byte * list byte)) : list byte :=
  concat (map (fun f => encodeFrame f.1 f.2) frames).

(** A frame as the claims call it valid: a header of one or more decimal
    digits that give the number of bytes of the payload, and a payload
    that [JSON.parse] reads as the message. *)
Definition validFrame (JSON_parse : list N -> option LSPMessage)
    (f : list byte * list byte) (message : LSPMessage) : Prop :=
  f.1 <> []
  /\ forallb isDigit (of_bytes f.1) = true
  /\ parseInt (of_bytes f.1) = Z.of_nat (length f.2)
  /\ JSON_parse (toString f.2) = Some message.

(** What the decoder relies on besides: the payload is ASCII and ends
    with a closing brace, as a serialised JSON object does. *)
Definition plainFrame (f : list byte * list byte) : Prop :=
  forallb isAscii f.2 = true
  /\ last f.2 = Some "}"%byte.

(** The same, on the code units the buffer holds. *)
Definition frameUnits (f : list N * list N) : list N :=
  HEADER ++ f.1 ++ CRLFCRLF ++ f.2.

Definition streamUnits (frames : list (list N * list N)) : list N :=
  concat (map frameUnits frames).

Definition validUnits (JSON_parse : list N -> option LSPMessage)
    (f : list N * list N) (message : LSPMessage) : Prop :=
  f.1 <> []
  /\ forallb isDigit f.1 = true
  /\ parseInt f.1 = len f.2
  /\ len f.2 <= MAX_BUFFER_SIZE
  /\ lastChar f.2 = Some CLOSE_BRACE
  /\ JSON_parse f.2 = Some message.

(** What may be left in the buffer between two chunks of a stream whose
    frames to come are [frames]: less than the first of them. *)
Definition pendingPrefix (buffer : list N) (frames : list (list N * list N))
  : Prop :=
  match frames with
  | [] => buffer = []
  | f :: _ => len buffer < len (frameUnits f)
  end.

End Decoder.

(** ** The client: [class LSPClient] and the runtime it runs on *)

Module Client.

(** A promise made by [sendRequest], named by the order of its creation. *)
Definition PromiseId := nat.

(** A subscriber callback, named by the host; the set of subscribers
    compares callbacks by identity. *)
Definition Callback := nat.

Inductive Error : Type :=
  | NotStarted            (* "LSP process not started. Please call start_lsp first." *)
  | NotInitialized        (* "LSP client not initialized. Please call start_lsp first." *)
  | TimeoutError (method : string)
                          (* "Timeout waiting for response to <method> request" *)
  | ServerError (error : JSON)  (* the [error] of a response *)
  | CallbackThrew (callback : Callback).  (* whatever a subscriber threw *)

(** How the promise of a request was settled: [resolve(result)], where the
    result may be [undefined], or [reject(error)]. *)
Inductive Settlement : Type :=
  | Resolved (result : option JSON)
  | Rejected (error : Error).

(** How a call ended: it returned (an async function: its promise was
    fulfilled) or it threw (its promise was rejected). *)
Inductive Outcome : Type :=
  | Returned (value : option JSON)
  | Threw (error : Error).

Definition outcomeOf (s : Settlement) : Outcome :=
  match s with
  | Resolved result => Returned result
  | Rejected error => Threw error
  end.

(** The object written to the server: [{jsonrpc: "2.0", id, method, params}],
    without [id] for a notification.  It goes out as
    ["Content-Length: <bytes>\r\n\r\n" + JSON.stringify(it)]. *)
Record Outbound : Type := {
  out_id : option Z;
  out_method : string;
  out_params : option JSON;
}.

(** The child process: which [spawn] made it, and its [killed] flag. *)
Record ChildProcess : Type := {
  proc : nat;
  killed : bool;
}.

(** The public operations that await a request. *)
Inductive Operation : Type :=
  | OpInitialize | OpShutdown | OpRestart | OpQuery.

(** What is left to run of an operation suspended at an [await]: the
    bodies to resume, innermost first. *)
Inductive Frame : Type :=
  | FInitialize                 (* [initialize], behind [await this.sendRequest("initialize", ...)] *)
  | FShutdown                   (* [shutdown], behind [await this.sendRequest("shutdown")] *)
  | FRestartShutdown (rootDirectory : option string)
                                (* [restart], behind [await this.shutdown()] *)
  | FRestartInitialize          (* [restart], behind [await this.initialize(rootDirectory)] *)
  | FQuery.                     (* a query, behind its [await this.sendRequest(...)] *)

(** A call that has ended, or waits for a promise with frames to resume. *)
Inductive Await : Type :=
  | Done (outcome : Outcome)
  | Pending (promise : PromiseId) (stack : list Frame).

(** The fields of the class, then the runtime around it: the processes
    spawned and what was written to them, the timeouts armed by
    [sendRequest] (by promise: the id and method their callback closes
    over), every call of the [resolve] or [reject] of a request's promise,
    the operations suspended on a promise, the outcomes of the operations
    that ended, and the calls made to subscriber callbacks. *)
Record State : Type := mkState {
  process : option ChildProcess;
  buffer : list N;
  messageQueue : list LSPMessage;
  nextId : Z;
  responsePromises : gmap Z PromiseId;
  initialized : bool;
  serverCapabilities : option JSON;
  openedDocuments : list string;
  documentVersions : gmap string Z;
  processingQueue : bool;
  documentDiagnostics : list (JSON * list JSON);
  diagnosticSubscribers : list Callback;
  spawned : nat;
  written : list (nat * Outbound);
  timers : gmap PromiseId (Z * string);
  nextPromise : PromiseId;
  settled : list (PromiseId * Settlement);
  waiting : gmap PromiseId (Operation * list Frame);
  outcomes : list (Operation * Outcome);
  calls : list (Callback * JSON * list JSON);
}.

(** The state of [new LSPClient(path, args)] in a fresh runtime. *)
Definition initial : State :=
  {| process := None; buffer := []; messageQueue := []; nextId := 1;
     responsePromises := ∅; initialized := false; serverCapabilities := None;
     openedDocuments := []; documentVersions := ∅; processingQueue := false;
     documentDiagnostics := []; diagnosticSubscribers := [];
     spawned := 0%nat; written := []; timers := ∅; nextPromise := 0%nat;
     settled := []; waiting := ∅; outcomes := []; calls := [] |}.

Definition set_process (v : option ChildProcess) (s : State) : State :=
  mkState v (buffer s) (messageQueue s) (nextId s) (responsePromises s)
    (initialized s) (serverCapabilities s) (openedDocuments s)
    (documentVersions s) (processingQueue s) (documentDiagnostics s)
    (diagnosticSubscribers s) (spawned s) (written s) (timers s)
    (nextPromise s) (settled s) (waiting s) (outcomes s) (calls s).

Definition set_buffer (v : list N) (s : State) : State :=
  mkState (process s) v (messageQueue s) (nextId s) (responsePromises s)
    (initialized s) (serverCapabilities s) (openedDocuments s)
    (documentVersions s) (processingQueue s) (documentDiagnostics s)
    (diagnosticSubscribers s) (spawned s) (written s) (timers s)
    (nextPromise s) (settled s) (waiting s) (outcomes s) (calls s).

Definition set_messageQueue (v : list LSPMessage) (s : State) : State :=
  mkState (process s) (buffer s) v (nextId s) (responsePromises s)
    (initialized s) (serverCapabilities s) (openedDocuments s)
    (documentVersions s) (processingQueue s) (documentDiagnostics s)
    (diagnosticSubscribers s) (spawned s) (written s) (timers s)
    (nextPromise s) (settled s) (waiting s) (outcomes s) (calls s).

Definition set_nextId (v : Z) (s : State) : State :=
  mkState (process s) (buffer s) (messageQueue s) v (responsePromises s)
    (initialized s) (serverCapabilities s) (openedDocuments s)
    (documentVersions s) (processingQueue s) (documentDiagnostics s)
    (diagnosticSubscribers s) (spawned s) (written s) (timers s)
    (nextPromise s) (settled s) (waiting s) (outcomes s) (calls s).

Definition set_responsePromises (v : gmap Z PromiseId) (s : State) : State :=
  mkState (process s) (buffer s) (messageQueue s) (nextId s) v (initialized s)
    (serverCapabilities s) (openedDocuments s) (documentVersions s)
    (processingQueue s) (documentDiagnostics s) (diagnosticSubscribers s)
    (spawned s) (written s) (timers s) (nextPromise s) (settled s) (waiting s)
    (outcomes s) (calls s).

Definition set_initialized (v : bool) (s : State) : State :=
  mkState (process s) (buffer s) (messageQueue s) (nextId s)
    (responsePromises s) v (serverCapabilities s) (openedDocuments s)
    (documentVersions s) (processingQueue s) (documentDiagnostics s)
    (diagnosticSubscribers s) (spawned s) (written s) (timers s)
    (nextPromise s) (settled s) (waiting s) (outcomes s) (calls s).

Definition set_serverCapabilities (v : option JSON) (s : State) : State :=
  mkState (process s) (buffer s) (messageQueue s) (nextId s)
    (responsePromises s) (initialized s) v (openedDocuments s)
    (documentVersions s) (processingQueue s) (documentDiagnostics s)
    (diagnosticSubscribers s) (spawned s) (written s) (timers s)
    (nextPromise s) (settled s) (waiting s) (outcomes s) (calls s).

Definition set_openedDocuments (v : list string) (s : State) : State :=
  mkState (process s) (buffer s) (messageQueue s) (nextId s)
    (responsePromises s) (initialized s) (serverCapabilities s) v
    (documentVersions s) (processingQueue s) (documentDiagnostics s)
    (diagnosticSubscribers s) (spawned s) (written s) (timers s)
    (nextPromise s) (settled s) (waiting s) (outcomes s) (calls s).

Definition set_documentVersions (v : gmap string Z) (s : State) : State :=
  mkState (process s) (buffer s) (messageQueue s) (nextId s)
    (responsePromises s) (initialized s) (serverCapabilities s)
    (openedDocuments s) v (processingQueue s) (documentDiagnostics s)
    (diagnosticSubscribers s) (spawned s) (written s) (timers s)
    (nextPromise s) (settled s) (waiting s) (outcomes s) (calls s).

Definition set_processingQueue (v : bool) (s : State) : State :=
  mkState (process s) (buffer s) (messageQueue s) (nextId s)
    (responsePromises s) (initialized s) (serverCapabilities s)
    (openedDocuments s) (documentVersions s) v (documentDiagnostics s)
    (diagnosticSubscribers s) (spawned s) (written s) (timers s)
    (nextPromise s) (settled s) (waiting s) (outcomes s) (calls s).

Definition set_documentDiagnostics (v : list (JSON * list JSON)) (s : State) : State :=
  mkState (process s) (buffer s) (messageQueue s) (nextId s)
    (responsePromises s) (initialized s) (serverCapabilities s)
    (openedDocuments s) (documentVersions s) (processingQueue s) v
    (diagnosticSubscribers s) (spawned s) (written s) (timers s)
    (nextPromise s) (settled s) (waiting s) (outcomes s) (calls s).

Definition set_diagnosticSubscribers (v : list Callback) (s : State) : State :=
  mkState (process s) (buffer s) (messageQueue s) (nextId s)
    (responsePromises s) (initialized s) (serverCapabilities s)
    (openedDocuments s) (documentVersions s) (processingQueue s)
    (documentDiagnostics s) v (spawned s) (written s) (timers s)
    (nextPromise s) (settled s) (waiting s) (outcomes s) (calls s).

Definition set_spawned (v : nat) (s : State) : State :=
  mkState (process s) (buffer s) (messageQueue s) (nextId s)
    (responsePromises s) (initialized s) (serverCapabilities s)
    (openedDocuments s) (documentVersions s) (processingQueue s)
    (documentDiagnostics s) (diagnosticSubscribers s) v (written s) (timers s)
    (nextPromise s) (settled s) (waiting s) (outcomes s) (calls s).

Definition set_written (v : list (nat * Outbound)) (s : State) : State :=
  mkState (process s) (buffer s) (messageQueue s) (nextId s)
    (responsePromises s) (initialized s) (serverCapabilities s)
    (openedDocuments s) (documentVersions s) (processingQueue s)
    (documentDiagnostics s) (diagnosticSubscribers s) (spawned s) v (timers s)
    (nextPromise s) (settled s) (waiting s) (outcomes s) (calls s).

Definition set_timers (v : gmap PromiseId (Z * string)) (s : State) : State :=
  mkState (process s) (buffer s) (messageQueue s) (nextId s)
    (responsePromises s) (initialized s) (serverCapabilities s)
    (openedDocuments s) (documentVersions s) (processingQueue s)
    (documentDiagnostics s) (diagnosticSubscribers s) (spawned s) (written s)
    v (nextPromise s) (settled s) (waiting s) (outcomes s) (calls s).

Definition set_nextPromise (v : PromiseId) (s : State) : State :=
  mkState (process s) (buffer s) (messageQueue s) (nextId s)
    (responsePromises s) (initialized s) (serverCapabilities s)
    (openedDocuments s) (documentVersions s) (processingQueue s)
    (documentDiagnostics s) (diagnosticSubscribers s) (spawned s) (written s)
    (timers s) v (settled s) (waiting s) (outcomes s) (calls s).

Definition set_settled (v : list (PromiseId * Settlement)) (s : State) : State :=
  mkState (process s) (buffer s) (messageQueue s) (nextId s)
    (responsePromises s) (initialized s) (serverCapabilities s)
    (openedDocuments s) (documentVersions s) (processingQueue s)
    (documentDiagnostics s) (diagnosticSubscribers s) (spawned s) (written s)
    (timers s) (nextPromise s) v (waiting s) (outcomes s) (calls s).

Definition set_waiting (v : gmap PromiseId (Operation * list Frame)) (s : State) : State :=
  mkState (process s) (buffer s) (messageQueue s) (nextId s)
    (responsePromises s) (initialized s) (serverCapabilities s)
    (openedDocuments s) (documentVersions s) (processingQueue s)
    (documentDiagnostics s) (diagnosticSubscribers s) (spawned s) (written s)
    (timers s) (nextPromise s) (settled s) v (outcomes s) (calls s).

Definition set_outcomes (v : list (Operation * Outcome)) (s : State) : State :=
  mkState (process s) (buffer s) (messageQueue s) (nextId s)
    (responsePromises s) (initialized s) (serverCapabilities s)
    (openedDocuments s) (documentVersions s) (processingQueue s)
    (documentDiagnostics s) (diagnosticSubscribers s) (spawned s) (written s)
    (timers s) (nextPromise s) (settled s) (waiting s) v (calls s).

Definition set_calls (v : list (Callback * JSON * list JSON)) (s : State) : State :=
  mkState (process s) (buffer s) (messageQueue s) (nextId s)
    (responsePromises s) (initialized s) (serverCapabilities s)
    (openedDocuments s) (documentVersions s) (processingQueue s)
    (documentDiagnostics s) (diagnosticSubscribers s) (spawned s) (written s)
    (timers s) (nextPromise s) (settled s) (waiting s) (outcomes s) v.

(** *** Sets and maps that are iterated: insertion order *)

(** [set.add(x)] *)
Definition setAdd {A} `{EqDecision A} (x : A) (set : list A) : list A :=
  if bool_decide (x ∈ set) then set else set ++ [x].

(** [set.delete(x)] *)
Definition setDelete {A} `{EqDecision A} (x : A) (set : list A) : list A :=
  filter (fun y => y <> x) set.

(** The equality of the keys of a [Map]: a string, a number, a boolean or
    [null] is the key it is equal to; an object or an array is a key by
    identity, and each message is parsed into objects of its own, so that
    one that comes as a key is never among the keys already there. *)
Definition sameValueZero (a b : JSON) : bool :=
  match a, b with
  | JNull, JNull => true
  | JBool x, JBool y => Bool.eqb x y
  | JNum x, JNum y => x =? y
  | JStr x, JStr y => String.eqb x y
  | _, _ => false
  end.

(** [map.get(key)] *)
Fixpoint mapGet {V} (key : JSON) (map : list (JSON * V)) : option V :=
  match map with
  | [] => None
  | (k, v) :: rest => if sameValueZero k key then Some v else mapGet key rest
  end.

(** [map.set(key, value)]: a key that is present keeps its place. *)
Fixpoint mapSet {V} (key : JSON) (value : V) (map : list (JSON * V))
  : list (JSON * V) :=
  match map with
  | [] => [(key, value)]
  | (k, v) :: rest =>
      if sameValueZero k key then (k, value) :: rest
      else (k, v) :: mapSet key value rest
  end.

Section Host.
(** [process.pid] and [path.resolve] of the Node runtime, and the behaviour
    of the callbacks the host subscribes: whether a call of it throws.
    Callbacks are taken not to call back into the client.  A callback is
    called with the [uri] of the message as it was parsed, which the type
    [LSPMessage] lets be any value. *)
Variable pid : Z.
Variable path_resolve : string -> string.
Variable throws : Callback -> JSON -> list JSON -> bool.

(** *** Processes and writes *)

(** [startProcess()]: spawn the server and keep its handle. *)
Definition startProcess (s : State) : State :=
  set_spawned (S (spawned s))
    (set_process (Some {| proc := spawned s; killed := false |}) s).

(** [this.process.stdin.write(header + content)] *)
Definition write (message : Outbound) (s : State) : State :=
  match process s with
  | Some p => set_written (written s ++ [(proc p, message)]) s
  | None => s
  end.

(** [sendNotification(method, params)] *)
Definition sendNotification (method : string) (params : option JSON)
    (s : State) : State :=
  match process s with
  | None => s
  | Some _ =>
      write {| out_id := None; out_method := method; out_params := params |} s
  end.

(** [sendRequest(method, params)]: a promise that is already rejected when
    the process is not started; otherwise the next id, a new promise with
    its 10 second timeout armed and its entry in [responsePromises], and
    the request written. *)
Definition sendRequest (method : string) (params : option JSON) (s : State)
  : State * (Error + PromiseId) :=
  match process s with
  | None => (s, inl NotStarted)
  | Some _ =>
      let id := nextId s in
      let s := set_nextId (id + 1) s in
      let promise := nextPromise s in
      let s := set_nextPromise (S promise) s in
      let s := set_timers (<[promise := (id, method)]> (timers s)) s in
      let s := set_responsePromises (<[id := promise]> (responsePromises s)) s in
      let s :=
        write {| out_id := Some id; out_method := method;
                 out_params := params |} s in
      (s, inr promise)
  end.

(** A call of the [resolve] or [reject] that the executor of [promise]
    received. *)
Definition settle (promise : PromiseId) (how : Settlement) (s : State)
  : State :=
  set_settled (settled s ++ [(promise, how)]) s.

(** [clearTimeout(timeoutId)] for the timeout of [promise]. *)
Definition clearTimeout (promise : PromiseId) (s : State) : State :=
  set_timers (delete promise (timers s)) s.

(** The callback given to [setTimeout] by the request of [promise], which
    closes over [id] and [method]. *)
Definition onTimeout (promise : PromiseId) (id : Z) (method : string)
    (s : State) : State * option (PromiseId * Settlement) :=
  match responsePromises s !! id with
  | Some _ =>
      let s := set_responsePromises (delete id (responsePromises s)) s in
      let how := Rejected (TimeoutError method) in
      (settle promise how s, Some (promise, how))
  | None => (s, None)
  end.

(** *** Diagnostics *)

(** [notifyDiagnosticUpdate(uri, diagnostics)]: every subscriber is called,
    in the order of the set; what one throws is caught and logged, and is
    taken to be something [warning] can write. *)
Definition notifyDiagnosticUpdate (uri : JSON) (diagnostics : list JSON)
    (s : State) : State :=
  set_calls
    (calls s ++ map (fun callback => (callback, uri, diagnostics))
                    (diagnosticSubscribers s)) s.

(** The calls of the [forEach] of [subscribeToDiagnostics], which stops at
    the first call that throws. *)
Fixpoint deliverStored (callback : Callback)
    (stored : list (JSON * list JSON))
  : list (Callback * JSON * list JSON) * option Error :=
  match stored with
  | [] => ([], None)
  | (uri, diagnostics) :: rest =>
      if throws callback uri diagnostics
      then ([(callback, uri, diagnostics)], Some (CallbackThrew callback))
      else
        let '(later, thrown) := deliverStored callback rest in
        ((callback, uri, diagnostics) :: later, thrown)
  end.

(** [subscribeToDiagnostics(callback)] *)
Definition subscribeToDiagnostics (callback : Callback) (s : State)
  : State * Outcome :=
  let s := set_diagnosticSubscribers
             (setAdd callback (diagnosticSubscribers s)) s in
  let '(made, thrown) := deliverStored callback (documentDiagnostics s) in
  let s := set_calls (calls s ++ made) s in
  match thrown with
  | Some error => (s, Threw error)
  | None => (s, Returned None)
  end.

(** [unsubscribeFromDiagnostics(callback)] *)
Definition unsubscribeFromDiagnostics (callback : Callback) (s : State)
  : State :=
  set_diagnosticSubscribers (setDelete callback (diagnosticSubscribers s)) s.

(** [clearDiagnosticSubscribers()] *)
Definition clearDiagnosticSubscribers (s : State) : State :=
  set_diagnosticSubscribers [] s.

(** [getDiagnostics(uri)]: an array is truthy, so [|| []] only replaces
    [undefined]. *)
Definition getDiagnostics (uri : string) (s : State) : list JSON :=
  match mapGet (JStr uri) (documentDiagnostics s) with
  | Some diagnostics => diagnostics
  | None => []
  end.

(** [getAllDiagnostics()]: a copy of the map. *)
Definition getAllDiagnostics (s : State) : list (JSON * list JSON) :=
  documentDiagnostics s.

(** *** Inbound messages *)

(** [this.responsePromises.get(message.id)]: only a number is ever a key. *)
Definition lookupPromise (id : JSON) (s : State) : option PromiseId :=
  match id with
  | JNum n => responsePromises s !! n
  | _ => None
  end.

Definition isTruthy (v : option JSON) : bool :=
  match v with
  | Some v => truthy v
  | None => false
  end.

(** [v !== undefined] *)
Definition defined (v : option JSON) : bool :=
  match v with
  | Some _ => true
  | None => false
  end.

(** [v === "literal"] *)
Definition isString (literal : string) (v : JSON) : bool :=
  match v with
  | JStr s => String.eqb s literal
  | _ => false
  end.

(** The response branch of [handleMessage]. *)
Definition handleResponse (message : LSPMessage) (s : State)
  : State * option (PromiseId * Settlement) :=
  match msg_id message with
  | Some id =>
      if defined (msg_result message) || defined (msg_error message)
      then
        match id, lookupPromise id s with
        | JNum n, Some promise =>
            let how :=
              match msg_error message with
              | Some error =>
                  if truthy error then Rejected (ServerError error)
                  else Resolved (msg_result message)
              | None => Resolved (msg_result message)
              end in
            let s := settle promise how (clearTimeout promise s) in
            let s := set_responsePromises (delete n (responsePromises s)) s in
            (s, Some (promise, how))
        | _, _ => (s, None)
        end
      else (s, None)
  | None => (s, None)
  end.

(** [message.result?.capabilities] *)
Definition resultCapabilities (message : LSPMessage) : option JSON :=
  match msg_result message with
  | Some result => field "capabilities" result
  | None => None
  end.

(** The capabilities branch of [handleMessage]. *)
Definition storeCapabilities (message : LSPMessage) (s : State) : State :=
  match msg_id message, resultCapabilities message with
  | Some _, Some capabilities =>
      if truthy capabilities
      then set_serverCapabilities (Some capabilities) s
      else s
  | _, _ => s
  end.

(** Whether [d.severity || 4] throws for the item [d] of the diagnostics,
    when it is read or when [Math.min] makes a number of it: [null] has no
    properties, and a severity that is an object or an array is converted
    as [convertible] tells.  Any other item has a severity, or none and
    the default. *)
Definition severityThrows (d : JSON) : bool :=
  match d with
  | JNull => true
  | JObj fields =>
      match assoc "severity" fields with
      | Some severity => negb (convertible severity)
      | None => false
      end
  | _ => false
  end.

(** Whether the diagnostics branch throws between its test and
    [this.documentDiagnostics.set]: in [Math.min(...diagnostics.map(d =>
    d.severity || 4))], or in the template [`... for ${uri}`] of the line
    it logs, which is evaluated whatever the log level.  The [RangeError]
    an engine raises when the spread holds more arguments than it can
    pass is left aside. *)
Definition publishThrows (uri : JSON) (diagnostics : list JSON) : bool :=
  existsb severityThrows diagnostics || negb (convertible uri).

(** The notification branch of [handleMessage].  The store is typed
    [Map<string, any[]>], but nothing checks that the [uri] of a message is
    a string: whatever is truthy becomes a key.  When the branch throws,
    [handleMessage] is left before the store is touched and before any
    subscriber is called. *)
Definition handleNotification (message : LSPMessage) (s : State) : State :=
  match msg_method message, msg_id message with
  | Some method, None =>
      if isString "textDocument/publishDiagnostics" method
         && isTruthy (msg_params message)
      then
        match msg_params message with
        | Some params =>
            match field "uri" params, field "diagnostics" params with
            | Some uri, Some (JArr diagnostics) =>
                if truthy uri then
                  if publishThrows uri diagnostics then s
                  else
                    let s := set_documentDiagnostics
                               (mapSet uri diagnostics (documentDiagnostics s))
                               s in
                    notifyDiagnosticUpdate uri diagnostics s
                else s
            | _, _ => s
            end
        | None => s
        end
      else s
  | _, _ => s
  end.

(** [handleMessage(message)], and the promise it settled if any. *)
Definition handleMessage (message : LSPMessage) (s : State)
  : State * option (PromiseId * Settlement) :=
  let '(s, settledNow) := handleResponse message s in
  let s := storeCapabilities message s in
  let s := handleNotification message s in
  (s, settledNow).

(** *** Documents *)

Definition didOpenParams (uri languageId text : string) : JSON :=
  JObj [("textDocument",
         JObj [("uri", JStr uri); ("languageId", JStr languageId);
               ("version", JNum 1); ("text", JStr text)])].

Definition didChangeParams (uri : string) (newVersion : Z) (text : string)
  : JSON :=
  JObj [("textDocument", JObj [("uri", JStr uri); ("version", JNum newVersion)]);
        ("contentChanges", JArr [JObj [("text", JStr text)]])].

Definition didCloseParams (uri : string) : JSON :=
  JObj [("textDocument", JObj [("uri", JStr uri)])].

(** [this.documentVersions.get(uri) || 1] *)
Definition currentVersion (uri : string) (s : State) : Z :=
  match documentVersions s !! uri with
  | Some version => if version =? 0 then 1 else version
  | None => 1
  end.

(** [openDocument(uri, text, languageId)] *)
Definition openDocument (uri text languageId : string) (s : State)
  : State * Outcome :=
  if negb (initialized s) then (s, Threw NotInitialized)
  else if bool_decide (uri ∈ openedDocuments s) then
    let newVersion := currentVersion uri s + 1 in
    let s := sendNotification "textDocument/didChange"
               (Some (didChangeParams uri newVersion text)) s in
    let s := set_documentVersions (<[uri := newVersion]> (documentVersions s))
               s in
    (s, Returned None)
  else
    let s := sendNotification "textDocument/didOpen"
               (Some (didOpenParams uri languageId text)) s in
    let s := set_openedDocuments (setAdd uri (openedDocuments s)) s in
    let s := set_documentVersions (<[uri := 1]> (documentVersions s)) s in
    (s, Returned None).

(** [isDocumentOpen(uri)] *)
Definition isDocumentOpen (uri : string) (s : State) : bool :=
  bool_decide (uri ∈ openedDocuments s).

(** [getOpenDocuments()] *)
Definition getOpenDocuments (s : State) : list string := openedDocuments s.

(** [closeDocument(uri)] *)
Definition closeDocument (uri : string) (s : State) : State * Outcome :=
  if negb (initialized s) then (s, Threw NotInitialized)
  else if bool_decide (uri ∈ openedDocuments s) then
    let s := sendNotification "textDocument/didClose"
               (Some (didCloseParams uri)) s in
    let s := set_openedDocuments (setDelete uri (openedDocuments s)) s in
    let s := set_documentVersions (delete uri (documentVersions s)) s in
    (s, Returned None)
  else (s, Returned None).

(** *** Lifecycle *)

Definition initializeParams (rootDirectory : string) : JSON :=
  JObj [("processId", JNum pid);
        ("clientInfo", JObj [("name", JStr "lsp-mcp-server")]);
        ("rootUri", JStr ("file://" ++ path_resolve rootDirectory));
        ("capabilities",
         JObj [("textDocument",
           JObj [("hover",
                  JObj [("contentFormat",
                         JArr [JStr "markdown"; JStr "plaintext"])]);
                 ("completion",
                  JObj [("completionItem",
                         JObj [("snippetSupport", JBool false)])]);
                 ("codeAction", JObj [("dynamicRegistration", JBool true)]);
                 ("diagnostic", JObj [("dynamicRegistration", JBool false)]);
                 ("publishDiagnostics",
                  JObj [("relatedInformation", JBool true);
                        ("versionSupport", JBool false);
                        ("tagSupport", JObj []);
                        ("codeDescriptionSupport", JBool true);
                        ("dataSupport", JBool true)])])])].

(** [initialize(rootDirectory)] up to its [await]. *)
Definition initialize (rootDirectory : string) (s : State) : State * Await :=
  if initialized s then (s, Done (Returned None))
  else
    let s := match process s with None => startProcess s | Some _ => s end in
    match sendRequest "initialize" (Some (initializeParams rootDirectory)) s with
    | (s, inl error) => (s, Done (Threw error))
    | (s, inr promise) => (s, Pending promise [FInitialize])
    end.

(** [initialize] behind its [await]: the [initialized] notification and
    the flag when the request was answered, the error thrown again when it
    was not. *)
Definition initializeResume (outcome : Outcome) (s : State) : State * Await :=
  match outcome with
  | Returned _ =>
      let s := sendNotification "initialized" (Some (JObj [])) s in
      (set_initialized true s, Done (Returned None))
  | Threw error => (s, Done (Threw error))
  end.

(** The [for (const uri of this.openedDocuments)] of [shutdown]. *)
Definition closeAll (s : State) : State :=
  fold_left
    (fun s uri =>
       sendNotification "textDocument/didClose" (Some (didCloseParams uri)) s)
    (openedDocuments s) s.

(** [shutdown] behind its [await]: the [catch] logs the error and the
    function returns. *)
Definition shutdownResume (outcome : Outcome) (s : State) : State * Await :=
  match outcome with
  | Returned _ =>
      let s := sendNotification "exit" None s in
      let s := set_initialized false s in
      let s := set_openedDocuments [] s in
      (s, Done (Returned None))
  | Threw _ => (s, Done (Returned None))
  end.

(** [shutdown()] up to its [await]. *)
Definition shutdown (s : State) : State * Await :=
  if negb (initialized s) then (s, Done (Returned None))
  else
    let s := clearDiagnosticSubscribers s in
    let s := closeAll s in
    match sendRequest "shutdown" None s with
    | (s, inl error) => shutdownResume (Threw error) s
    | (s, inr promise) => (s, Pending promise [FShutdown])
    end.

(** [this.process.kill()] when there is a process that is not killed. *)
Definition killProcess (s : State) : State :=
  match process s with
  | Some p =>
      if killed p then s
      else set_process (Some {| proc := proc p; killed := true |}) s
  | None => s
  end.

(** The "Reset state" block of [restart]. *)
Definition resetState (s : State) : State :=
  let s := set_buffer [] s in
  let s := set_messageQueue [] s in
  let s := set_nextId 1 s in
  let s := set_responsePromises ∅ s in
  let s := set_initialized false s in
  let s := set_serverCapabilities None s in
  let s := set_openedDocuments [] s in
  let s := set_documentVersions ∅ s in
  let s := set_processingQueue false s in
  let s := set_documentDiagnostics [] s in
  clearDiagnosticSubscribers s.

(** [if (rootDirectory)] *)
Definition givenRoot (rootDirectory : option string) : option string :=
  match rootDirectory with
  | Some root => if String.eqb root "" then None else Some root
  | None => None
  end.

(** A call made with a frame to resume behind it. *)
Definition andThen (call : State * Await) (frame : Frame)
    (resume : Outcome -> State -> State * Await) : State * Await :=
  match call with
  | (s, Done outcome) => resume outcome s
  | (s, Pending promise stack) => (s, Pending promise (stack ++ [frame]))
  end.

(** [restart] behind [await this.initialize(rootDirectory)]. *)
Definition restartInitializeResume (outcome : Outcome) (s : State)
  : State * Await :=
  (s, Done outcome).

(** [restart] from "Kill the process" on. *)
Definition restartResume (rootDirectory : option string) (s : State)
  : State * Await :=
  let s := killProcess s in
  let s := resetState s in
  let s := startProcess s in
  match givenRoot rootDirectory with
  | Some root =>
      andThen (initialize root s) FRestartInitialize restartInitializeResume
  | None => (s, Done (Returned None))
  end.

(** [restart(rootDirectory)] up to its first [await]. *)
Definition restart (rootDirectory : option string) (s : State)
  : State * Await :=
  if initialized s
  then andThen (shutdown s) (FRestartShutdown rootDirectory)
         (fun _ => restartResume rootDirectory)
  else restartResume rootDirectory s.

(** A query ([getInfoOnLocation], [getCompletion], [getCodeActions]) as far
    as the state of the client goes: the guard and one request; what it
    makes of the answer is a return value only. *)
Definition query (method : string) (params : option JSON) (s : State)
  : State * Await :=
  if negb (initialized s) then (s, Done (Threw NotInitialized))
  else
    match sendRequest method params s with
    | (s, inl _) => (s, Done (Returned None))
    | (s, inr promise) => (s, Pending promise [FQuery])
    end.

(** *** Resuming suspended operations *)

Definition resumeFrame (frame : Frame) (outcome : Outcome) (s : State)
  : State * Await :=
  match frame with
  | FInitialize => initializeResume outcome s
  | FShutdown => shutdownResume outcome s
  | FRestartShutdown rootDirectory => restartResume rootDirectory s
  | FRestartInitialize => restartInitializeResume outcome s
  | FQuery => (s, Done (Returned None))
  end.

(** The frames of a suspended operation run with the outcome of what it
    awaited, until one of them awaits again or the operation ends. *)
Fixpoint unwind (stack : list Frame) (outcome : Outcome) (s : State)
  : State * Await :=
  match stack with
  | [] => (s, Done outcome)
  | frame :: rest =>
      match resumeFrame frame outcome s with
      | (s, Done outcome) => unwind rest outcome s
      | (s, Pending promise stack) => (s, Pending promise (stack ++ rest))
      end
  end.

(** An operation that ended is recorded, one that awaits is parked on its
    promise. *)
Definition park (operation : Operation) (call : State * Await) : State :=
  match call with
  | (s, Done outcome) => set_outcomes (outcomes s ++ [(operation, outcome)]) s
  | (s, Pending promise stack) =>
      set_waiting (<[promise := (operation, stack)]> (waiting s)) s
  end.

(** The reactions to a promise settled during a turn run once the turn is
    over. *)
Definition deliver (call : State * option (PromiseId * Settlement)) : State :=
  match call with
  | (s, Some (promise, how)) =>
      match waiting s !! promise with
      | Some (operation, stack) =>
          park operation
            (unwind stack (outcomeOf how)
               (set_waiting (delete promise (waiting s)) s))
      | None => s
      end
  | (s, None) => s
  end.

(** *** Turns of the event loop *)

Inductive Event : Type :=
  | CallInitialize (rootDirectory : option string)
  | CallOpenDocument (uri text languageId : string)
  | CallCloseDocument (uri : string)
  | CallSubscribe (callback : Callback)
  | CallUnsubscribe (callback : Callback)
  | CallQuery (method : string) (params : option JSON)
  | CallShutdown
  | CallRestart (rootDirectory : option string)
  | Receive (message : LSPMessage)   (* the drain loop hands a message to [handleMessage] *)
  | TimerFires (promise : PromiseId). (* the timeout armed for [promise] expires *)

Definition step (s : State) (event : Event) : State :=
  match event with
  | CallInitialize rootDirectory =>
      park OpInitialize
        (initialize (match rootDirectory with Some r => r | None => "." end) s)
  | CallOpenDocument uri text languageId => (openDocument uri text languageId s).1
  | CallCloseDocument uri => (closeDocument uri s).1
  | CallSubscribe callback => (subscribeToDiagnostics callback s).1
  | CallUnsubscribe callback => unsubscribeFromDiagnostics callback s
  | CallQuery method params => park OpQuery (query method params s)
  | CallShutdown => park OpShutdown (shutdown s)
  | CallRestart rootDirectory => park OpRestart (restart rootDirectory s)
  | Receive message => deliver (handleMessage message s)
  | TimerFires promise =>
      match timers s !! promise with
      | Some (id, method) =>
          deliver (onTimeout promise id method (clearTimeout promise s))
      | None => s
      end
  end.

Definition run (s : State) (events : list Event) : State :=
  fold_left step events s.

End Host.


End Client.

(** ** Notions used to state the properties of the client *)

Module ClientSpec.
Import Client.

(** The notification object [sendNotification] writes. *)
Definition notification (method : string) (params : JSON) : Outbound :=
  {| out_id := None; out_method := method; out_params := Some params |}.

(** [openDocument] called again for each text in turn. *)
Definition reopen (uri languageId : string) (texts : list string) (s : State)
  : State :=
  fold_left (fun s text => (openDocument uri text languageId s).1) texts s.

(** Modelled from the spec: the "open" notification, which carries the
    language and the full text of the document at version 1. *)
Definition didOpenNotice (uri languageId text : string) : Outbound :=
  {| out_id := None;
     out_method := "textDocument/didOpen";
     out_params :=
       Some (JObj [("textDocument",
                    JObj [("uri", JStr uri); ("languageId", JStr languageId);
                          ("version", JNum 1); ("text", JStr text)])]) |}.

(** Modelled from the spec: the "change" notification, which carries the
    full replacement text tagged with the new version, as the one content
    change that has no range. *)
Definition didChangeNotice (uri : string) (version : Z) (text : string)
  : Outbound :=
  {| out_id := None;
     out_method := "textDocument/didChange";
     out_params :=
       Some (JObj [("textDocument",
                    JObj [("uri", JStr uri); ("version", JNum version)]);
                   ("contentChanges", JArr [JObj [("text", JStr text)]])]) |}.

(** Modelled from the spec: the "change" notifications of successive
    updates of a document that is at [version], each with the next
    version: [version + 1], [version + 2], and so on. *)
Fixpoint changes (to : nat) (uri : string) (version : Z) (texts : list string)
  : list (nat * Outbound) :=
  match texts with
  | [] => []
  | text :: rest =>
      (to, didChangeNotice uri (version + 1) text)
      :: changes to uri (version + 1) rest
  end.

(** The request object [sendRequest] writes. *)
Definition request (id : Z) (method : string) (params : option JSON)
  : Outbound :=
  {| out_id := Some id; out_method := method; out_params := params |}.



(** A message that [handleMessage] takes for a response to request [id]:
    it has that id and a result or an error. *)
Definition answers (id : Z) (message : LSPMessage) : Prop :=
  msg_id message = Some (JNum id)
  /\ (defined (msg_result message) || defined (msg_error message)) = true.

(** The settlement [handleMessage] makes of a response. *)
Definition settlementOf (message : LSPMessage) : Settlement :=
  match msg_error message with
  | Some error =>
      if truthy error then Rejected (ServerError error)
      else Resolved (msg_result message)
  | None => Resolved (msg_result message)
  end.

(** A uri is in the open set exactly when it has a version. *)
Definition sessionsAgree (s : State) : Prop :=
  forall uri, uri ∈ openedDocuments s <-> is_Some (documentVersions s !! uri).

(** A [textDocument/publishDiagnostics] notification for [uri] that
    carries [diagnostics]. *)
Definition publishes (message : LSPMessage) (uri : string)
    (diagnostics : list JSON) : Prop :=
  msg_method message = Some (JStr "textDocument/publishDiagnostics")
  /\ msg_id message = None
  /\ exists params,
       msg_params message = Some params
       /\ field "uri" params = Some (JStr uri)
       /\ field "diagnostics" params = Some (JArr diagnostics).

(** The entries of a store under [key]. *)
Definition entriesOf {V} (key : JSON) (store : list (JSON * V))
  : list (JSON * V) :=
  filter (fun entry => sameValueZero entry.1 key = true) store.

(** A store holds at most one entry under a key, as a [Map] does. *)
Definition oneEntryPerKey {V} (store : list (JSON * V)) : Prop :=
  forall key, (length (entriesOf key store) <= 1)%nat.

(** The entries of the diagnostics store for the document [uri]. *)
Definition storedFor (uri : string) (s : State) : list (JSON * list JSON) :=
  entriesOf (JStr uri) (documentDiagnostics s).

(** The calls of subscribers about the document [uri] among [made]. *)
Definition callsAbout (uri : string)
    (made : list (Callback * JSON * list JSON))
  : list (Callback * JSON * list JSON) :=
  filter (fun call => sameValueZero call.1.2 (JStr uri) = true) made.

(** Diagnostics for which the diagnostics branch of [handleMessage] runs
    to its end: each item has a severity that can be read and compared. *)
Definition readable (diagnostics : list JSON) : Prop :=
  Forall (fun d => severityThrows d = false) diagnostics.

(** The settlements of [promise], oldest first. *)
Definition settledOf (promise : PromiseId) (s : State) : list Settlement :=
  map snd (filter (fun entry => entry.1 = promise) (settled s)).

(** *** The correlator

    What the operations of the client do to the ids, the pending calls,
    the timeouts and the promises comes down to four actions. *)

Record Corr : Type := {
  c_nextId : Z;
  c_pending : gmap Z PromiseId;
  c_timers : gmap PromiseId (Z * string);
  c_nextPromise : PromiseId;
  c_settled : list (PromiseId * Settlement);
}.

Definition corr (s : State) : Corr :=
  {| c_nextId := nextId s; c_pending := responsePromises s;
     c_timers := timers s; c_nextPromise := nextPromise s;
     c_settled := settled s |}.

Inductive Act : Type :=
  | ASend (method : string)                 (* [sendRequest] with a process *)
  | ARespond (id : Z) (how : Settlement)    (* a response to [id] handled *)
  | AFire (promise : PromiseId)             (* a timeout expires *)
  | AReset.                                 (* the reset of [restart] *)

Definition act (c : Corr) (a : Act) : Corr :=
  match a with
  | ASend method =>
      {| c_nextId := c_nextId c + 1;
         c_pending := <[c_nextId c := c_nextPromise c]> (c_pending c);
         c_timers := <[c_nextPromise c := (c_nextId c, method)]> (c_timers c);
         c_nextPromise := S (c_nextPromise c);
         c_settled := c_settled c |}
  | ARespond id how =>
      match c_pending c !! id with
      | Some promise =>
          {| c_nextId := c_nextId c;
             c_pending := delete id (c_pending c);
             c_timers := delete promise (c_timers c);
             c_nextPromise := c_nextPromise c;
             c_settled := c_settled c ++ [(promise, how)] |}
      | None => c
      end
  | AFire promise =>
      match c_timers c !! promise with
      | Some (id, method) =>
          match c_pending c !! id with
          | Some _ =>
              {| c_nextId := c_nextId c;
                 c_pending := delete id (c_pending c);
                 c_timers := delete promise (c_timers c);
                 c_nextPromise := c_nextPromise c;
                 c_settled :=
                   c_settled c ++ [(promise, Rejected (TimeoutError method))] |}
          | None =>
              {| c_nextId := c_nextId c;
                 c_pending := c_pending c;
                 c_timers := delete promise (c_timers c);
                 c_nextPromise := c_nextPromise c;
                 c_settled := c_settled c |}
          end
      | None => c
      end
  | AReset =>
      {| c_nextId := 1; c_pending := ∅; c_timers := c_timers c;
         c_nextPromise := c_nextPromise c; c_settled := c_settled c |}
  end.

Definition acts (c : Corr) (l : list Act) : Corr := fold_left act l c.

(** The actions a turn of the event loop may take: requests at will, the
    response the message is, the timeout that expires, and a reset only in
    a [restart], called now or suspended. *)
Definition isRestartShutdown (frame : Frame) : bool :=
  match frame with
  | FRestartShutdown _ => true
  | _ => false
  end.

Definition hasRestart (stack : list Frame) : bool :=
  existsb isRestartShutdown stack.

Definition restartSuspended (s : State) : Prop :=
  exists promise operation stack,
    waiting s !! promise = Some (operation, stack)
    /\ hasRestart stack = true.

(** Requests sent, and resets when [mayReset]. *)
Definition sendsOnly (mayReset : Prop) (a : Act) : Prop :=
  match a with
  | ASend _ => True
  | AReset => mayReset
  | _ => False
  end.

(** From [s] to [s'] the correlator saw requests sent (and resets when
    [mayReset]) and the suspended operations are the same. *)
Definition steady (mayReset : Prop) (s s' : State) : Prop :=
  (exists l, corr s' = acts (corr s) l /\ Forall (sendsOnly mayReset) l)
  /\ waiting s' = waiting s.

Definition allowed (s : State) (event : Event) (a : Act) : Prop :=
  match a with
  | ASend _ => True
  | ARespond id how =>
      exists message,
        event = Receive message /\ answers id message
        /\ how = settlementOf message
  | AFire promise => event = TimerFires promise
  | AReset => (exists rootDirectory, event = CallRestart rootDirectory)
              \/ restartSuspended s
  end.

(** What holds of the correlator in every state the client can reach. *)
Record CorrInv (c : Corr) : Prop := {
  inv_pending_timer :
    forall id promise, c_pending c !! id = Some promise ->
      exists method, c_timers c !! promise = Some (id, method);
  inv_timer_fresh :
    forall promise t, c_timers c !! promise = Some t ->
      (promise < c_nextPromise c)%nat /\ promise ∉ map fst (c_settled c);
  inv_settled_known :
    forall promise, promise ∈ map fst (c_settled c) ->
      (promise < c_nextPromise c)%nat;
  inv_settled_once : NoDup (map fst (c_settled c));
  inv_ids : forall id promise, c_pending c !! id = Some promise ->
      id < c_nextId c;
}.

(** No timeout of a call abandoned by a restart is armed: the call of
    every armed timeout is pending. *)
Definition noStaleTimer (c : Corr) : Prop :=
  forall promise id method,
    c_timers c !! promise = Some (id, method) ->
    c_pending c !! id = Some promise.

(** The request [id] of [promise] is pending, its timeout armed. *)
Definition pendingCall (id : Z) (promise : PromiseId) (method : string)
    (c : Corr) : Prop :=
  c_pending c !! id = Some promise
  /\ c_timers c !! promise = Some (id, method).

(** Nothing refers to [promise] any more. *)
Definition spent (promise : PromiseId) (c : Corr) : Prop :=
  (promise < c_nextPromise c)%nat
  /\ c_timers c !! promise = None
  /\ forall id, c_pending c !! id <> Some promise.

Definition settledIn (promise : PromiseId) (c : Corr) : list Settlement :=
  map snd (filter (fun entry => entry.1 = promise) (c_settled c)).

(** An event that neither restarts the client, nor is a response to [id],
    nor the timeout of [promise]. *)
Definition leavesPending (id : Z) (promise : PromiseId) (event : Event)
  : Prop :=
  match event with
  | CallRestart _ => False
  | Receive message => ~ answers id message
  | TimerFires p => p <> promise
  | _ => True
  end.

(** An action that neither resets the correlator, nor answers [id], nor
    is the timeout of [promise]. *)
Definition harmless (id : Z) (promise : PromiseId) (a : Act) : Prop :=
  a <> AReset /\ (forall how, a <> ARespond id how) /\ a <> AFire promise.

Definition notRestart (event : Event) : Prop :=
  forall rootDirectory, event <> CallRestart rootDirectory.

End ClientSpec.

(** ** Outbound framing: the string [sendRequest] and [sendNotification]
    write *)

Module Framing.
Import JsString Decoder.

(** The decimal digits of a number below [10 ^ fuel], most significant
    first. *)
Fixpoint digitsOf (fuel : nat) (n : Z) : list N :=
  match fuel with
  | O => []
  | S fuel' =>
      if n <? 10 then [Z.to_N (48 + n)]
      else digitsOf fuel' (n / 10) ++ [Z.to_N (48 + n mod 10)]
  end.

(** [`${n}`] for an integer [n >= 0]: its decimal digits without leading
    zeros.  A number has at most [log2 n + 1] digits. *)
Definition decimal (n : Z) : list N :=
  digitsOf (S (Z.to_nat (Z.log2 n))) n.

(** [Buffer.byteLength(content)]: the length of the UTF-8 encoding of a
    string, where a surrogate pair takes 4 bytes and a lone surrogate the 3
    bytes of U+FFFD. *)
Fixpoint byteLength (content : list N) : Z :=
  match content with
  | [] => 0
  | c :: rest =>
      if (c <? 128)%N then 1 + byteLength rest
      else if (c <? 2048)%N then 2 + byteLength rest
      else if (55296 <=? c)%N && (c <=? 56319)%N then
        match rest with
        | d :: rest' =>
            if (56320 <=? d)%N && (d <=? 57343)%N
            then 4 + byteLength rest'
            else 3 + byteLength rest
        | [] => 3
        end
      else 3 + byteLength rest
  end.

(** [header + content] with
    [header = `Content-Length: ${Buffer.byteLength(content)}\r\n\r\n`]. *)
Definition frameOf (content : list N) : list N :=
  HEADER ++ decimal (byteLength content) ++ CRLFCRLF ++ content.

End Framing.

(** ** Log levels: [src/logging/index.ts] and [getLSPMethodLogLevel] *)

Module Logging.

Inductive LoggingLevel : Type :=
  | debug | info | notice | warning | error | critical | alert | emergency.

(** [LOG_LEVEL_PRIORITY] *)
Definition LOG_LEVEL_PRIORITY (level : LoggingLevel) : Z :=
  match level with
  | debug => 0 | info => 1 | notice => 2 | warning => 3
  | error => 4 | critical => 5 | alert => 6 | emergency => 7
  end.

(** [shouldLog(level)] when the current level is [logLevel]. *)
Definition shouldLog (logLevel level : LoggingLevel) : bool :=
  LOG_LEVEL_PRIORITY logLevel <=? LOG_LEVEL_PRIORITY level.

Definition levelName (level : LoggingLevel) : string :=
  match level with
  | debug => "debug" | info => "info" | notice => "notice"
  | warning => "warning" | error => "error" | critical => "critical"
  | alert => "alert" | emergency => "emergency"
  end.

Definition levels : list LoggingLevel :=
  [debug; info; notice; warning; error; critical; alert; emergency].

(** The level named by a string, if it names one: what
    [[...].includes(logLevel)] tests. *)
Definition levelNamed (name : string) : option LoggingLevel :=
  List.find (fun level => String.eqb (levelName level) name) levels.

(** The initial [logLevel]: [process.env.LOG_LEVEL || 'info'], replaced by
    ['info'] when it is not the name of a level. *)
Definition initialLevel (LOG_LEVEL : option string) : LoggingLevel :=
  match LOG_LEVEL with
  | Some name =>
      match levelNamed (if String.eqb name "" then "info" else name) with
      | Some level => level
      | None => info
      end
  | None => info
  end.

(** What [setLogLevel] writes. *)
Inductive Line : Type :=
  | Announced (oldLevel newLevel : LoggingLevel)
      (* the line written straight to stderr *)
  | Logged (level : LoggingLevel) (newLevel : LoggingLevel).
      (* [log(level, `Log level set to: ${newLevel}`)] when it passes *)

(** [log(level, ...)], as far as the line on stderr goes: nothing when
    [shouldLog] refuses the level. *)
Definition log (logLevel level : LoggingLevel) (line : Line) : list Line :=
  if shouldLog logLevel level then [line] else [].

(** [setLogLevel(level)]: the new current level and the lines written. *)
Definition setLogLevel (level : LoggingLevel) (logLevel : LoggingLevel)
  : LoggingLevel * list Line :=
  let oldLevel := logLevel in
  let logLevel := level in
  (logLevel,
   Announced oldLevel level :: log logLevel notice (Logged notice level)).

(** [hay.includes(needle)] *)
Fixpoint includes (needle hay : string) : bool :=
  String.prefix needle hay
  || match hay with
     | String _ rest => includes needle rest
     | EmptyString => false
     end.

(** [getLSPMethodLogLevel(method)] *)
Definition getLSPMethodLogLevel (method : string) : LoggingLevel :=
  if String.prefix "textDocument/did" method then debug
  else if includes "diagnostic" method || includes "publishDiagnostics" method
  then info
  else if String.eqb method "initialize" || String.eqb method "initialized"
          || String.eqb method "shutdown" || String.eqb method "exit"
  then notice
  else debug.

(** *** The severity of a set of diagnostics *)

(** What [d.severity || 4] evaluates to. *)
Inductive Severity : Type :=
  | Number (n : Z)
  | Coerced      (* a truthy value that is not a number: [Math.min] would
                    coerce it, which the model does not follow *)
  | TypeError.   (* [d] is [null]: reading a property of it throws *)

Definition severityOf (d : JSON) : Severity :=
  match d with
  | JNull => TypeError
  | JObj fields =>
      match assoc "severity" fields with
      | Some (JNum n) => if n =? 0 then Number 4 else Number n
      | Some v => if truthy v then Coerced else Number 4
      | None => Number 4
      end
  | _ => Number 4
  end.

(** [Math.min(...diagnostics.map(d => d.severity || 4))] for a non-empty
    array, [4] for an empty one. *)
Fixpoint minSeverity (diagnostics : list JSON) : Severity :=
  match diagnostics with
  | [] => Number 4
  | d :: rest =>
      match severityOf d, minSeverity rest with
      | TypeError, _ => TypeError
      | _, TypeError => TypeError
      | Coerced, _ => Coerced
      | _, Coerced => Coerced
      | Number n, Number m =>
          match rest with
          | [] => Number n
          | _ => Number (Z.min n m)
          end
      end
  end.

(** [severityToLevel[severity] || 'debug'] *)
Definition severityToLevel (severity : Z) : LoggingLevel :=
  if severity =? 1 then error
  else if severity =? 2 then warning
  else if severity =? 3 then info
  else debug.

(** The level at which the diagnostics of a notification are logged;
    [None] when the computation throws or coerces. *)
Definition diagnosticsLevel (diagnostics : list JSON) : option LoggingLevel :=
  match minSeverity diagnostics with
  | Number n => Some (severityToLevel n)
  | _ => None
  end.

End Logging.

(** ** What holds of the client between two turns of the event loop *)

Module ClientInv.
Import Client.

(** The fields the lifecycle, the document sessions and the diagnostics
    store rest on: a client that has no process has never been
    initialized and awaits nothing; the process at hand was spawned by
    this client and is not killed; every open document has a version,
    which is at least 1; the ordered sets hold no duplicates, and the
    diagnostics store one entry per key. *)
Record Sound (s : State) : Prop := {
  sound_started :
    process s = None -> initialized s = false /\ waiting s = ∅;
  sound_alive :
    forall p, process s = Some p ->
      killed p = false /\ (proc p < spawned s)%nat;
  sound_versions :
    forall uri, uri ∈ openedDocuments s ->
      exists version, documentVersions s !! uri = Some version /\ 1 <= version;
  sound_opened : NoDup (openedDocuments s);
  sound_stored : ClientSpec.oneEntryPerKey (documentDiagnostics s);
  sound_subscribers : NoDup (diagnosticSubscribers s);
}.

(** The same of a client whose process is started. *)
Definition Started (s : State) : Prop :=
  Sound s /\ is_Some (process s).

(** Two states that agree on the fields [Sound] reads. *)
Definition sameCore (s s' : State) : Prop :=
  process s' = process s /\ initialized s' = initialized s
  /\ waiting s' = waiting s /\ spawned s' = spawned s
  /\ openedDocuments s' = openedDocuments s
  /\ documentVersions s' = documentVersions s
  /\ documentDiagnostics s' = documentDiagnostics s
  /\ diagnosticSubscribers s' = diagnosticSubscribers s.

End ClientInv.

(** ** Document sessions in the states a client reaches *)

Module Sessions.
Import Client ClientSpec.

(** The stacks of the operations that await a response, when [shutdown]
    is only ever called by [restart]. *)
Definition knownStack (stack : list Frame) : Prop :=
  stack = [FInitialize] \/ stack = [FQuery]
  \/ stack = [FInitialize; FRestartInitialize]
  \/ exists rootDirectory, stack = [FShutdown; FRestartShutdown rootDirectory].

(** The open set and the version map agree, and [shutdown] is awaited
    only inside [restart]. *)
Definition Agree (s : State) : Prop :=
  sessionsAgree s
  /\ map_Forall (fun _ suspended => knownStack suspended.2) (waiting s).

(** The open set, the version map and the suspended operations are the
    same in both states. *)
Definition sameSessions (s s' : State) : Prop :=
  openedDocuments s' = openedDocuments s
  /\ documentVersions s' = documentVersions s
  /\ waiting s' = waiting s.

Definition notShutdown (event : Event) : Prop := event <> CallShutdown.

End Sessions.

(** ** The message queue: [processMessageQueue] *)

Module MessageQueue.

Section Queue.
(** Whether [handleMessage(message)] throws.  [handleMessage] has no
    [await]: it runs to its end, or to its exception, as soon as it is
    called. *)
Variable throws : LSPMessage -> bool.

(** The queue and its flag; the loop of [processMessageQueue] suspended at
    its [await] if there is one, with whether the call it awaits threw;
    and the messages handed to [handleMessage] so far, oldest first.
    [restart], which resets the queue and the flag under a suspended
    loop, is left aside here. *)
Record State : Type := mkState {
  messageQueue : list LSPMessage;
  processingQueue : bool;
  awaiting : option bool;
  handled : list LSPMessage;
}.

Definition initial : State :=
  {| messageQueue := []; processingQueue := false; awaiting := None;
     handled := [] |}.

(** The [while] loop from its test to its next [await], or through the
    [finally] when the queue is empty. *)
Definition loop (s : State) : State :=
  match messageQueue s with
  | message :: rest =>
      {| messageQueue := rest; processingQueue := processingQueue s;
         awaiting := Some (throws message);
         handled := handled s ++ [message] |}
  | [] =>
      {| messageQueue := []; processingQueue := false; awaiting := None;
         handled := handled s |}
  end.

(** [processMessageQueue()] up to its first [await]. *)
Definition processMessageQueue (s : State) : State :=
  if processingQueue s then s
  else
    loop {| messageQueue := messageQueue s; processingQueue := true;
            awaiting := awaiting s; handled := handled s |}.

(** [this.messageQueue.push(message); this.processMessageQueue()] of
    [handleData]. *)
Definition enqueue (message : LSPMessage) (s : State) : State :=
  processMessageQueue
    {| messageQueue := messageQueue s ++ [message];
       processingQueue := processingQueue s; awaiting := awaiting s;
       handled := handled s |}.

(** The loop resumed behind its [await]: through the [finally] when the
    call it awaited threw, round the loop again when it did not. *)
Definition resume (s : State) : State :=
  match awaiting s with
  | None => s
  | Some true =>
      {| messageQueue := messageQueue s; processingQueue := false;
         awaiting := None; handled := handled s |}
  | Some false =>
      loop {| messageQueue := messageQueue s;
              processingQueue := processingQueue s; awaiting := None;
              handled := handled s |}
  end.

Inductive Event : Type :=
  | Enqueue (message : LSPMessage)  (* [handleData] has parsed a message *)
  | Resume.                         (* the suspended loop goes on *)

Definition step (s : State) (event : Event) : State :=
  match event with
  | Enqueue message => enqueue message s
  | Resume => resume s
  end.

Definition run (s : State) (events : list Event) : State :=
  fold_left step events s.

(** The messages of a sequence of events, in the order they arrived. *)
Definition arrivals (events : list Event) : list LSPMessage :=
  flat_map (fun event =>
              match event with
              | Enqueue message => [message]
              | Resume => []
              end) events.

(** What was handled and what is queued make up what arrived, and the
    flag is set exactly while a loop is suspended. *)
Definition Consistent (pushed : list LSPMessage) (s : State) : Prop :=
  handled s ++ messageQueue s = pushed
  /\ processingQueue s
     = match awaiting s with Some _ => true | None => false end.

(** While no message throws: the queued messages do not, and either a
    loop is suspended on a call that did not throw, or none is and the
    queue is empty. *)
Definition Quiet (s : State) : Prop :=
  Forall (fun message => throws message = false) (messageQueue s)
  /\ (awaiting s = Some false
      \/ (awaiting s = None /\ messageQueue s = [])).

End Queue.

End MessageQueue.

(** ** Concrete inputs used by the examples below *)

Module Examples.
Import JsString Decoder.

(** The bytes of an ASCII text in which a single quote stands for the double
    quote of JSON. *)
Definition js (s : string) : list byte :=
  map (fun b => if Byte.eqb b "'"%byte then x22 else b)
      (String.list_byte_of_string s).

Definition bytes (s : string) : list byte := String.list_byte_of_string s.

(** Two small frames: a response and a notification. *)
Definition payload1 : list byte :=
  Eval cbv in js "{'jsonrpc':'2.0','id':1,'result':null}".
Definition payload2 : list byte :=
  Eval cbv in js "{'jsonrpc':'2.0','method':'initialized'}".
Definition digits1 : list byte := Eval cbv in bytes "38".
Definition digits2 : list byte := Eval cbv in bytes "40".

Definition frames12 : list (list byte * list byte) :=
  [(digits1, payload1); (digits2, payload2)].

Definition stream12 : list byte := Eval cbv in encodeFrames frames12.

(** The stream cut inside the first header, inside the first payload, inside
    the second header and inside the second payload. *)
Definition chunks12 : list (list byte) :=
  [take 9 stream12; take 40 (drop 9 stream12); take 21 (drop 49 stream12);
   take 20 (drop 70 stream12); drop 90 stream12].

Definition message1 : LSPMessage :=
  {| msg_id := Some (JNum 1); msg_method := None; msg_params := None;
     msg_result := Some JNull; msg_error := None |}.
Definition message2 : LSPMessage :=
  {| msg_id := None; msg_method := Some (JStr "initialized"); msg_params := None;
     msg_result := None; msg_error := None |}.

(** What [JSON.parse] gives on the two payloads. *)
Definition parse12 (content : list N) : option LSPMessage :=
  if bool_decide (content = of_bytes payload1) then Some message1
  else if bool_decide (content = of_bytes payload2) then Some message2
  else None.

(** A frame one byte over the cap: a notification whose parameter is a
    string of 10485719 letters. *)
Definition bigDigits : list byte := Eval cbv in bytes "10485761".
Definition bigHead : list byte :=
  Eval cbv in js "{'jsonrpc':'2.0','method':'m','params':'".
Definition bigTail : list byte := Eval cbv in js "'}".
Definition bigPayloadOf (filler : nat) : list byte :=
  bigHead ++ repeat "a"%byte filler ++ bigTail.
Definition fillerLength : nat := Z.to_nat 10485719.
Definition bigPayload : list byte := bigPayloadOf fillerLength.
Definition bigFrame : list byte * list byte := (bigDigits, bigPayload).

(** The same announced length arriving in pieces: the header with the first
    8 bytes of the payload, then the other 10485753 bytes of it, then the
    frame of [payload2]. *)
Definition regionHead : list byte := Eval cbv in js "{'big':'".
Definition regionChunk1 : list byte :=
  Eval cbv in encodeFrame bigDigits regionHead.
Definition regionChunk2Of (filler : nat) : list byte :=
  repeat "a"%byte 55 ++ "a"%byte :: repeat "a"%byte filler ++ bigTail.
Definition regionFiller : nat := Z.to_nat 10485695.
Definition regionChunk2 : list byte := regionChunk2Of regionFiller.
Definition regionChunk3 : list byte := Eval cbv in encodeFrame digits2 payload2.

(** A payload of 31 bytes and 30 characters: the method name is e with an
    acute accent, two bytes in UTF-8. *)
Definition accentPayload : list byte :=
  Eval cbv in js "{'jsonrpc':'2.0','method':'" ++ [xc3; xa9] ++ js "'}".
Definition accentDigits : list byte := Eval cbv in bytes "31".

(** A host: the pid and working directory of the Node process, callbacks
    that never throw, and callbacks that always do. *)
Definition hostPid : Z := 4242.
Definition hostResolve (directory : string) : string := "/work".
Definition quiet : Client.Callback -> JSON -> list JSON -> bool :=
  fun _ _ _ => false.
Definition faulty : Client.Callback -> JSON -> list JSON -> bool :=
  fun _ _ _ => true.

(** The answer of a server to the request [id]. *)
Definition response (id : Z) (result : JSON) : LSPMessage :=
  {| msg_id := Some (JNum id); msg_method := None; msg_params := None;
     msg_result := Some result; msg_error := None |}.


Definition publishDiagnostics (uri : string) (diagnostics : list JSON)
  : LSPMessage :=
  {| msg_id := None;
     msg_method := Some (JStr "textDocument/publishDiagnostics");
     msg_params :=
       Some (JObj [("uri", JStr uri); ("diagnostics", JArr diagnostics)]);
     msg_result := None; msg_error := None |}.

Definition diagnostic (severity : Z) (message : string) : JSON :=
  JObj [("severity", JNum severity); ("message", JStr message)].

(** [initialize()] answered with empty capabilities: the client is
    Initialized, request 1 is spent. *)
Definition ready : Client.State :=
  Client.run hostPid hostResolve quiet Client.initial
    [Client.CallInitialize None;
     Client.Receive (response 1 (JObj [("capabilities", JObj [])]))].

(** The same with [file:///a.txt] open. *)
Definition opened : Client.State :=
  Client.run hostPid hostResolve quiet ready
    [Client.CallOpenDocument "file:///a.txt" "hello" "plaintext"].

Definition server0 : Client.ChildProcess :=
  {| Client.proc := 0; Client.killed := false |}.

(** A client made ready that has then asked for a hover: request 2, the
    second promise. *)
Definition hovering : list Client.Event :=
  [Client.CallInitialize None;
   Client.Receive (response 1 (JObj [("capabilities", JObj [])]));
   Client.CallQuery "textDocument/hover" None].

(** What happens next: a document is opened, diagnostics arrive, a
    completion is asked for. *)
Definition meanwhile : list Client.Event :=
  [Client.CallOpenDocument "file:///a.txt" "hello" "plaintext";
   Client.Receive (publishDiagnostics "file:///a.txt" [diagnostic 1 "e"]);
   Client.CallQuery "textDocument/completion" None].

End Examples.

(** ** More concrete inputs *)

Module MoreExamples.
Import JsString Decoder Examples.

(** The first payload without its closing brace, and the second frame as
    the buffer holds it. *)
Definition body1 : list N := Eval cbv in removelast (of_bytes payload1).
Definition frame2 : list N := Eval cbv in of_bytes (encodeFrame digits2 payload2).

(** A payload that is an array, not an object. *)
Definition arrayPayload : list N := Eval cbv in lit "[1]".

(** A request of the server to the client. *)
Definition configurationRequest : LSPMessage :=
  {| msg_id := Some (JNum 7);
     msg_method := Some (JStr "workspace/configuration");
     msg_params := Some (JObj [("items", JArr [])]);
     msg_result := None; msg_error := None |}.

(** A notification the client has no use for. *)
Definition logMessage : LSPMessage :=
  {| msg_id := None; msg_method := Some (JStr "window/logMessage");
     msg_params := Some (JObj [("type", JNum 3); ("message", JStr "ready")]);
     msg_result := None; msg_error := None |}.

Definition hoverCapabilities : JSON := JObj [("hoverProvider", JBool true)].

(** A ready client with two subscribers. *)
Definition watched : Client.State :=
  Client.run hostPid hostResolve quiet ready
    [Client.CallSubscribe 7%nat; Client.CallSubscribe 9%nat].

(** A client restarted while its [initialize] request was pending, and
    initialized again. *)
Definition restarted : list Client.Event :=
  [Client.CallInitialize None; Client.CallRestart None;
   Client.CallInitialize None].

End MoreExamples.

(** * Properties *)

(** ** Strings *)

Module JsStringFacts.
Import JsString.

Lemma utf8_ascii (bs : list N) :
  Forall (fun b => (b < 128)%N) bs -> utf8 bs = bs.
Proof.
  induction 1 as [|b r Hb _ IH]; [reflexivity|].
  cbn [utf8]. apply N.ltb_lt in Hb. rewrite Hb, IH. reflexivity.
Qed.

Lemma toString_ascii (data : list byte) :
  forallb isAscii data = true -> toString data = of_bytes data.
Proof.
  intros H. unfold toString. apply utf8_ascii.
  unfold of_bytes. apply Forall_map, Forall_forall.
  intros b Hb. rewrite forallb_forall in H.
  apply N.ltb_lt, H. by apply list_elem_of_In.
Qed.

Lemma of_bytes_app (a b : list byte) :
  of_bytes (a ++ b) = of_bytes a ++ of_bytes b.
Proof. apply map_app. Qed.

Lemma len_app (a b : list N) : len (a ++ b) = len a + len b.
Proof. unfold len. rewrite length_app. lia. Qed.

Lemma len_nonneg (s : list N) : 0 <= len s.
Proof. unfold len. lia. Qed.

Lemma stripPrefix_app (p s : list N) : stripPrefix p (p ++ s) = Some s.
Proof.
  induction p as [|a p IH]; [by destruct s|].
  cbn. by rewrite N.eqb_refl.
Qed.

Lemma stripPrefix_Some (p s r : list N) :
  stripPrefix p s = Some r -> s = p ++ r.
Proof.
  revert s. induction p as [|a p IH]; intros s H.
  - destruct s; cbn in *; congruence.
  - destruct s as [|b s]; [discriminate|]. cbn in H.
    destruct (N.eqb a b) eqn:E; [|discriminate].
    apply N.eqb_eq in E. subst b. cbn. f_equal. by apply IH.
Qed.

Lemma spanDigits_spec (s ds r : list N) :
  spanDigits s = (ds, r) ->
  s = ds ++ r /\ forallb isDigit ds = true
  /\ match r with c :: _ => isDigit c = false | [] => True end.
Proof.
  revert ds r. induction s as [|c s IH]; intros ds r H; cbn in H.
  - by inversion H.
  - destruct (isDigit c) eqn:E.
    + destruct (spanDigits s) as [ds' r'] eqn:E'. inversion H; subst.
      destruct (IH _ _ eq_refl) as (-> & Hd & Hr).
      cbn. rewrite E, Hd. done.
    + inversion H; subst. cbn. done.
Qed.

Lemma spanDigits_app (ds r : list N) :
  forallb isDigit ds = true ->
  match r with c :: _ => isDigit c = false | [] => True end ->
  spanDigits (ds ++ r) = (ds, r).
Proof.
  intros Hd Hr. induction ds as [|d ds IH].
  - destruct r as [|c r]; [reflexivity|]. cbn. by rewrite Hr.
  - cbn in Hd. apply andb_true_iff in Hd as [Hd1 Hd2].
    cbn. rewrite Hd1, (IH Hd2). reflexivity.
Qed.

Lemma parseInt_nonneg (ds : list N) :
  forallb isDigit ds = true -> 0 <= parseInt ds.
Proof.
  unfold parseInt.
  assert (G : forall acc, 0 <= acc -> forallb isDigit ds = true ->
    0 <= fold_left (fun acc d => acc * 10 + (Z.of_N d - 48)) ds acc).
  { induction ds as [|d ds IH]; intros acc Hacc Hd; cbn; [done|].
    cbn in Hd. apply andb_true_iff in Hd as [Hd1 Hd2].
    apply IH; [|done]. unfold isDigit in Hd1.
    apply andb_true_iff in Hd1 as [H1 _]. apply N.leb_le in H1. lia. }
  apply G. lia.
Qed.

Lemma lastIndexOf_nonneg (s : list N) (c : N) (i : Z) :
  lastIndexOf s c = Some i -> 0 <= i < len s.
Proof.
  revert i. induction s as [|x s IH]; intros i H; cbn in H; [discriminate|].
  unfold len in *. cbn [length].
  destruct (lastIndexOf s c) as [j|].
  - inversion H; subst. specialize (IH _ eq_refl). lia.
  - destruct (N.eqb x c); inversion H. lia.
Qed.

End JsStringFacts.

(** ** The frame decoder *)

Module DecoderFacts.
Import JsString JsStringFacts Decoder.

Lemma CR_not_digit : isDigit CR = false.
Proof. reflexivity. Qed.

(** What a successful header match says about the buffer. *)
Lemma matchHeader_Some (buffer digits : list N) (headerEnd : Z) :
  matchHeader buffer = Some (digits, headerEnd) ->
  exists rest,
    buffer = HEADER ++ digits ++ CRLFCRLF ++ rest
    /\ digits <> [] /\ forallb isDigit digits = true
    /\ headerEnd = 20 + len digits.
Proof.
  unfold matchHeader. intros H.
  destruct (stripPrefix HEADER buffer) as [afterName|] eqn:E1; [|discriminate].
  destruct (spanDigits afterName) as [ds afterDigits] eqn:E2.
  destruct ds as [|d ds]; [discriminate|].
  destruct (stripPrefix CRLFCRLF afterDigits) as [rest|] eqn:E3; [|discriminate].
  inversion H; subst. exists rest.
  apply stripPrefix_Some in E1, E3.
  apply spanDigits_spec in E2 as (E2 & Hd & _).
  subst. repeat split; try done.
  unfold len. cbn. lia.
Qed.

Lemma matchHeader_frame (digits rest : list N) :
  digits <> [] -> forallb isDigit digits = true ->
  matchHeader (HEADER ++ digits ++ CRLFCRLF ++ rest)
  = Some (digits, 20 + len digits).
Proof.
  intros Hne Hd. unfold matchHeader.
  rewrite stripPrefix_app, spanDigits_app by (done || reflexivity).
  destruct digits as [|d ds]; [congruence|].
  rewrite stripPrefix_app. do 2 f_equal. unfold len. cbn. lia.
Qed.

(** A buffer that does not begin with the letter C holds no header. *)
Lemma matchHeader_other (c : N) (rest : list N) :
  c <> 67%N -> matchHeader (c :: rest) = None.
Proof.
  intros Hc. unfold matchHeader, HEADER. cbn [stripPrefix].
  destruct (N.eqb 67 c) eqn:E; [|done].
  apply N.eqb_eq in E. congruence.
Qed.

Lemma matchHeader_nil : matchHeader [] = None.
Proof. reflexivity. Qed.

Lemma substringFrom_shorter (buffer : list N) (k : Z) :
  0 < k -> buffer <> [] ->
  (length (substringFrom buffer k) < length buffer)%nat.
Proof.
  intros Hk Hne. unfold substringFrom. rewrite length_drop.
  destruct buffer; [done|]. cbn [length]. lia.
Qed.

Section Loop.
Variable JSON_parse : list N -> option LSPMessage.

(** The loop never runs out of rounds: any two budgets above the length
    of the buffer give the same result. *)
Lemma processBuffer_fuel (f1 f2 : nat) (buffer : list N) :
  (length buffer < f1)%nat -> (length buffer < f2)%nat ->
  processBuffer JSON_parse f1 buffer = processBuffer JSON_parse f2 buffer.
Proof.
  revert f2 buffer. induction f1 as [|f1 IH]; intros f2 buffer H1 H2; [lia|].
  destruct f2 as [|f2]; [lia|]. cbn [processBuffer].
  destruct (matchHeader buffer) as [[digits headerEnd]|] eqn:E; [|done].
  destruct (matchHeader_Some _ _ _ E) as (rest & Hb & Hne & Hd & ->).
  assert (Hnil : buffer <> []) by (subst; discriminate).
  pose proof (parseInt_nonneg _ Hd) as Hp.
  pose proof (len_nonneg digits) as Hl.
  assert (Hstep : forall k, 0 <= k ->
    processBuffer JSON_parse f1 (substringFrom buffer (20 + len digits + k))
    = processBuffer JSON_parse f2 (substringFrom buffer (20 + len digits + k))).
  { intros k Hk.
    pose proof (substringFrom_shorter buffer (20 + len digits + k)
                  ltac:(lia) Hnil).
    apply IH; lia. }
  destruct (MAX_BUFFER_SIZE <? parseInt digits); [by apply Hstep|].
  destruct (len buffer <? 20 + len digits + parseInt digits); [done|].
  destruct (negb _).
  - destruct (lastIndexOf _ _) as [i|] eqn:Ei.
    + apply lastIndexOf_nonneg in Ei.
      rewrite (Hstep (i + 1)) by lia. done.
    + rewrite (Hstep _ Hp). done.
  - rewrite (Hstep _ Hp). done.
Qed.

Local Abbreviation decode := (Decoder.decode JSON_parse).

Lemma handleData_decode (buffer : list N) (data : list byte) :
  handleData JSON_parse buffer data = decode (appendData buffer data).
Proof. reflexivity. Qed.

(** No header: the loop breaks at once. *)
Lemma decode_no_header (buffer : list N) :
  matchHeader buffer = None -> decode buffer = ([], buffer).
Proof. intros H. unfold decode. cbn [processBuffer]. by rewrite H. Qed.

(** A header that announces more than the cap: what is buffered after
    the header is dropped, up to the announced length. *)
Lemma decode_oversize (buffer digits : list N) (headerEnd : Z) :
  matchHeader buffer = Some (digits, headerEnd) ->
  MAX_BUFFER_SIZE < parseInt digits ->
  decode buffer
  = decode (substringFrom buffer (headerEnd + parseInt digits)).
Proof.
  intros H Hbig. unfold decode at 1. cbn [processBuffer]. rewrite H.
  apply Z.ltb_lt in Hbig. rewrite Hbig.
  destruct (matchHeader_Some _ _ _ H) as (rest & Hb & Hne & Hd & ->).
  apply processBuffer_fuel; [|lia].
  apply Z.ltb_lt in Hbig.
  pose proof (len_nonneg digits).
  apply substringFrom_shorter; [unfold MAX_BUFFER_SIZE in Hbig; lia|].
  subst; discriminate.
Qed.

(** A header whose payload has not arrived in full: the loop breaks. *)
Lemma decode_incomplete (buffer digits : list N) (headerEnd : Z) :
  matchHeader buffer = Some (digits, headerEnd) ->
  parseInt digits <= MAX_BUFFER_SIZE ->
  len buffer < headerEnd + parseInt digits ->
  decode buffer = ([], buffer).
Proof.
  intros H Hcap Hshort. unfold decode. cbn [processBuffer]. rewrite H.
  apply Z.ltb_ge in Hcap. apply Z.ltb_lt in Hshort.
  by rewrite Hcap, Hshort.
Qed.

(** A whole frame at the head of the buffer whose payload ends with a
    closing brace: the payload goes to [JSON.parse] and decoding goes on
    behind the frame. *)
Lemma decode_frame (digits payload rest : list N) :
  digits <> [] -> forallb isDigit digits = true ->
  parseInt digits = len payload ->
  len payload <= MAX_BUFFER_SIZE ->
  lastChar payload = Some CLOSE_BRACE ->
  decode (HEADER ++ digits ++ CRLFCRLF ++ payload ++ rest)
  = let '(later, buffer) := decode rest in
    match JSON_parse payload with
    | Some message => (message :: later, buffer)
    | None => (later, buffer)
    end.
Proof.
  intros Hne Hd Hlen Hcap Hlast.
  remember (HEADER ++ digits ++ CRLFCRLF ++ payload ++ rest) as buffer
    eqn:Hbuf.
  assert (Hm : matchHeader buffer = Some (digits, 20 + len digits))
    by (subst buffer; by apply matchHeader_frame).
  unfold decode at 1. cbn [processBuffer]. rewrite Hm.
  rewrite Hlen. apply Z.ltb_ge in Hcap. rewrite Hcap.
  assert (Hhdr : buffer = (HEADER ++ digits ++ CRLFCRLF) ++ payload ++ rest)
    by (subst buffer; by rewrite <- !app_assoc).
  assert (Hhl : Z.to_nat (20 + len digits)
                = length (HEADER ++ digits ++ CRLFCRLF)).
  { rewrite !length_app. unfold len. cbn. lia. }
  assert (Hlb : (len buffer <? 20 + len digits + len payload) = false).
  { apply Z.ltb_ge. rewrite Hhdr, !len_app.
    change (len HEADER) with 16. change (len CRLFCRLF) with 4.
    pose proof (len_nonneg rest). lia. }
  rewrite Hlb.
  assert (Hc : substring buffer (20 + len digits)
                 (20 + len digits + len payload) = payload).
  { unfold substring. rewrite Hhl at 2. rewrite Hhdr, drop_app_length.
    replace (Z.to_nat (20 + len digits + len payload)
             - Z.to_nat (20 + len digits))%nat with (length payload)
      by (pose proof (len_nonneg digits); unfold len in *; lia).
    apply take_app_length. }
  rewrite Hc, Hlast.
  rewrite bool_decide_true by done. cbn [negb].
  assert (Hr : substringFrom buffer (20 + len digits + len payload) = rest).
  { unfold substringFrom.
    rewrite Hhdr, (app_assoc _ payload rest).
    apply drop_app_length'. rewrite length_app, <- Hhl.
    pose proof (len_nonneg digits); unfold len in *; lia. }
  rewrite Hr.
  rewrite (processBuffer_fuel (length buffer) (S (length rest))); [done| |lia].
  rewrite Hhdr, !length_app. cbn. lia.
Qed.

Lemma digits_unique (ds ds' a b : list N) :
  forallb isDigit ds = true -> forallb isDigit ds' = true ->
  ds ++ CRLFCRLF ++ a = ds' ++ CRLFCRLF ++ b -> ds = ds' /\ a = b.
Proof.
  intros Hd Hd' E.
  pose proof (spanDigits_app ds (CRLFCRLF ++ a) Hd eq_refl) as S1.
  pose proof (spanDigits_app ds' (CRLFCRLF ++ b) Hd' eq_refl) as S2.
  rewrite E, S2 in S1.
  assert (E1 : ds = ds') by congruence.
  assert (E2 : CRLFCRLF ++ a = CRLFCRLF ++ b) by congruence.
  split; [done|]. by apply app_inv_head in E2.
Qed.

(** A buffer that holds only the beginning of a frame is left as it is. *)
Lemma decode_prefix (f : list N * list N) (m : LSPMessage) (p q : list N) :
  validUnits JSON_parse f m -> p ++ q = frameUnits f -> q <> [] ->
  decode p = ([], p).
Proof.
  intros (Hne & Hd & Hlen & Hcap & _ & _) E Hq.
  destruct (matchHeader p) as [[ds he]|] eqn:Hm;
    [|by apply decode_no_header].
  destruct (matchHeader_Some _ _ _ Hm) as (rest & Hp & Hne' & Hd' & ->).
  unfold frameUnits in E. rewrite Hp, <- !app_assoc in E.
  apply app_inv_head in E.
  destruct (digits_unique _ _ _ _ Hd' Hd E) as [-> E'].
  apply (decode_incomplete _ _ _ Hm); [lia|].
  rewrite Hlen, <- E', Hp, !len_app.
  change (len HEADER) with 16. change (len CRLFCRLF) with 4.
  assert (0 < len q) by (destruct q; [done|unfold len; cbn; lia]).
  lia.
Qed.

Lemma validUnits_frame_len (f : list N * list N) (m : LSPMessage) :
  validUnits JSON_parse f m -> len (frameUnits f) = 20 + len f.1 + len f.2.
Proof.
  intros _. unfold frameUnits. rewrite !len_app.
  change (len HEADER) with 16. change (len CRLFCRLF) with 4. lia.
Qed.

(** Decoding any beginning [x] of a stream of valid frames gives the
    messages of the frames that are whole in [x] and keeps the beginning of
    the next one. *)
Lemma decode_stream (frames : list (list N * list N)) (msgs : list LSPMessage)
    (x rest : list N) :
  Forall2 (validUnits JSON_parse) frames msgs ->
  x ++ rest = streamUnits frames ->
  exists done todo msgs1 msgs2 b,
    frames = done ++ todo /\ msgs = msgs1 ++ msgs2
    /\ Forall2 (validUnits JSON_parse) todo msgs2
    /\ decode x = (msgs1, b)
    /\ b ++ rest = streamUnits todo
    /\ pendingPrefix b todo.
Proof.
  intros HF. revert x. induction HF as [|f m fs ms Hv HF IH]; intros x E.
  - cbn in E. apply app_eq_nil in E as [-> ->].
    exists [], [], [], [], []. repeat split; done.
  - unfold streamUnits in E. cbn [map concat] in E.
    fold (streamUnits fs) in E.
    assert (Hwhole : forall l, streamUnits fs = l ++ rest ->
      exists done todo msgs1 msgs2 b,
        f :: fs = done ++ todo /\ m :: ms = msgs1 ++ msgs2
        /\ Forall2 (validUnits JSON_parse) todo msgs2
        /\ decode (frameUnits f ++ l) = (msgs1, b)
        /\ b ++ rest = streamUnits todo
        /\ pendingPrefix b todo).
    { intros l El.
      destruct (IH l (eq_sym El))
        as (dn & td & m1 & m2 & b & ? & ? & ? & Hdec & ? & ?).
      destruct Hv as (Hne & Hd & Hlen & Hcap & Hlast & Hparse).
      exists (f :: dn), td, (m :: m1), m2, b. subst.
      repeat split; try done.
      unfold frameUnits. rewrite <- !app_assoc.
      rewrite decode_frame by done. by rewrite Hdec, Hparse. }
    apply app_eq_app in E as [l [[E1 E2]|[E1 E2]]].
    + (* the first frame is whole in x *)
      subst x. by apply Hwhole.
    + destruct l as [|c l].
      * (* x is exactly the first frame *)
        rewrite app_nil_r in E1. cbn in E2. subst rest.
        rewrite <- E1, <- (app_nil_r (frameUnits f)).
        by apply Hwhole.
      * (* the first frame is not whole in x *)
        exists [], (f :: fs), [], (m :: ms), x.
        repeat split; try done.
        -- by constructor.
        -- by apply (decode_prefix f m x (c :: l)).
        -- rewrite E2. unfold streamUnits. cbn [map concat].
           by rewrite E1, <- app_assoc.
        -- unfold pendingPrefix. rewrite E1, len_app.
           unfold len at 3. cbn [length]. lia.
Qed.

(** Chunks of ASCII bytes that continue a stream of valid frames, from a
    buffer that holds the beginning of the next frame: every frame is
    decoded, whatever the chunk boundaries. *)
Lemma feed_stream (chunks : list (list byte))
    (frames : list (list N * list N)) (msgs : list LSPMessage) (b : list N) :
  Forall2 (validUnits JSON_parse) frames msgs ->
  pendingPrefix b frames ->
  b ++ of_bytes (concat chunks) = streamUnits frames ->
  Forall (fun c => forallb isAscii c = true) chunks ->
  (forall c f, In c chunks -> In f frames ->
     len (frameUnits f) + Z.of_nat (length c) <= MAX_BUFFER_SIZE) ->
  feed JSON_parse b chunks = (msgs, []).
Proof.
  revert frames msgs b.
  induction chunks as [|c cs IH]; intros frames msgs b HF Hpend E Hascii Hsize.
  - cbn in E. rewrite app_nil_r in E. cbn [feed].
    destruct HF as [|f m fs ms Hv HF].
    + cbn in Hpend. by subst.
    + exfalso. unfold pendingPrefix in Hpend. rewrite E in Hpend.
      unfold streamUnits in Hpend. cbn [map concat] in Hpend.
      rewrite len_app in Hpend. pose proof (len_nonneg (concat (map frameUnits fs))).
      lia.
  - cbn [concat] in E. rewrite of_bytes_app, app_assoc in E.
    inversion Hascii as [|? ? Hc Hcs]; subst.
    cbn [feed]. unfold handleData, appendData.
    rewrite (toString_ascii _ Hc).
    assert (Hfit : (MAX_BUFFER_SIZE <? len (b ++ of_bytes c)) = false).
    { apply Z.ltb_ge. rewrite len_app.
      assert (Hlc : len (of_bytes c) = Z.of_nat (length c))
        by (unfold len, of_bytes; by rewrite length_map).
      destruct frames as [|f fs].
      - cbn in Hpend. subst b. cbn in E.
        apply app_eq_nil in E as [E _]. rewrite E. done.
      - unfold pendingPrefix in Hpend.
        specialize (Hsize c f (or_introl eq_refl) (or_introl eq_refl)). lia. }
    rewrite Hfit.
    destruct (decode_stream _ _ _ _ HF E)
      as (dn & td & m1 & m2 & b1 & -> & -> & HF2 & Hdec & E2 & Hp2).
    rewrite Hdec.
    rewrite (IH td m2 b1 HF2 Hp2 E2 Hcs).
    + done.
    + intros c' f' Hc' Hf'. apply Hsize; [by right|].
      apply in_or_app. by right.
Qed.

End Loop.

(** The cap on the buffer. *)
Lemma appendData_fits (b : list N) (data : list byte) :
  len (b ++ toString data) <= MAX_BUFFER_SIZE ->
  appendData b data = b ++ toString data.
Proof.
  intros H. unfold appendData. apply Z.ltb_ge in H. by rewrite H.
Qed.

Lemma appendData_overflow (b : list N) (data : list byte) (pre kept : list N) :
  b ++ toString data = pre ++ kept -> len kept = MAX_BUFFER_SIZE ->
  appendData b data = kept.
Proof.
  intros E Hk. unfold appendData. rewrite E.
  destruct (MAX_BUFFER_SIZE <? len (pre ++ kept)) eqn:Hover.
  - unfold substringFrom. apply drop_app_length'.
    rewrite len_app, Hk. unfold len. lia.
  - apply Z.ltb_ge in Hover. rewrite len_app, Hk in Hover.
    destruct pre; [done|]. unfold len in Hover. cbn in Hover. lia.
Qed.

(** No header at the head of the buffer: nothing is decoded, whatever
    follows in the buffer. *)
Lemma handleData_no_header (JSON_parse : list N -> option LSPMessage)
    (b : list N) (data : list byte) :
  matchHeader (appendData b data) = None ->
  handleData JSON_parse b data = ([], appendData b data).
Proof. intros H. unfold handleData. by apply decode_no_header. Qed.

Lemma of_bytes_HEADER : of_bytes HEADER_BYTES = HEADER.
Proof. reflexivity. Qed.

Lemma of_bytes_CRLFCRLF : of_bytes CRLFCRLF_BYTES = CRLFCRLF.
Proof. reflexivity. Qed.

Lemma of_bytes_encodeFrame (ds pl : list byte) :
  of_bytes (encodeFrame ds pl) = frameUnits (of_bytes ds, of_bytes pl).
Proof.
  unfold encodeFrame, frameUnits. by rewrite !of_bytes_app.
Qed.

Lemma of_bytes_encodeFrames (frames : list (list byte * list byte)) :
  of_bytes (encodeFrames frames)
  = streamUnits (map (fun f => (of_bytes f.1, of_bytes f.2)) frames).
Proof.
  unfold encodeFrames, streamUnits.
  induction frames as [|f fs IH]; [done|].
  cbn [map concat]. by rewrite of_bytes_app, of_bytes_encodeFrame, IH.
Qed.

Lemma len_of_bytes (bs : list byte) : len (of_bytes bs) = Z.of_nat (length bs).
Proof. unfold len, of_bytes. by rewrite length_map. Qed.

Lemma lastChar_of_bytes (bs : list byte) (b : byte) :
  last bs = Some b -> lastChar (of_bytes bs) = Some (Byte.to_N b).
Proof.
  unfold lastChar. induction bs as [|x [|y r] IH]; intros H; [done| |].
  - cbn in *. congruence.
  - change (last (x :: y :: r)) with (last (y :: r)) in H.
    change (last (of_bytes (x :: y :: r))) with (last (of_bytes (y :: r))).
    by apply IH.
Qed.

Lemma isDigit_ascii (ds : list N) :
  forallb isDigit ds = true -> Forall (fun c => (c < 128)%N) ds.
Proof.
  intros H. apply Forall_forall. intros c Hc.
  rewrite forallb_forall in H. apply list_elem_of_In, H in Hc.
  unfold isDigit in Hc. apply andb_true_iff in Hc as [_ Hc].
  apply N.leb_le in Hc. lia.
Qed.

Lemma isAscii_Forall (bs : list byte) :
  forallb isAscii bs = true <-> Forall (fun c => (c < 128)%N) (of_bytes bs).
Proof.
  unfold of_bytes. rewrite Forall_map, forallb_forall, Forall_forall.
  unfold isAscii. split; intros H b Hb.
  - apply N.ltb_lt, H. by apply list_elem_of_In.
  - apply N.ltb_lt, H. by apply list_elem_of_In.
Qed.

End DecoderFacts.

(** ** Frames are reassembled whatever the chunk boundaries *)

Section Reassembly.
Import JsString JsStringFacts Decoder DecoderFacts.
Variable JSON_parse : list N -> option LSPMessage.

Lemma validFrame_units (f : list byte * list byte) (m : LSPMessage) :
  validFrame JSON_parse f m -> plainFrame f ->
  Z.of_nat (length f.2) <= MAX_BUFFER_SIZE ->
  validUnits JSON_parse (of_bytes f.1, of_bytes f.2) m.
Proof.
  intros (Hne & Hd & Hlen & Hparse) [Hascii Hlast] Hcap.
  unfold validUnits. cbn [fst snd]. rewrite len_of_bytes.
  rewrite (toString_ascii _ Hascii) in Hparse.
  repeat split; try done.
  - destruct f as [[|d ds] pl]; [done|discriminate].
  - by apply (lastChar_of_bytes _ "}"%byte).
Qed.

Lemma encodeFrame_ascii (f : list byte * list byte) (m : LSPMessage) :
  validFrame JSON_parse f m -> plainFrame f ->
  Forall (fun c => (c < 128)%N) (of_bytes (encodeFrame f.1 f.2)).
Proof.
  intros (_ & Hd & _) [Hascii _].
  rewrite of_bytes_encodeFrame. unfold frameUnits. cbn [fst snd].
  rewrite !Forall_app. repeat split.
  - unfold HEADER. repeat constructor.
  - by apply isDigit_ascii.
  - unfold CRLFCRLF, CR, LF. repeat constructor.
  - by apply isAscii_Forall.
Qed.

(** C1 (amended): chunks whose concatenation is a sequence of valid frames
    with ASCII payloads that end in a closing brace, where a frame and a
    chunk together never exceed the cap of the buffer, are decoded from the
    empty buffer into exactly the messages of the frames, in order, and
    leave the buffer empty, wherever the chunk boundaries fall. *)
Theorem C1_frames_reassembled
    (frames : list (list byte * list byte)) (msgs : list LSPMessage)
    (chunks : list (list byte)) :
  Forall2 (validFrame JSON_parse) frames msgs ->
  Forall plainFrame frames ->
  concat chunks = encodeFrames frames ->
  (forall c f, In c chunks -> In f frames ->
     Z.of_nat (length (encodeFrame f.1 f.2)) + Z.of_nat (length c)
     <= MAX_BUFFER_SIZE) ->
  feed JSON_parse [] chunks = (msgs, []).
Proof.
  intros Hvalid Hplain Hcat Hsize.
  assert (Hall : Forall (fun c => (c < 128)%N) (of_bytes (concat chunks))).
  { rewrite Hcat. clear Hcat Hsize.
    induction Hvalid as [|f m fs ms Hv _ IH]; [constructor|].
    inversion Hplain; subst. unfold encodeFrames. cbn [map concat].
    rewrite of_bytes_app. apply Forall_app. split.
    - by apply (encodeFrame_ascii f m).
    - by apply IH. }
  assert (Hchunk : exists c, In c chunks \/ frames = []).
  { destruct frames as [|f fs]; [exists []; by right|].
    destruct chunks as [|c cs]; [|exists c; left; by left].
    exfalso. cbn in Hcat. unfold encodeFrames, encodeFrame in Hcat.
    cbn in Hcat. discriminate. }
  apply feed_stream
    with (frames := map (fun f => (of_bytes f.1, of_bytes f.2)) frames).
  - clear Hcat Hall. induction Hvalid as [|f m fs ms Hv _ IH];
      [constructor|].
    inversion Hplain; subst. constructor.
    + apply validFrame_units; [done..|].
      destruct Hchunk as [c [Hc|?]]; [|done].
      specialize (Hsize c f Hc (or_introl eq_refl)).
      unfold encodeFrame in Hsize. rewrite !length_app in Hsize. lia.
    + apply IH; [done| |].
      * intros c f' Hc Hf'. apply Hsize; [done|by right].
      * destruct Hchunk as [c [Hc|?]]; [|done]. exists c. by left.
  - destruct frames; cbn; [done|].
    unfold len. cbn. lia.
  - by rewrite app_nil_l, Hcat, of_bytes_encodeFrames.
  - clear Hcat Hsize Hchunk. induction chunks as [|c cs IH]; [constructor|].
    cbn [concat] in Hall. rewrite of_bytes_app in Hall.
    apply Forall_app in Hall as [H1 H2].
    constructor; [by apply isAscii_Forall|by apply IH].
  - intros c f Hc Hf. apply in_map_iff in Hf as (f0 & <- & Hf0).
    rewrite <- of_bytes_encodeFrame, len_of_bytes. by apply Hsize.
Qed.

End Reassembly.

Module DecoderExamples.
Import JsString JsStringFacts Decoder DecoderFacts Examples.

(** Two frames in five chunks, cut inside both headers and both payloads. *)
Lemma C1_frames_reassembled_witness :
  concat chunks12 = encodeFrames frames12
  /\ feed parse12 [] chunks12 = ([message1; message2], []).
Proof.
  split; [reflexivity|].
  apply (C1_frames_reassembled parse12 frames12 [message1; message2] chunks12).
  - repeat constructor; discriminate.
  - repeat constructor.
  - reflexivity.
  - intros c f Hc Hf.
    assert (Hlc : Z.of_nat (length c) <= 100).
    { cbn in Hc. intuition subst; vm_compute; discriminate. }
    assert (Hlf : Z.of_nat (length (encodeFrame f.1 f.2)) <= 100).
    { cbn in Hf. intuition subst; vm_compute; discriminate. }
    unfold MAX_BUFFER_SIZE. lia.
Defined.

Lemma forallb_isAscii_repeat (n : nat) :
  forallb isAscii (repeat "a"%byte n) = true.
Proof. induction n; [done|]. cbn [repeat forallb]. by rewrite IHn. Qed.

Lemma fillerLength_eq : Z.of_nat fillerLength = 10485719.
Proof. unfold fillerLength. lia. Qed.

Lemma regionFiller_eq : Z.of_nat regionFiller = 10485695.
Proof. unfold regionFiller. lia. Qed.

Section Oversize.
Variable filler : nat.
Hypothesis filler_eq : Z.of_nat filler = 10485719.

Lemma bigPayload_length : Z.of_nat (length (bigPayloadOf filler)) = 10485761.
Proof.
  unfold bigPayloadOf. rewrite !length_app, repeat_length.
  change (length bigHead) with 40%nat. change (length bigTail) with 2%nat.
  lia.
Qed.

Lemma bigPayload_ascii : forallb isAscii (bigPayloadOf filler) = true.
Proof.
  unfold bigPayloadOf. rewrite !forallb_app, forallb_isAscii_repeat.
  reflexivity.
Qed.

Lemma bigFrame_appended :
  appendData [] (encodeFrame bigDigits (bigPayloadOf filler))
  = of_bytes (tail bigHead ++ repeat "a"%byte filler ++ bigTail).
Proof.
  apply appendData_overflow
    with (pre := of_bytes (HEADER_BYTES ++ bigDigits ++ CRLFCRLF_BYTES
                           ++ [hd "{"%byte bigHead])).
  - rewrite app_nil_l, toString_ascii.
    + rewrite <- of_bytes_app. f_equal.
    + unfold encodeFrame. rewrite !forallb_app, bigPayload_ascii. reflexivity.
  - rewrite len_of_bytes, !length_app, repeat_length.
    change (length (tail bigHead)) with 39%nat.
    change (length bigTail) with 2%nat.
    unfold MAX_BUFFER_SIZE. lia.
Qed.

Lemma oversize_frame_lost (JSON_parse : list N -> option LSPMessage) :
  feed JSON_parse [] [encodeFrame bigDigits (bigPayloadOf filler)]
  = ([], of_bytes (tail bigHead ++ repeat "a"%byte filler ++ bigTail)).
Proof.
  cbn [feed]. rewrite handleData_no_header; rewrite bigFrame_appended.
  - done.
  - rewrite of_bytes_app.
    change (of_bytes (tail bigHead))
      with (34%N :: of_bytes (tail (tail bigHead))).
    rewrite <- app_comm_cons. by apply matchHeader_other.
Qed.

Lemma oversize_frame_valid :
  concat [encodeFrame bigDigits (bigPayloadOf filler)]
  = encodeFrames [(bigDigits, bigPayloadOf filler)]
  /\ bigDigits <> []
  /\ forallb isDigit (of_bytes bigDigits) = true
  /\ parseInt (of_bytes bigDigits) = Z.of_nat (length (bigPayloadOf filler))
  /\ plainFrame (bigDigits, bigPayloadOf filler).
Proof.
  split; [reflexivity|]. split; [discriminate|]. split; [reflexivity|].
  split; [by rewrite bigPayload_length|].
  split; [apply bigPayload_ascii|].
  unfold bigPayloadOf. cbn [snd]. rewrite !last_app. reflexivity.
Qed.

End Oversize.

(** C1 as stated fails on a frame whose payload is longer than the cap:
    the frame is valid, one byte over 10 MiB, and arrives in one chunk; the
    cap cuts its header off the buffer and no message is ever decoded. *)
Lemma C1_oversize_frame_lost :
  (concat [encodeFrame bigDigits bigPayload] = encodeFrames [bigFrame]
   /\ bigDigits <> []
   /\ forallb isDigit (of_bytes bigDigits) = true
   /\ parseInt (of_bytes bigDigits) = Z.of_nat (length bigPayload)
   /\ plainFrame bigFrame)
  /\ forall (JSON_parse : list N -> option LSPMessage) (m : LSPMessage),
       JSON_parse (toString bigPayload) = Some m ->
       (feed JSON_parse [] [encodeFrame bigDigits bigPayload]).1 = []
       /\ (feed JSON_parse [] [encodeFrame bigDigits bigPayload]).1 <> [m].
Proof.
  split; [exact (oversize_frame_valid fillerLength fillerLength_eq)|].
  intros JSON_parse m _.
  unfold bigPayload. rewrite (oversize_frame_lost fillerLength fillerLength_eq).
  split; [done|discriminate].
Qed.

(** A frame whose payload is not ASCII: [Content-Length] counts the 31
    bytes, the buffer holds 30 characters, and the decoder goes on waiting
    for a payload that has arrived in full. *)
Lemma accent_frame_waits (JSON_parse : list N -> option LSPMessage) :
  parseInt (of_bytes accentDigits) = Z.of_nat (length accentPayload)
  /\ len (toString accentPayload) = 30
  /\ feed JSON_parse [] [encodeFrame accentDigits accentPayload]
     = ([], toString (encodeFrame accentDigits accentPayload)).
Proof. repeat split; vm_compute; reflexivity. Qed.

Section Region.
Variable filler : nat.
Hypothesis filler_eq : Z.of_nat filler = 10485695.
Variable JSON_parse : list N -> option LSPMessage.

Lemma regionChunk2_ascii : forallb isAscii (regionChunk2Of filler) = true.
Proof.
  unfold regionChunk2Of. rewrite forallb_app. cbn [forallb].
  rewrite forallb_app, !forallb_isAscii_repeat. reflexivity.
Qed.

Lemma regionChunk2_length :
  Z.of_nat (length (regionChunk2Of filler)) = 10485753.
Proof.
  unfold regionChunk2Of. rewrite length_app. cbn [length].
  rewrite length_app, !repeat_length.
  change (length bigTail) with 2%nat. lia.
Qed.

(** The header announces 10485761 bytes, 8 of which are in the buffer: the
    buffer is emptied. *)
Lemma region_step1 : handleData JSON_parse [] regionChunk1 = ([], []).
Proof.
  clear filler filler_eq. unfold handleData.
  change (appendData [] regionChunk1) with (of_bytes regionChunk1).
  rewrite (decode_oversize JSON_parse _ (of_bytes bigDigits) 28);
    [|reflexivity|reflexivity].
  change (parseInt (of_bytes bigDigits)) with 10485761.
  unfold substringFrom. rewrite drop_ge; [reflexivity|].
  change (length (of_bytes regionChunk1)) with 36%nat. lia.
Qed.

(** The next 10485753 bytes of the announced payload are not skipped: they
    are kept in the buffer, where no header is found. *)
Lemma region_step2 :
  handleData JSON_parse [] (regionChunk2Of filler)
  = ([], of_bytes (regionChunk2Of filler)).
Proof.
  assert (E : appendData [] (regionChunk2Of filler)
              = of_bytes (regionChunk2Of filler)).
  { rewrite appendData_fits; rewrite app_nil_l, (toString_ascii _ regionChunk2_ascii).
    - done.
    - rewrite len_of_bytes, regionChunk2_length. unfold MAX_BUFFER_SIZE. lia. }
  rewrite handleData_no_header; rewrite E; [done|].
  change (of_bytes (regionChunk2Of filler))
    with (97%N :: of_bytes (repeat "a"%byte 54 ++ "a"%byte
                            :: repeat "a"%byte filler ++ bigTail)).
  by apply matchHeader_other.
Qed.

(** The frame that follows the announced region is appended behind them and
    is not decoded either. *)
Lemma region_step3 :
  handleData JSON_parse (of_bytes (regionChunk2Of filler)) regionChunk3
  = ([], of_bytes (("a"%byte :: repeat "a"%byte filler ++ bigTail)
                   ++ regionChunk3)).
Proof.
  assert (E : appendData (of_bytes (regionChunk2Of filler)) regionChunk3
              = of_bytes (("a"%byte :: repeat "a"%byte filler ++ bigTail)
                          ++ regionChunk3)).
  { apply appendData_overflow with (pre := of_bytes (repeat "a"%byte 55)).
    - rewrite (toString_ascii regionChunk3) by reflexivity.
      unfold regionChunk2Of. by rewrite !of_bytes_app, <- !app_assoc.
    - rewrite len_of_bytes, length_app. cbn [length].
      rewrite length_app, repeat_length.
      change (length bigTail) with 2%nat.
      change (length regionChunk3) with 62%nat.
      unfold MAX_BUFFER_SIZE. lia. }
  rewrite handleData_no_header; rewrite E; [done|].
  rewrite <- app_comm_cons.
  change (of_bytes ("a"%byte :: ?l)) with (97%N :: of_bytes l).
  by apply matchHeader_other.
Qed.

Lemma region_feed :
  feed JSON_parse [] [regionChunk1; regionChunk2Of filler; regionChunk3]
  = ([], of_bytes (("a"%byte :: repeat "a"%byte filler ++ bigTail)
                   ++ regionChunk3)).
Proof.
  cbn [feed]. rewrite region_step1, region_step2, region_step3. reflexivity.
Qed.

Lemma region_input :
  regionChunk1 ++ regionChunk2Of filler ++ regionChunk3
  = encodeFrame bigDigits (regionHead ++ regionChunk2Of filler)
    ++ encodeFrame digits2 payload2
  /\ parseInt (of_bytes bigDigits)
     = Z.of_nat (length (regionHead ++ regionChunk2Of filler)).
Proof.
  split.
  - unfold encodeFrame. rewrite <- !app_assoc. reflexivity.
  - rewrite length_app, Nat2Z.inj_add, regionChunk2_length. reflexivity.
Qed.

End Region.

End DecoderExamples.

(** C9 fails when the announced payload has not arrived in full, which is
    always so for a length above the cap: a header announces 10485761
    bytes and comes with the first 8 of them; the decoder empties the
    buffer, keeps the 10485753 bytes that follow as if they began a new
    frame, finds no header in them, and does not decode the valid frame
    that comes behind the announced region. *)
Theorem C9_announced_region_not_skipped
    (JSON_parse : list N -> option LSPMessage) :
  (Examples.regionChunk1 ++ Examples.regionChunk2 ++ Examples.regionChunk3
   = Decoder.encodeFrame Examples.bigDigits
       (Examples.regionHead ++ Examples.regionChunk2)
     ++ Decoder.encodeFrame Examples.digits2 Examples.payload2
   /\ JsString.parseInt (JsString.of_bytes Examples.bigDigits)
      = Z.of_nat (length (Examples.regionHead ++ Examples.regionChunk2)))
  /\ Decoder.handleData JSON_parse [] Examples.regionChunk1 = ([], [])
  /\ Decoder.handleData JSON_parse [] Examples.regionChunk2
     = ([], JsString.of_bytes Examples.regionChunk2)
  /\ (Decoder.feed JSON_parse []
        [Examples.regionChunk1; Examples.regionChunk2; Examples.regionChunk3]).1
     = [].
Proof.
  split; [exact (DecoderExamples.region_input Examples.regionFiller
                   DecoderExamples.regionFiller_eq)|].
  split; [apply DecoderExamples.region_step1|].
  split; [exact (DecoderExamples.region_step2 Examples.regionFiller
                   DecoderExamples.regionFiller_eq JSON_parse)|].
  unfold Examples.regionChunk2.
  by rewrite (DecoderExamples.region_feed Examples.regionFiller
                DecoderExamples.regionFiller_eq JSON_parse).
Qed.

(** ** The client *)

Module ClientFacts.
Import Client ClientSpec.

Section Host.
Variable pid : Z.
Variable path_resolve : string -> string.
Variable throws : Callback -> JSON -> list JSON -> bool.

(** *** Documents *)

Lemma sendNotification_written (method : string) (params : option JSON)
    (s : State) (p : ChildProcess) :
  process s = Some p ->
  sendNotification method params s
  = set_written
      (written s ++ [(proc p, {| out_id := None; out_method := method;
                                 out_params := params |})]) s.
Proof. intros H. unfold sendNotification, write. by rewrite H. Qed.

(** A notification changes nothing but what is written. *)
Lemma sendNotification_frame (method : string) (params : option JSON)
    (s : State) :
  exists w, sendNotification method params s = set_written w s.
Proof.
  unfold sendNotification, write. destruct (process s).
  - by eexists.
  - exists (written s). by destruct s.
Qed.

(** An update of a document that is open at [version]. *)
Lemma openDocument_again (uri text languageId : string) (s : State)
    (p : ChildProcess) (version : Z) :
  initialized s = true -> process s = Some p ->
  uri ∈ openedDocuments s ->
  documentVersions s !! uri = Some version -> version <> 0 ->
  let s' := (openDocument uri text languageId s).1 in
  (openDocument uri text languageId s).2 = Returned None
  /\ written s'
     = written s ++ [(proc p, notification "textDocument/didChange"
                                (didChangeParams uri (version + 1) text))]
  /\ documentVersions s' !! uri = Some (version + 1)
  /\ initialized s' = true /\ process s' = Some p
  /\ openedDocuments s' = openedDocuments s.
Proof.
  intros Hi Hp Ho Hv Hz. unfold openDocument. rewrite Hi. cbn [negb].
  rewrite bool_decide_true by done. cbn [fst snd].
  unfold currentVersion. rewrite Hv.
  destruct (version =? 0) eqn:E; [apply Z.eqb_eq in E; done|].
  rewrite (sendNotification_written _ _ _ _ Hp). cbn.
  by rewrite lookup_insert_eq.
Qed.

Lemma reopen_changes (uri languageId : string) (texts : list string)
    (s : State) (p : ChildProcess) (version : Z) :
  initialized s = true -> process s = Some p ->
  uri ∈ openedDocuments s ->
  documentVersions s !! uri = Some version -> 0 < version ->
  written (reopen uri languageId texts s)
  = written s ++ changes (proc p) uri version texts
  /\ documentVersions (reopen uri languageId texts s) !! uri
     = Some (version + Z.of_nat (length texts)).
Proof.
  revert s version. induction texts as [|text rest IH];
    intros s version Hi Hp Ho Hv Hz.
  - cbn. rewrite app_nil_r, Z.add_0_r. done.
  - destruct (openDocument_again uri text languageId s p version)
      as (_ & Hw & Hv' & Hi' & Hp' & Ho'); [done..|lia|].
    change (reopen uri languageId (text :: rest) s)
      with (reopen uri languageId rest (openDocument uri text languageId s).1).
    destruct (IH ((openDocument uri text languageId s).1) (version + 1))
      as [Hw2 Hv2]; [done|done|by rewrite Ho'|done|lia|].
    rewrite Hw2, Hv2, Hw. cbn [changes length]. rewrite <- app_assoc.
    split; [done|]. f_equal. lia.
Qed.

(** A first [openDocument] of a document. *)
Lemma openDocument_first (uri text languageId : string) (s : State)
    (p : ChildProcess) :
  initialized s = true -> process s = Some p ->
  uri ∉ openedDocuments s ->
  let s' := (openDocument uri text languageId s).1 in
  (openDocument uri text languageId s).2 = Returned None
  /\ written s'
     = written s ++ [(proc p, notification "textDocument/didOpen"
                                (didOpenParams uri languageId text))]
  /\ documentVersions s' !! uri = Some 1
  /\ initialized s' = true /\ process s' = Some p
  /\ uri ∈ openedDocuments s'.
Proof.
  intros Hi Hp Ho. unfold openDocument. rewrite Hi. cbn [negb].
  rewrite bool_decide_false by done. cbn [fst snd].
  rewrite (sendNotification_written _ _ _ _ Hp). cbn.
  rewrite lookup_insert_eq. repeat split; try done.
  unfold setAdd. rewrite bool_decide_false by done.
  apply elem_of_app. right. by apply list_elem_of_singleton.
Qed.

(** *** The diagnostics store *)

Lemma sameValueZero_eq (a b : JSON) : sameValueZero a b = true -> a = b.
Proof.
  destruct a, b; cbn; try discriminate; intros H; try done; f_equal.
  - by apply Bool.eqb_prop.
  - by apply Z.eqb_eq.
  - by apply String.eqb_eq.
Qed.

Lemma sameValueZero_string (a b : string) :
  sameValueZero (JStr a) (JStr b) = String.eqb a b.
Proof. done. Qed.

Lemma sameValueZero_self (uri : string) :
  sameValueZero (JStr uri) (JStr uri) = true.
Proof. cbn. apply String.eqb_refl. Qed.

Lemma mapGet_mapSet {V} (key : JSON) (value : V) (m : list (JSON * V)) :
  sameValueZero key key = true ->
  mapGet key (mapSet key value m) = Some value.
Proof.
  intros Hk. induction m as [|[k v] m IH]; cbn.
  - by rewrite Hk.
  - destruct (sameValueZero k key) eqn:E; cbn; by rewrite E.
Qed.

(** Setting a key leaves what is found under any other key. *)
Lemma mapGet_mapSet_other {V} (key other : JSON) (value : V)
    (m : list (JSON * V)) :
  sameValueZero key other = false ->
  mapGet other (mapSet key value m) = mapGet other m.
Proof.
  intros Hne. induction m as [|[k v] m IH]; cbn.
  - by rewrite Hne.
  - destruct (sameValueZero k key) eqn:E; cbn.
    + apply sameValueZero_eq in E. subst k. by rewrite Hne.
    + by rewrite IH.
Qed.

Lemma entriesOf_mapSet_other {V} (key other : JSON) (value : V)
    (m : list (JSON * V)) :
  sameValueZero key other = false ->
  entriesOf other (mapSet key value m) = entriesOf other m.
Proof.
  intros Hne. unfold entriesOf. induction m as [|[k v] m IH]; cbn [mapSet].
  - rewrite filter_cons_False by (cbn; congruence). done.
  - destruct (sameValueZero k key) eqn:E.
    + apply sameValueZero_eq in E. subst k.
      rewrite !filter_cons_False by (cbn; congruence). done.
    + destruct (sameValueZero k other) eqn:E'.
      * rewrite !filter_cons_True by done. by rewrite IH.
      * rewrite !filter_cons_False by (cbn; congruence). done.
Qed.

(** In a map, the entries of a key that was just set are that one entry. *)
Lemma entriesOf_mapSet {V} (key : JSON) (value : V) (m : list (JSON * V)) :
  sameValueZero key key = true ->
  (length (entriesOf key m) <= 1)%nat ->
  entriesOf key (mapSet key value m) = [(key, value)].
Proof.
  intros Hk. unfold entriesOf.
  induction m as [|[k v] m IH]; intros H; cbn [mapSet].
  - rewrite filter_cons_True by done. by rewrite filter_nil.
  - destruct (sameValueZero k key) eqn:E.
    + rewrite filter_cons_True in H by done.
      rewrite filter_cons_True by done. cbn [length] in H.
      apply sameValueZero_eq in E. subst k. f_equal.
      apply length_zero_iff_nil. lia.
    + rewrite filter_cons_False in H by (cbn; congruence).
      rewrite filter_cons_False by (cbn; congruence). by apply IH.
Qed.

Lemma mapSet_oneEntryPerKey {V} (key : JSON) (value : V)
    (m : list (JSON * V)) :
  oneEntryPerKey m -> oneEntryPerKey (mapSet key value m).
Proof.
  intros H other. destruct (sameValueZero key other) eqn:E.
  - pose proof (sameValueZero_eq _ _ E). subst other.
    rewrite entriesOf_mapSet by done. cbn. lia.
  - rewrite entriesOf_mapSet_other by done. apply H.
Qed.

Lemma oneEntryPerKey_nil {V} : oneEntryPerKey (@nil (JSON * V)).
Proof. intros key. cbn. lia. Qed.

(** Diagnostics that can be read do not make the branch throw. *)
Lemma readable_quiet (uri : string) (diagnostics : list JSON) :
  readable diagnostics -> publishThrows (JStr uri) diagnostics = false.
Proof.
  intros H. unfold publishThrows. cbn [convertible negb].
  rewrite orb_false_r. induction H as [|d rest Hd _ IH]; [done|].
  cbn [existsb]. by rewrite Hd, IH.
Qed.

(** A notification that publishes diagnostics replaces the entry of its
    uri and calls every subscriber. *)
Lemma handleMessage_publishes (message : LSPMessage) (uri : string)
    (diagnostics : list JSON) (s : State) :
  publishes message uri diagnostics -> uri <> "" ->
  publishThrows (JStr uri) diagnostics = false ->
  handleMessage message s
  = (notifyDiagnosticUpdate (JStr uri) diagnostics
       (set_documentDiagnostics
          (mapSet (JStr uri) diagnostics (documentDiagnostics s)) s), None).
Proof.
  intros (Hm & Hid & params & Hp & Hu & Hd) Hne Hr.
  unfold handleMessage, handleResponse, storeCapabilities, handleNotification.
  rewrite Hid, Hm, Hp. cbn [isString isTruthy].
  rewrite String.eqb_refl.
  destruct params; try discriminate. cbn [truthy andb].
  rewrite Hu, Hd. cbn [truthy].
  apply String.eqb_neq in Hne. rewrite Hne. cbn [negb]. by rewrite Hr.
Qed.

(** A notification for which the branch throws changes nothing. *)
Lemma handleMessage_throws (message : LSPMessage) (uri : string)
    (diagnostics : list JSON) (s : State) :
  publishes message uri diagnostics ->
  publishThrows (JStr uri) diagnostics = true ->
  handleMessage message s = (s, None).
Proof.
  intros (Hm & Hid & params & Hp & Hu & Hd) Ht.
  unfold handleMessage, handleResponse, storeCapabilities, handleNotification.
  rewrite Hid, Hm, Hp. cbn [isString isTruthy].
  rewrite String.eqb_refl.
  destruct params; try discriminate. cbn [truthy andb].
  rewrite Hu, Hd, Ht. by destruct (truthy (JStr uri)).
Qed.

Lemma step_publishes (message : LSPMessage) (uri : string)
    (diagnostics : list JSON) (s : State) :
  publishes message uri diagnostics -> uri <> "" ->
  publishThrows (JStr uri) diagnostics = false ->
  step pid path_resolve throws s (Receive message)
  = notifyDiagnosticUpdate (JStr uri) diagnostics
      (set_documentDiagnostics
         (mapSet (JStr uri) diagnostics (documentDiagnostics s)) s).
Proof.
  intros H Hne Hr. cbn [step].
  by rewrite (handleMessage_publishes _ _ _ _ H Hne Hr).
Qed.

Lemma step_throws (message : LSPMessage) (uri : string)
    (diagnostics : list JSON) (s : State) :
  publishes message uri diagnostics ->
  publishThrows (JStr uri) diagnostics = true ->
  step pid path_resolve throws s (Receive message) = s.
Proof.
  intros H Ht. cbn [step]. by rewrite (handleMessage_throws _ _ _ _ H Ht).
Qed.

(** The catch-up calls of a callback that does not throw: one per entry. *)
Lemma deliverStored_quiet (callback : Callback)
    (stored : list (JSON * list JSON)) :
  (forall uri diagnostics, throws callback uri diagnostics = false) ->
  deliverStored throws callback stored
  = (map (fun entry => (callback, entry.1, entry.2)) stored, None).
Proof.
  intros H. induction stored as [|[u d] rest IH]; [done|].
  cbn [deliverStored]. by rewrite H, IH.
Qed.

Lemma callsAbout_map (callback : Callback) (uri : string)
    (stored : list (JSON * list JSON)) :
  callsAbout uri (map (fun entry => (callback, entry.1, entry.2)) stored)
  = map (fun entry => (callback, entry.1, entry.2))
        (entriesOf (JStr uri) stored).
Proof.
  unfold callsAbout, entriesOf. induction stored as [|[u d] rest IH]; [done|].
  cbn [map]. destruct (sameValueZero u (JStr uri)) eqn:E.
  - rewrite !filter_cons_True by done. cbn [map]. by rewrite IH.
  - rewrite !filter_cons_False by (cbn; congruence). done.
Qed.

(** *** Shutdown *)



End Host.

End ClientFacts.

(** ** The correlator *)

Module CorrFacts.
Import Client ClientSpec.

Lemma settledIn_snoc (promise p : PromiseId) (how : Settlement)
    (l : list (PromiseId * Settlement)) :
  map snd (filter (fun entry => entry.1 = promise) (l ++ [(p, how)]))
  = map snd (filter (fun entry => entry.1 = promise) l)
    ++ (if decide (p = promise) then [how] else []).
Proof.
  rewrite filter_app, map_app. f_equal.
  destruct (decide (p = promise)) as [->|Hne].
  - by rewrite filter_cons_True.
  - by rewrite filter_cons_False.
Qed.

Lemma settledIn_absent (promise : PromiseId)
    (l : list (PromiseId * Settlement)) :
  promise ∉ map fst l ->
  map snd (filter (fun entry => entry.1 = promise) l) = [].
Proof.
  induction l as [|[p how] l IH]; intros H; [done|].
  cbn in H. apply not_elem_of_cons in H as [H1 H2].
  rewrite filter_cons_False by (cbn; congruence). by apply IH.
Qed.

Lemma CorrInv_initial : CorrInv (corr initial).
Proof.
  split; cbn; intros *; rewrite ?lookup_empty; try done.
  - intros H. by apply elem_of_nil in H.
  - constructor.
Qed.

(** Every action keeps the invariant of the correlator. *)
Lemma act_CorrInv (c : Corr) (a : Act) : CorrInv c -> CorrInv (act c a).
Proof.
  intros [Hpt Htf Hsk Hso Hid]. destruct a as [method|id how|promise|].
  - (* a request is sent *)
    split; cbn.
    + intros id promise H. destruct (decide (c_nextId c = id)) as [<-|Hne].
      * rewrite lookup_insert_eq in H. inversion H; subst.
        exists method. by rewrite lookup_insert_eq.
      * rewrite lookup_insert_ne in H by done.
        destruct (Hpt _ _ H) as [m Hm]. exists m.
        destruct (Htf _ _ Hm) as [Hlt _].
        rewrite lookup_insert_ne by lia. done.
    + intros promise t H.
      destruct (decide (c_nextPromise c = promise)) as [<-|Hne].
      * split; [lia|]. intros Hin. apply Hsk in Hin. lia.
      * rewrite lookup_insert_ne in H by done.
        destruct (Htf _ _ H). split; [lia|done].
    + intros promise H. apply Hsk in H. lia.
    + done.
    + intros id promise H. destruct (decide (c_nextId c = id)) as [<-|Hne].
      * lia.
      * rewrite lookup_insert_ne in H by done. apply Hid in H. lia.
  - (* a response is handled *)
    cbn. destruct (c_pending c !! id) as [p|] eqn:Hp; [|by split].
    destruct (Hpt _ _ Hp) as [m Hm]. destruct (Htf _ _ Hm) as [Hlt Hfresh].
    split; cbn.
    + intros id' promise H. apply lookup_delete_Some in H as [Hne H].
      destruct (Hpt _ _ H) as [m' Hm']. exists m'.
      rewrite lookup_delete_ne; [done|]. intros <-. congruence.
    + intros promise t H. apply lookup_delete_Some in H as [Hne H].
      destruct (Htf _ _ H) as [? Hn]. split; [done|].
      rewrite map_app, elem_of_app. intros [?|Hin]; [done|].
      cbn in Hin. apply list_elem_of_singleton in Hin. congruence.
    + intros promise. rewrite map_app, elem_of_app. intros [H|H]; [by apply Hsk|].
      cbn in H. apply list_elem_of_singleton in H. by subst.
    + rewrite map_app. apply NoDup_app. repeat split; [done| |apply NoDup_singleton].
      intros x Hx Hx'. cbn in Hx'. apply list_elem_of_singleton in Hx'. by subst.
    + intros id' promise H. apply lookup_delete_Some in H as [_ H]. eauto.
  - (* a timeout expires *)
    cbn. destruct (c_timers c !! promise) as [[id method]|] eqn:Ht; [|by split].
    destruct (Htf _ _ Ht) as [Hlt Hfresh].
    destruct (c_pending c !! id) as [q|] eqn:Hq.
    + split; cbn.
      * intros id' p H. apply lookup_delete_Some in H as [Hne H].
        destruct (Hpt _ _ H) as [m' Hm']. exists m'.
        rewrite lookup_delete_ne; [done|]. intros <-. congruence.
      * intros p t H. apply lookup_delete_Some in H as [Hne H].
        destruct (Htf _ _ H) as [? Hn]. split; [done|].
        rewrite map_app, elem_of_app. intros [?|Hin]; [done|].
        cbn in Hin. apply list_elem_of_singleton in Hin. congruence.
      * intros p. rewrite map_app, elem_of_app. intros [H|H]; [by apply Hsk|].
        cbn in H. apply list_elem_of_singleton in H. by subst.
      * rewrite map_app. apply NoDup_app.
        repeat split; [done| |apply NoDup_singleton].
        intros x Hx Hx'. cbn in Hx'. apply list_elem_of_singleton in Hx'.
        by subst.
      * intros id' p H. apply lookup_delete_Some in H as [_ H]. eauto.
    + split; cbn; try done.
      * intros id' p H. destruct (Hpt _ _ H) as [m' Hm']. exists m'.
        rewrite lookup_delete_ne; [done|]. intros <-. congruence.
      * intros p t H. apply lookup_delete_Some in H as [Hne H]. eauto.
  - (* the reset of a restart *)
    split; cbn; try done; intros *; by rewrite lookup_empty.
Qed.

Lemma acts_CorrInv (c : Corr) (l : list Act) : CorrInv c -> CorrInv (acts c l).
Proof.
  revert c. induction l as [|a l IH]; intros c H; [done|].
  cbn. apply IH. by apply act_CorrInv.
Qed.

(** Without a reset no timeout goes stale. *)
Lemma act_noStaleTimer (c : Corr) (a : Act) :
  CorrInv c -> noStaleTimer c -> a <> AReset -> noStaleTimer (act c a).
Proof.
  intros [Hpt Htf Hsk Hso Hid] Hns Ha.
  destruct a as [method|id how|promise|]; [| | |done].
  - intros p id m. cbn.
    destruct (decide (c_nextPromise c = p)) as [<-|Hne].
    + rewrite lookup_insert_eq. intros H. inversion H; subst.
      by rewrite lookup_insert_eq.
    + rewrite lookup_insert_ne by done. intros H.
      pose proof (Hns _ _ _ H) as Hp. pose proof (Hid _ _ Hp).
      rewrite lookup_insert_ne by lia. done.
  - cbn. destruct (c_pending c !! id) as [q|] eqn:Hq; [|done].
    intros p id' m. cbn. intros H. apply lookup_delete_Some in H as [Hne H].
    pose proof (Hns _ _ _ H) as Hp.
    rewrite lookup_delete_ne; [done|]. intros <-. congruence.
  - cbn. destruct (c_timers c !! promise) as [[id method]|] eqn:Ht; [|done].
    pose proof (Hns _ _ _ Ht) as Hp. rewrite Hp.
    intros p id' m. cbn. intros H. apply lookup_delete_Some in H as [Hne H].
    pose proof (Hns _ _ _ H) as Hp'.
    rewrite lookup_delete_ne; [done|]. intros <-. congruence.
Qed.

(** A pending call stays pending under any action that is not a reset,
    its response or its timeout. *)
Lemma act_pendingCall (c : Corr) (a : Act) (id : Z) (promise : PromiseId)
    (method : string) :
  CorrInv c -> noStaleTimer c -> pendingCall id promise method c ->
  a <> AReset -> (forall how, a <> ARespond id how) -> a <> AFire promise ->
  pendingCall id promise method (act c a).
Proof.
  intros [Hpt Htf Hsk Hso Hid] Hns [Hp Ht] Hr Hresp Hfire.
  destruct (Htf _ _ Ht) as [Hlt _]. pose proof (Hid _ _ Hp) as Hidlt.
  destruct a as [m|id' how|p'|]; [| | |done].
  - split; cbn; rewrite lookup_insert_ne by lia; done.
  - assert (id' <> id) by (intros ->; by apply (Hresp how)).
    cbn. destruct (c_pending c !! id') as [q|] eqn:Hq; [|by split].
    destruct (Hpt _ _ Hq) as [m' Hm'].
    assert (q <> promise) by (intros ->; congruence).
    split; cbn; rewrite lookup_delete_ne by done; done.
  - assert (p' <> promise) by congruence.
    cbn. destruct (c_timers c !! p') as [[id' m']|] eqn:Ht'; [|by split].
    pose proof (Hns _ _ _ Ht') as Hp'. rewrite Hp'.
    assert (id' <> id) by (intros ->; congruence).
    split; cbn; rewrite lookup_delete_ne by done; done.
Qed.

(** The response to a pending call settles its promise, once, and nothing
    refers to the promise any more. *)
Lemma respond_settles (c : Corr) (id : Z) (promise : PromiseId)
    (method : string) (how : Settlement) :
  CorrInv c -> pendingCall id promise method c ->
  settledIn promise (act c (ARespond id how)) = [how]
  /\ c_pending (act c (ARespond id how)) !! id = None
  /\ c_nextId (act c (ARespond id how)) = c_nextId c
  /\ spent promise (act c (ARespond id how)).
Proof.
  intros [Hpt Htf Hsk Hso Hid] [Hp Ht].
  destruct (Htf _ _ Ht) as [Hlt Hfresh].
  unfold settledIn. cbn. rewrite Hp. cbn.
  rewrite settledIn_snoc, (settledIn_absent _ _ Hfresh).
  rewrite decide_True by done. rewrite !lookup_delete_eq.
  repeat split; try done; cbn.
  - apply lookup_delete_eq.
  - intros id' H. apply lookup_delete_Some in H as [Hne H].
    destruct (Hpt _ _ H) as [m' Hm']. congruence.
Qed.

(** So does its timeout. *)
Lemma fire_settles (c : Corr) (id : Z) (promise : PromiseId)
    (method : string) :
  CorrInv c -> pendingCall id promise method c ->
  settledIn promise (act c (AFire promise)) = [Rejected (TimeoutError method)]
  /\ c_pending (act c (AFire promise)) !! id = None
  /\ c_nextId (act c (AFire promise)) = c_nextId c
  /\ spent promise (act c (AFire promise)).
Proof.
  intros [Hpt Htf Hsk Hso Hid] [Hp Ht].
  destruct (Htf _ _ Ht) as [Hlt Hfresh].
  unfold settledIn. cbn. rewrite Ht, Hp. cbn.
  rewrite settledIn_snoc, (settledIn_absent _ _ Hfresh).
  rewrite decide_True by done. rewrite !lookup_delete_eq.
  repeat split; try done; cbn.
  - apply lookup_delete_eq.
  - intros id' H. apply lookup_delete_Some in H as [Hne H].
    destruct (Hpt _ _ H) as [m' Hm']. congruence.
Qed.

(** Once nothing refers to a promise, no action settles it. *)
Lemma act_spent (c : Corr) (a : Act) (promise : PromiseId) :
  spent promise c ->
  spent promise (act c a)
  /\ settledIn promise (act c a) = settledIn promise c.
Proof.
  intros (Hlt & Ht & Hp). unfold settledIn, spent.
  destruct a as [m|id how|p|]; cbn.
  - split; [split; [lia|split]|done].
    + rewrite lookup_insert_ne by lia. done.
    + intros id H. destruct (decide (c_nextId c = id)) as [<-|Hne].
      * rewrite lookup_insert_eq in H. inversion H. lia.
      * rewrite lookup_insert_ne in H by done. by apply (Hp id).
  - destruct (c_pending c !! id) as [q|] eqn:Hq; [|done].
    assert (q <> promise) by (intros ->; by apply (Hp id)).
    cbn. rewrite settledIn_snoc, decide_False, app_nil_r by done.
    split; [split; [done|split]|done].
    + apply lookup_delete_None. by right.
    + intros id' H'. apply lookup_delete_Some in H' as [_ H'].
      by apply (Hp id').
  - destruct (c_timers c !! p) as [[id m]|] eqn:Hq; [|done].
    assert (p <> promise) by (intros ->; congruence).
    destruct (c_pending c !! id) as [q|] eqn:Hq'; cbn.
    + rewrite settledIn_snoc, decide_False, app_nil_r by done.
      split; [split; [done|split]|done].
      * apply lookup_delete_None. by right.
      * intros id' H'. apply lookup_delete_Some in H' as [_ H'].
        by apply (Hp id').
    + split; [split; [done|split]|done]; [|done].
      apply lookup_delete_None. by right.
  - split; [split; [done|split]|done]; [done|].
    intros id. by rewrite lookup_empty.
Qed.

Lemma acts_spent (c : Corr) (l : list Act) (promise : PromiseId) :
  spent promise c ->
  spent promise (acts c l)
  /\ settledIn promise (acts c l) = settledIn promise c.
Proof.
  revert c. induction l as [|a l IH]; intros c H; [done|].
  change (acts c (a :: l)) with (acts (act c a) l).
  destruct (act_spent c a promise H) as [H1 H2].
  destruct (IH _ H1) as [H3 H4]. split; [done|]. by rewrite H4.
Qed.

(** Requests sent later take later ids: an id that is spent stays free. *)
Lemma sends_keep_free (c : Corr) (l : list Act) (id : Z) :
  Forall (fun a => exists method, a = ASend method) l ->
  id < c_nextId c -> c_pending c !! id = None ->
  c_pending (acts c l) !! id = None.
Proof.
  revert c. induction l as [|a l IH]; intros c Hl Hlt Hfree; [done|].
  inversion Hl as [|? ? [m ->] Hl']; subst.
  change (acts c (ASend m :: l)) with (acts (act c (ASend m)) l).
  apply IH; [done|cbn; lia|]. cbn. rewrite lookup_insert_ne by lia. done.
Qed.

End CorrFacts.

(** ** The client acts on the correlator by its four actions *)

Module Refinement.
Import Client ClientSpec CorrFacts ClientFacts.

Lemma acts_app (c : Corr) (l1 l2 : list Act) :
  acts c (l1 ++ l2) = acts (acts c l1) l2.
Proof. apply fold_left_app. Qed.

Lemma steady_refl (R : Prop) (s : State) : steady R s s.
Proof. split; [|done]. by exists []. Qed.

Lemma steady_same (R : Prop) (s s' : State) :
  corr s' = corr s -> waiting s' = waiting s -> steady R s s'.
Proof. intros Hc Hw. split; [|done]. exists []. by rewrite Hc. Qed.

Lemma steady_trans (R : Prop) (s1 s2 s3 : State) :
  steady R s1 s2 -> steady R s2 s3 -> steady R s1 s3.
Proof.
  intros [(l1 & E1 & F1) W1] [(l2 & E2 & F2) W2]. split; [|congruence].
  exists (l1 ++ l2). rewrite acts_app, <- E1, <- E2. split; [done|].
  by apply Forall_app.
Qed.

Lemma steady_weaken (R R' : Prop) (s s' : State) :
  (R -> R') -> steady R s s' -> steady R' s s'.
Proof.
  intros HR [(l & E & F) W]. split; [|done]. exists l. split; [done|].
  eapply Forall_impl; [exact F|]. intros [] H; cbn in *; auto.
Qed.

Section Host.
Variable pid : Z.
Variable path_resolve : string -> string.
Variable throws : Callback -> JSON -> list JSON -> bool.

Lemma sendNotification_steady (R : Prop) (method : string)
    (params : option JSON) (s : State) :
  steady R s (sendNotification method params s).
Proof.
  destruct (sendNotification_frame method params s) as [w ->].
  by apply steady_same.
Qed.

Lemma sendRequest_steady (R : Prop) (method : string) (params : option JSON)
    (s : State) :
  steady R s (sendRequest method params s).1.
Proof.
  unfold sendRequest, write. destruct (process s) eqn:Hp; [|apply steady_refl].
  cbn. rewrite Hp. split; [|done]. exists [ASend method].
  split; [done|]. by repeat constructor.
Qed.

Lemma closeAll_steady (R : Prop) (s : State) : steady R s (closeAll s).
Proof.
  unfold closeAll. generalize (openedDocuments s) as uris. intros uris.
  revert s. induction uris as [|uri rest IH]; intros s; [apply steady_refl|].
  cbn [fold_left]. eapply steady_trans; [|apply IH].
  apply sendNotification_steady.
Qed.

Lemma initialize_steady (R : Prop) (rootDirectory : string) (s : State) :
  steady R s (initialize pid path_resolve rootDirectory s).1
  /\ forall promise stack,
       (initialize pid path_resolve rootDirectory s).2 = Pending promise stack ->
       hasRestart stack = false.
Proof.
  unfold initialize. destruct (initialized s); [split; [apply steady_refl|done]|].
  set (s' := match process s with None => startProcess s | Some _ => s end).
  assert (Hs' : steady R s s').
  { subst s'. destruct (process s); [apply steady_refl|by apply steady_same]. }
  pose proof (sendRequest_steady R "initialize"
                (Some (initializeParams pid path_resolve rootDirectory)) s') as H.
  destruct (sendRequest _ _ s') as [s'' [e|p]]; cbn [fst snd] in *.
  - split; [by eapply steady_trans|done].
  - split; [by eapply steady_trans|]. intros ? ? E. by inversion E.
Qed.

Lemma initializeResume_steady (R : Prop) (outcome : Outcome) (s : State) :
  steady R s (initializeResume outcome s).1
  /\ forall promise stack,
       (initializeResume outcome s).2 <> Pending promise stack.
Proof.
  destruct outcome; cbn [initializeResume fst snd]; split; try done.
  - eapply steady_trans; [apply sendNotification_steady|by apply steady_same].
  - apply steady_refl.
Qed.

Lemma shutdownResume_steady (R : Prop) (outcome : Outcome) (s : State) :
  steady R s (shutdownResume outcome s).1
  /\ forall promise stack,
       (shutdownResume outcome s).2 <> Pending promise stack.
Proof.
  destruct outcome; cbn [shutdownResume fst snd]; split; try done.
  - eapply steady_trans; [apply sendNotification_steady|by apply steady_same].
  - apply steady_refl.
Qed.

Lemma shutdown_steady (R : Prop) (s : State) :
  steady R s (shutdown s).1
  /\ forall promise stack,
       (shutdown s).2 = Pending promise stack -> hasRestart stack = false.
Proof.
  unfold shutdown. destruct (initialized s); cbn [negb];
    [|split; [apply steady_refl|done]].
  set (s' := closeAll (clearDiagnosticSubscribers s)).
  assert (Hs' : steady R s s').
  { eapply steady_trans; [|apply closeAll_steady]. by apply steady_same. }
  pose proof (sendRequest_steady R "shutdown" None s') as H.
  destruct (sendRequest _ _ s') as [s'' [e|p]]; cbn [fst snd] in *.
  - split; [by eapply steady_trans|done].
  - split; [by eapply steady_trans|]. intros ? ? E. by inversion E.
Qed.

Lemma query_steady (R : Prop) (method : string) (params : option JSON)
    (s : State) :
  steady R s (query method params s).1
  /\ forall promise stack,
       (query method params s).2 = Pending promise stack ->
       hasRestart stack = false.
Proof.
  unfold query. destruct (initialized s); cbn [negb];
    [|split; [apply steady_refl|done]].
  pose proof (sendRequest_steady R method params s) as H.
  destruct (sendRequest _ _ s) as [s'' [e|p]]; cbn [fst snd] in *.
  - done.
  - split; [done|]. intros ? ? E. by inversion E.
Qed.

Lemma resetState_steady (s : State) : steady True s (resetState s).
Proof.
  destruct s. split; [|reflexivity]. exists [AReset].
  split; [reflexivity|]. by repeat constructor.
Qed.

Lemma startProcess_steady (R : Prop) (s : State) : steady R s (startProcess s).
Proof. destruct s. apply steady_same; reflexivity. Qed.

Lemma killProcess_steady (R : Prop) (s : State) : steady R s (killProcess s).
Proof.
  unfold killProcess. destruct (process s) as [p|]; [|apply steady_refl].
  destruct (killed p); [apply steady_refl|].
  destruct s. apply steady_same; reflexivity.
Qed.

Lemma restartResume_steady (rootDirectory : option string) (s : State) :
  steady True s (restartResume pid path_resolve rootDirectory s).1
  /\ forall promise stack,
       (restartResume pid path_resolve rootDirectory s).2
       = Pending promise stack ->
       hasRestart stack = false.
Proof.
  unfold restartResume.
  set (s' := startProcess (resetState (killProcess s))).
  assert (Hs' : steady True s s').
  { apply (steady_trans _ _ (killProcess s)); [apply killProcess_steady|].
    apply (steady_trans _ _ (resetState (killProcess s)));
      [apply resetState_steady|apply startProcess_steady]. }
  destruct (givenRoot rootDirectory) as [root|]; [|by split].
  destruct (initialize_steady True root s') as [H1 H2].
  unfold andThen, restartInitializeResume.
  destruct (initialize pid path_resolve root s') as [s'' [o|p st]];
    cbn [fst snd] in *.
  - split; [by eapply steady_trans|done].
  - split; [by eapply steady_trans|]. intros ? ? E. inversion E; subst.
    pose proof (H2 _ _ eq_refl) as Hst. unfold hasRestart in *.
    rewrite existsb_app, Hst. reflexivity.
Qed.

Lemma resumeFrame_steady (frame : Frame) (outcome : Outcome) (s : State) :
  steady (isRestartShutdown frame = true) s
    (resumeFrame pid path_resolve frame outcome s).1
  /\ forall promise stack,
       (resumeFrame pid path_resolve frame outcome s).2 = Pending promise stack ->
       hasRestart stack = false.
Proof.
  destruct frame; cbn [resumeFrame].
  - destruct (initializeResume_steady False outcome s) as [H1 H2].
    split; [apply (steady_weaken False); [done|exact H1]|].
    intros ? ? E. by apply H2 in E.
  - destruct (shutdownResume_steady False outcome s) as [H1 H2].
    split; [apply (steady_weaken False); [done|exact H1]|].
    intros ? ? E. by apply H2 in E.
  - destruct (restartResume_steady rootDirectory s) as [H1 H2].
    split; [apply (steady_weaken True); [done|exact H1]|exact H2].
  - split; [apply steady_refl|done].
  - split; [apply steady_refl|done].
Qed.

Lemma hasRestart_cons (frame : Frame) (rest : list Frame) :
  hasRestart (frame :: rest) = isRestartShutdown frame || hasRestart rest.
Proof. reflexivity. Qed.

Lemma hasRestart_app (stack rest : list Frame) :
  hasRestart (stack ++ rest) = hasRestart stack || hasRestart rest.
Proof. apply existsb_app. Qed.

(** Resuming a suspended operation resets the correlator only if its
    stack holds the rest of a [restart]. *)
Lemma unwind_steady (stack : list Frame) (outcome : Outcome) (s : State) :
  steady (hasRestart stack = true) s
    (unwind pid path_resolve stack outcome s).1
  /\ forall promise stack',
       (unwind pid path_resolve stack outcome s).2 = Pending promise stack' ->
       hasRestart stack' = true -> hasRestart stack = true.
Proof.
  revert outcome s. induction stack as [|frame rest IH]; intros outcome s.
  - split; [apply steady_refl|done].
  - cbn [unwind]. rewrite hasRestart_cons.
    destruct (resumeFrame_steady frame outcome s) as [H1 H2].
    destruct (resumeFrame pid path_resolve frame outcome s) as [s' [o|p st]];
      cbn [fst snd] in *.
    + destruct (IH o s') as [H3 H4]. split.
      * apply (steady_trans _ _ s').
        -- apply (steady_weaken (isRestartShutdown frame = true)); [|exact H1].
           intros ->. reflexivity.
        -- apply (steady_weaken (hasRestart rest = true)); [|exact H3].
           intros ->. apply orb_true_r.
      * intros p st E Hr. rewrite (H4 _ _ E Hr). apply orb_true_r.
    + split.
      * apply (steady_weaken (isRestartShutdown frame = true)); [|exact H1].
        intros ->. reflexivity.
      * intros ? ? E Hr. inversion E; subst.
        rewrite hasRestart_app, (H2 _ _ eq_refl) in Hr. cbn in Hr.
        rewrite Hr. apply orb_true_r.
Qed.

Lemma corr_park (operation : Operation) (call : State * Await) :
  corr (park operation call) = corr call.1.
Proof. by destruct call as [s [o|p st]]. Qed.

Lemma park_free (operation : Operation) (call : State * Await) :
  ~ restartSuspended call.1 ->
  (forall promise stack, call.2 = Pending promise stack ->
     hasRestart stack = false) ->
  ~ restartSuspended (park operation call).
Proof.
  destruct call as [s [o|p st]]; cbn [park fst snd]; intros Hfree Hst.
  - exact Hfree.
  - intros (q & op & stack & Hq & Hr). cbn in Hq.
    destruct (decide (p = q)) as [<-|Hne].
    + rewrite lookup_insert_eq in Hq. inversion Hq; subst.
      rewrite (Hst _ _ eq_refl) in Hr. done.
    + rewrite lookup_insert_ne in Hq by done. apply Hfree.
      by exists q, op, stack.
Qed.

Lemma steady_free (R : Prop) (s s' : State) :
  steady R s s' -> ~ restartSuspended s -> ~ restartSuspended s'.
Proof.
  intros [_ Hw] Hfree (q & op & stack & Hq & Hr). rewrite Hw in Hq.
  apply Hfree. by exists q, op, stack.
Qed.

(** The reactions to a settled promise. *)
Lemma deliver_effect (s : State) (x : option (PromiseId * Settlement)) :
  (exists l, corr (deliver pid path_resolve (s, x)) = acts (corr s) l
             /\ Forall (sendsOnly (restartSuspended s)) l)
  /\ (~ restartSuspended s ->
      ~ restartSuspended (deliver pid path_resolve (s, x))).
Proof.
  destruct x as [[p how]|]; cbn [deliver];
    [|split; [by exists []|done]].
  destruct (waiting s !! p) as [[op stack]|] eqn:Hw;
    [|split; [by exists []|done]].
  set (s0 := set_waiting (delete p (waiting s)) s).
  destruct (unwind_steady stack (outcomeOf how) s0) as [[(l & E & F) W] H2].
  split.
  - exists l. rewrite corr_park, E. split; [done|].
    eapply Forall_impl; [exact F|]. intros [] Ha; cbn in *; try done.
    exists p, op, stack. done.
  - intros Hfree. apply park_free.
    + intros (q & op' & stack' & Hq & Hr). rewrite W in Hq. cbn in Hq.
      apply lookup_delete_Some in Hq as [_ Hq]. apply Hfree.
      by exists q, op', stack'.
    + intros q st E' . destruct (hasRestart st) eqn:Hr; [|done].
      exfalso. apply Hfree. exists p, op, stack. split; [done|].
      by apply (H2 _ _ E').
Qed.

Lemma handleResponse_effect (message : LSPMessage) (s : State) :
  waiting (handleResponse message s).1 = waiting s
  /\ ((exists id, answers id message
                  /\ corr (handleResponse message s).1
                     = act (corr s) (ARespond id (settlementOf message)))
      \/ ((forall id, ~ answers id message)
          /\ corr (handleResponse message s).1 = corr s)).
Proof.
  unfold handleResponse, answers.
  destruct (msg_id message) as [id|] eqn:Hid.
  2:{ split; [done|]. right. split; [|done]. by intros id [H _]. }
  destruct (defined (msg_result message) || defined (msg_error message))
    eqn:Hdef.
  2:{ split; [done|]. right. split; [|done]. by intros id' [_ H]. }
  destruct id as [| |n| | |];
    try (split; [done|]; right; split; [|done]; intros id' [H _];
         congruence).
  unfold lookupPromise. fold (settlementOf message).
  destruct (responsePromises s !! n) as [p|] eqn:Hp; cbn [fst].
  - split; [by destruct s|]. left. exists n. split; [done|].
    unfold corr at 2. cbn [act c_pending]. rewrite Hp. by destruct s.
  - split; [done|]. left. exists n. split; [done|].
    unfold corr at 2. cbn [act c_pending]. by rewrite Hp.
Qed.

(** A message acts on the correlator as the response it is, if any. *)
Lemma handleMessage_effect (message : LSPMessage) (s : State) :
  waiting (handleMessage message s).1 = waiting s
  /\ ((exists id, answers id message
                  /\ corr (handleMessage message s).1
                     = act (corr s) (ARespond id (settlementOf message)))
      \/ ((forall id, ~ answers id message)
          /\ corr (handleMessage message s).1 = corr s)).
Proof.
  assert (Hrest : forall s',
    waiting (handleNotification message (storeCapabilities message s'))
    = waiting s'
    /\ corr (handleNotification message (storeCapabilities message s'))
       = corr s').
  { intros s'. unfold handleNotification, storeCapabilities.
    repeat case_match; by destruct s'. }
  pose proof (handleResponse_effect message s) as H.
  unfold handleMessage.
  destruct (handleResponse message s) as [s1 x]; cbn [fst] in *.
  destruct (Hrest s1) as [-> ->]. exact H.
Qed.

(** A timeout that expires. *)
Lemma onTimeout_effect (promise : PromiseId) (id : Z) (method : string)
    (s : State) :
  timers s !! promise = Some (id, method) ->
  waiting (onTimeout promise id method (clearTimeout promise s)).1 = waiting s
  /\ corr (onTimeout promise id method (clearTimeout promise s)).1
     = act (corr s) (AFire promise).
Proof.
  intros Ht. unfold onTimeout. cbn [responsePromises clearTimeout set_timers].
  unfold corr at 2. cbn [act c_timers c_pending]. rewrite Ht.
  destruct (responsePromises s !! id); done.
Qed.

Lemma openDocument_steady (R : Prop) (uri text languageId : string)
    (s : State) :
  steady R s (openDocument uri text languageId s).1.
Proof.
  unfold openDocument. destruct (initialized s); cbn [negb];
    [|apply steady_refl].
  case_bool_decide; cbn [fst].
  - eapply steady_trans; [apply sendNotification_steady|by apply steady_same].
  - eapply steady_trans; [apply sendNotification_steady|by apply steady_same].
Qed.

Lemma closeDocument_steady (R : Prop) (uri : string) (s : State) :
  steady R s (closeDocument uri s).1.
Proof.
  unfold closeDocument. destruct (initialized s); cbn [negb];
    [|apply steady_refl].
  case_bool_decide; cbn [fst]; [|apply steady_refl].
  eapply steady_trans; [apply sendNotification_steady|by apply steady_same].
Qed.

Lemma subscribeToDiagnostics_steady (R : Prop) (callback : Callback)
    (s : State) :
  steady R s (subscribeToDiagnostics throws callback s).1.
Proof.
  unfold subscribeToDiagnostics.
  destruct (deliverStored _ _ _) as [made [e|]]; by apply steady_same.
Qed.

Lemma restart_steady (rootDirectory : option string) (s : State) :
  steady True s (restart pid path_resolve rootDirectory s).1.
Proof.
  unfold restart. destruct (initialized s);
    [|apply restartResume_steady].
  destruct (shutdown_steady True s) as [H1 _]. unfold andThen.
  destruct (shutdown s) as [s' [o|p st]]; cbn [fst snd] in *; [|done].
  eapply steady_trans; [exact H1|apply restartResume_steady].
Qed.

Lemma sendsOnly_allowed (R : Prop) (s : State) (event : Event) (l : list Act) :
  (R -> (exists rootDirectory, event = CallRestart rootDirectory)
        \/ restartSuspended s) ->
  Forall (sendsOnly R) l -> Forall (allowed s event) l.
Proof.
  intros HR Hl. eapply Forall_impl; [exact Hl|].
  intros [] H; cbn in *; auto; done.
Qed.

Lemma restartSuspended_waiting (s s' : State) :
  waiting s' = waiting s -> restartSuspended s' -> restartSuspended s.
Proof. intros E (p & op & st & H & Hr). rewrite E in H. by exists p, op, st. Qed.

(** The response to a request, handled. *)
Lemma step_receive_answer (s : State) (message : LSPMessage) (id : Z) :
  answers id message ->
  exists l,
    corr (step pid path_resolve throws s (Receive message))
    = acts (act (corr s) (ARespond id (settlementOf message))) l
    /\ Forall (sendsOnly (restartSuspended s)) l.
Proof.
  intros Ha. cbn [step].
  destruct (handleMessage_effect message s) as [Hw [(id' & Ha' & E)|[Hno _]]];
    [|by destruct (Hno id)].
  assert (id' = id) as -> by (destruct Ha, Ha'; congruence).
  destruct (handleMessage message s) as [s1 x]; cbn [fst] in *.
  destruct (deliver_effect s1 x) as [(l & El & Fl) _].
  exists l. rewrite El, E. split; [done|].
  eapply Forall_impl; [exact Fl|]. intros [] H; cbn in *; try done.
  by apply (restartSuspended_waiting _ s1).
Qed.

(** The timeout of a request, expiring. *)
Lemma step_timer (s : State) (promise : PromiseId) (t : Z * string) :
  timers s !! promise = Some t ->
  exists l,
    corr (step pid path_resolve throws s (TimerFires promise))
    = acts (act (corr s) (AFire promise)) l
    /\ Forall (sendsOnly (restartSuspended s)) l.
Proof.
  intros Ht. destruct t as [id method]. cbn [step]. rewrite Ht.
  destruct (onTimeout_effect promise id method s Ht) as [Hw E].
  destruct (onTimeout promise id method (clearTimeout promise s)) as [s1 x];
    cbn [fst] in *.
  destruct (deliver_effect s1 x) as [(l & El & Fl) _].
  exists l. rewrite El, E. split; [done|].
  eapply Forall_impl; [exact Fl|]. intros [] H; cbn in *; try done.
  by apply (restartSuspended_waiting _ s1).
Qed.

(** Every turn of the event loop acts on the correlator by actions that
    the event allows. *)
Lemma step_effect (s : State) (event : Event) :
  exists l,
    corr (step pid path_resolve throws s event) = acts (corr s) l
    /\ Forall (allowed s event) l.
Proof.
  destruct event; cbn [step].
  - destruct (initialize_steady False
                (match rootDirectory with Some r => r | None => "." end) s)
      as [[(l & E & F) _] _].
    exists l. rewrite corr_park. split; [done|].
    by apply (sendsOnly_allowed False).
  - destruct (openDocument_steady False uri text languageId s)
      as [(l & E & F) _].
    exists l. split; [done|]. by apply (sendsOnly_allowed False).
  - destruct (closeDocument_steady False uri s) as [(l & E & F) _].
    exists l. split; [done|]. by apply (sendsOnly_allowed False).
  - destruct (subscribeToDiagnostics_steady False callback s)
      as [(l & E & F) _].
    exists l. split; [done|]. by apply (sendsOnly_allowed False).
  - by exists [].
  - destruct (query_steady False method params s) as [[(l & E & F) _] _].
    exists l. rewrite corr_park. split; [done|].
    by apply (sendsOnly_allowed False).
  - destruct (shutdown_steady False s) as [[(l & E & F) _] _].
    exists l. rewrite corr_park. split; [done|].
    by apply (sendsOnly_allowed False).
  - destruct (restart_steady rootDirectory s) as [(l & E & F) _].
    exists l. rewrite corr_park. split; [done|].
    apply (sendsOnly_allowed True); [|done]. intros _. left.
    by exists rootDirectory.
  - destruct (handleMessage_effect message s)
      as [Hw [(id & Ha & E)|[Hno E]]].
    + destruct (step_receive_answer s message id Ha) as (l & El & Fl).
      exists (ARespond id (settlementOf message) :: l). split; [done|].
      constructor; [cbn; by exists message|].
      apply (sendsOnly_allowed (restartSuspended s)); [by right|done].
    + destruct (handleMessage message s) as [s1 x]; cbn [fst] in *.
      destruct (deliver_effect s1 x) as [(l & El & Fl) _].
      exists l. rewrite El, E. split; [done|].
      apply (sendsOnly_allowed (restartSuspended s1)); [|done].
      intros H. right. by apply (restartSuspended_waiting _ s1).
  - destruct (timers s !! promise) as [t|] eqn:Ht; [|by exists []].
    destruct (step_timer s promise t Ht) as (l & El & Fl).
    cbn [step] in El. rewrite Ht in El.
    exists (AFire promise :: l). split; [done|].
    constructor; [done|].
    apply (sendsOnly_allowed (restartSuspended s)); [by right|done].
Qed.

(** Without a call of [restart] no [restart] comes to be suspended. *)
Lemma step_free (s : State) (event : Event) :
  ~ restartSuspended s ->
  (forall rootDirectory, event <> CallRestart rootDirectory) ->
  ~ restartSuspended (step pid path_resolve throws s event).
Proof.
  intros Hfree Hev. destruct event; cbn [step].
  - destruct (initialize_steady False
                (match rootDirectory with Some r => r | None => "." end) s)
      as [H1 H2].
    apply park_free; [by eapply steady_free|done].
  - by eapply steady_free; [apply (openDocument_steady False)|].
  - by eapply steady_free; [apply (closeDocument_steady False)|].
  - by eapply steady_free; [apply (subscribeToDiagnostics_steady False)|].
  - done.
  - destruct (query_steady False method params s) as [H1 H2].
    apply park_free; [by eapply steady_free|done].
  - destruct (shutdown_steady False s) as [H1 H2].
    apply park_free; [by eapply steady_free|done].
  - by destruct (Hev rootDirectory).
  - destruct (handleMessage_effect message s) as [Hw _].
    destruct (handleMessage message s) as [s1 x]; cbn [fst] in *.
    apply deliver_effect. intros H. apply Hfree.
    by apply (restartSuspended_waiting _ s1).
  - destruct (timers s !! promise) as [[id method]|] eqn:Ht; [|done].
    destruct (onTimeout_effect promise id method s Ht) as [Hw _].
    destruct (onTimeout promise id method (clearTimeout promise s)) as [s1 x];
      cbn [fst] in *.
    apply deliver_effect. intros H. apply Hfree.
    by apply (restartSuspended_waiting _ s1).
Qed.

(** A run acts on the correlator by a sequence of actions. *)
Lemma run_effect (s : State) (events : list Event) :
  exists l, corr (run pid path_resolve throws s events) = acts (corr s) l.
Proof.
  revert s. induction events as [|e es IH]; intros s; [by exists []|].
  cbn [run fold_left]. destruct (step_effect s e) as (l1 & E1 & _).
  destruct (IH (step pid path_resolve throws s e)) as (l2 & E2).
  exists (l1 ++ l2). unfold run in E2. by rewrite E2, E1, acts_app.
Qed.

(** The invariant of the correlator holds in every state a client
    reaches. *)
Lemma run_CorrInv (s : State) (events : list Event) :
  CorrInv (corr s) -> CorrInv (corr (run pid path_resolve throws s events)).
Proof.
  intros H. destruct (run_effect s events) as (l & ->). by apply acts_CorrInv.
Qed.

(** Once nothing refers to a promise, no run settles it. *)
Lemma run_spent (s : State) (events : list Event) (promise : PromiseId) :
  spent promise (corr s) ->
  settledOf promise (run pid path_resolve throws s events)
  = settledOf promise s.
Proof.
  intros H. destruct (run_effect s events) as (l & E).
  change (settledIn promise (corr (run pid path_resolve throws s events))
          = settledIn promise (corr s)).
  rewrite E. by apply acts_spent.
Qed.

Lemma acts_pendingCall (c : Corr) (l : list Act) (id : Z)
    (promise : PromiseId) (method : string) :
  CorrInv c -> noStaleTimer c -> pendingCall id promise method c ->
  Forall (harmless id promise) l ->
  CorrInv (acts c l) /\ noStaleTimer (acts c l)
  /\ pendingCall id promise method (acts c l).
Proof.
  revert c. induction l as [|a l IH]; intros c Hi Hn Hp Hl; [done|].
  inversion Hl as [|? ? (H1 & H2 & H3) Hl']; subst.
  change (acts c (a :: l)) with (acts (act c a) l).
  apply IH; [by apply act_CorrInv|by apply act_noStaleTimer
            |by apply act_pendingCall|done].
Qed.

Lemma acts_noStaleTimer (c : Corr) (l : list Act) :
  CorrInv c -> noStaleTimer c -> Forall (fun a => a <> AReset) l ->
  noStaleTimer (acts c l).
Proof.
  revert c. induction l as [|a l IH]; intros c Hi Hn Hl; [done|].
  inversion Hl; subst. change (acts c (a :: l)) with (acts (act c a) l).
  apply IH; [by apply act_CorrInv|by apply act_noStaleTimer|done].
Qed.

Lemma leavesPending_notRestart (id : Z) (promise : PromiseId) (event : Event) :
  leavesPending id promise event -> notRestart event.
Proof. intros H r ->. done. Qed.

(** A pending call stays pending through events that are neither a
    restart, nor its response, nor its timeout. *)
Lemma run_pendingCall (s : State) (events : list Event) (id : Z)
    (promise : PromiseId) (method : string) :
  CorrInv (corr s) -> noStaleTimer (corr s) -> ~ restartSuspended s ->
  pendingCall id promise method (corr s) ->
  Forall (leavesPending id promise) events ->
  CorrInv (corr (run pid path_resolve throws s events))
  /\ noStaleTimer (corr (run pid path_resolve throws s events))
  /\ ~ restartSuspended (run pid path_resolve throws s events)
  /\ pendingCall id promise method (corr (run pid path_resolve throws s events)).
Proof.
  revert s. induction events as [|e es IH]; intros s Hi Hn Hf Hp He; [done|].
  inversion He as [|? ? Hle Hes]; subst. cbn [run fold_left].
  destruct (step_effect s e) as (l & E & Fl).
  assert (Hl : Forall (harmless id promise) l).
  { eapply Forall_impl; [exact Fl|]. intros a Ha.
    destruct a as [m|id' how|p|]; cbn in Ha; repeat split; try done.
    - intros how' [= -> ->]. destruct Ha as (message & -> & Hans & _). done.
    - intros [= ->]. subst e. done.
    - destruct Ha as [[r ->]|Hs]; done. }
  destruct (acts_pendingCall _ _ _ _ _ Hi Hn Hp Hl) as (Hi' & Hn' & Hp').
  rewrite <- E in Hi', Hn', Hp'.
  apply IH; try done.
  apply step_free; [done|]. by eapply leavesPending_notRestart.
Qed.

(** A client that was never restarted has no stale timeout and no
    suspended restart. *)
Lemma run_without_restart (events : list Event) :
  Forall notRestart events ->
  noStaleTimer (corr (run pid path_resolve throws initial events))
  /\ ~ restartSuspended (run pid path_resolve throws initial events).
Proof.
  assert (G : forall s,
    CorrInv (corr s) -> noStaleTimer (corr s) -> ~ restartSuspended s ->
    Forall notRestart events ->
    noStaleTimer (corr (run pid path_resolve throws s events))
    /\ ~ restartSuspended (run pid path_resolve throws s events)).
  { induction events as [|e es IH]; intros s Hi Hn Hf He; [done|].
    inversion He as [|? ? Hne Hes]; subst. cbn [run fold_left].
    destruct (step_effect s e) as (l & E & Fl).
    assert (Hl : Forall (fun a => a <> AReset) l).
    { eapply Forall_impl; [exact Fl|]. intros a Ha ->. cbn in Ha.
      destruct Ha as [[r ->]|Hs]; [by apply (Hne r)|done]. }
    apply IH; [rewrite E; by apply acts_CorrInv
              |rewrite E; by apply acts_noStaleTimer
              |by apply step_free|done]. }
  intros He. apply G; [apply CorrInv_initial| | |done].
  - intros p id m. cbn. by rewrite lookup_empty.
  - intros (p & op & st & H & _). cbn in H. by rewrite lookup_empty in H.
Qed.

End Host.

End Refinement.

(** ** Document versions *)

Section Documents.
Import Client ClientSpec ClientFacts Examples.

(** C6: in the Initialized state, a first [openDocument] of a uri writes a
    [didOpen] with version 1, and each of the N calls that follow writes a
    [didChange] with the full text and the versions 2, 3, ..., 1 + N, the
    version kept for the uri being 1 + N at the end.  The notifications
    are those the specification describes, [didOpenNotice] and
    [didChangeNotice], written out field by field. *)
Theorem C6_open_then_update_versions
    (uri text languageId : string) (texts : list string)
    (s : State) (p : ChildProcess) :
  initialized s = true -> process s = Some p ->
  uri ∉ openedDocuments s ->
  let s1 := (openDocument uri text languageId s).1 in
  let s2 := reopen uri languageId texts s1 in
  written s2
  = written s
    ++ (proc p, didOpenNotice uri languageId text)
       :: changes (proc p) uri 1 texts
  /\ documentVersions s1 !! uri = Some 1
  /\ documentVersions s2 !! uri = Some (1 + Z.of_nat (length texts)).
Proof.
  intros Hi Hp Ho. cbv zeta.
  destruct (openDocument_first uri text languageId s p Hi Hp Ho)
    as (_ & Hw & Hv & Hi1 & Hp1 & Ho1).
  destruct (reopen_changes uri languageId texts _ p 1 Hi1 Hp1 Ho1 Hv)
    as [Hw2 Hv2]; [lia|].
  rewrite Hw2, Hv2, Hw, Hv, <- app_assoc. done.
Qed.

(** Spec scenario of section 8: "hello" opened, then "hello world". *)
Lemma C6_open_then_update_versions_witness :
  let s2 := reopen "file:///a.txt" "plaintext" ["hello world"; "bye"]
              (openDocument "file:///a.txt" "hello" "plaintext" ready).1 in
  written s2
  = written ready
    ++ [(0%nat, didOpenNotice "file:///a.txt" "plaintext" "hello");
        (0%nat, didChangeNotice "file:///a.txt" 2 "hello world");
        (0%nat, didChangeNotice "file:///a.txt" 3 "bye")]
  /\ documentVersions
       (openDocument "file:///a.txt" "hello" "plaintext" ready).1
       !! "file:///a.txt" = Some 1
  /\ documentVersions s2 !! "file:///a.txt" = Some 3.
Proof.
  apply (C6_open_then_update_versions "file:///a.txt" "hello" "plaintext"
           ["hello world"; "bye"] ready {| proc := 0; killed := false |}).
  - reflexivity.
  - reflexivity.
  - vm_compute. apply not_elem_of_nil.
Defined.

End Documents.

(** ** Initialize twice *)

Section Initialize.
Import Client ClientSpec ClientFacts Examples.

(** C10: [initialize] on a client that is Initialized returns at once:
    nothing is written and the state is the same. *)
Theorem C10_initialize_when_initialized
    (pid : Z) (path_resolve : string -> string) (rootDirectory : string)
    (s : State) :
  initialized s = true ->
  initialize pid path_resolve rootDirectory s = (s, Done (Returned None)).
Proof. intros H. unfold initialize. by rewrite H. Qed.

Lemma C10_initialize_when_initialized_witness :
  initialize hostPid hostResolve "." ready = (ready, Done (Returned None)).
Proof.
  apply (C10_initialize_when_initialized hostPid hostResolve "." ready).
  reflexivity.
Defined.

End Initialize.

(** ** Diagnostics are replaced *)

Section Diagnostics.
Import Client ClientSpec ClientFacts Examples.
Variable pid : Z.
Variable path_resolve : string -> string.
Variable throws : Callback -> JSON -> list JSON -> bool.

(** C8: for a uri that is a non-empty string, after two successive
    [publishDiagnostics] notifications for it, the second with diagnostics
    that can be read, the store holds one entry for the uri, the second
    set; [getDiagnostics] returns that set; a callback subscribed
    afterwards, which does not throw, is called once about the uri, with
    the second set; and in every state [getDiagnostics] of a uri that has
    no entry is the empty array, [getAllDiagnostics] of a store that has
    none the empty map. *)
Theorem C8_second_publish_replaces_first
    (s : State) (first second : LSPMessage) (uri : string)
    (diagnostics1 diagnostics2 : list JSON) (callback : Callback) :
  uri <> "" ->
  oneEntryPerKey (documentDiagnostics s) ->
  publishes first uri diagnostics1 ->
  publishes second uri diagnostics2 ->
  readable diagnostics2 ->
  (forall u d, throws callback u d = false) ->
  let s2 :=
    step pid path_resolve throws
      (step pid path_resolve throws s (Receive first)) (Receive second) in
  let subscribed := subscribeToDiagnostics throws callback s2 in
  getDiagnostics uri s2 = diagnostics2
  /\ storedFor uri s2 = [(JStr uri, diagnostics2)]
  /\ subscribed.2 = Returned None
  /\ (exists made,
        calls subscribed.1 = calls s2 ++ made
        /\ callsAbout uri made = [(callback, JStr uri, diagnostics2)])
  /\ (forall (s0 : State) (other : string),
        mapGet (JStr other) (documentDiagnostics s0) = None ->
        getDiagnostics other s0 = [])
  /\ (forall s0 : State,
        documentDiagnostics s0 = [] -> getAllDiagnostics s0 = []).
Proof.
  intros Hne Hnd H1 H2 Hr Hq. cbv zeta.
  assert (Hnd1 : oneEntryPerKey
            (documentDiagnostics
               (step pid path_resolve throws s (Receive first)))).
  { destruct (publishThrows (JStr uri) diagnostics1) eqn:E.
    - by rewrite (step_throws _ _ _ _ _ _ _ H1 E).
    - rewrite (step_publishes _ _ _ _ _ _ _ H1 Hne E).
      cbn [documentDiagnostics notifyDiagnosticUpdate set_calls
           set_documentDiagnostics].
      by apply mapSet_oneEntryPerKey. }
  set (s1 := step pid path_resolve throws s (Receive first)) in *.
  rewrite (step_publishes _ _ _ _ _ _ _ H2 Hne (readable_quiet _ _ Hr)).
  set (store1 := documentDiagnostics s1) in *.
  unfold getDiagnostics, storedFor, subscribeToDiagnostics.
  cbn [documentDiagnostics notifyDiagnosticUpdate set_calls
       set_documentDiagnostics set_diagnosticSubscribers calls].
  fold store1.
  rewrite (mapGet_mapSet _ _ _ (sameValueZero_self uri)).
  rewrite (entriesOf_mapSet _ _ _ (sameValueZero_self uri) (Hnd1 _)).
  rewrite (deliverStored_quiet _ _ _ Hq). cbn [fst snd calls set_calls].
  split; [done|]. split; [done|]. split; [done|]. split; [|split].
  - eexists. split; [reflexivity|].
    by rewrite callsAbout_map,
      (entriesOf_mapSet _ _ _ (sameValueZero_self uri) (Hnd1 _)).
  - intros s0 other Ho. by rewrite Ho.
  - intros s0 H0. unfold getAllDiagnostics. exact H0.
Qed.

End Diagnostics.

(** Severities [2, 1] for [file:///a.txt], then a single hint. *)
Lemma C8_second_publish_replaces_first_witness :
  let uri := "file:///a.txt" in
  let second := [Examples.diagnostic 4 "unused"] in
  let s2 :=
    Client.step Examples.hostPid Examples.hostResolve Examples.quiet
      (Client.step Examples.hostPid Examples.hostResolve Examples.quiet
         Examples.ready
         (Client.Receive
            (Examples.publishDiagnostics uri
               [Examples.diagnostic 2 "w"; Examples.diagnostic 1 "e"])))
      (Client.Receive (Examples.publishDiagnostics uri second)) in
  let subscribed := Client.subscribeToDiagnostics Examples.quiet 7%nat s2 in
  Client.getDiagnostics uri s2 = second
  /\ ClientSpec.storedFor uri s2 = [(JStr uri, second)]
  /\ subscribed.2 = Client.Returned None
  /\ (exists made,
        Client.calls subscribed.1 = Client.calls s2 ++ made
        /\ ClientSpec.callsAbout uri made = [(7%nat, JStr uri, second)])
  /\ (forall (s0 : Client.State) (other : string),
        Client.mapGet (JStr other) (Client.documentDiagnostics s0) = None ->
        Client.getDiagnostics other s0 = [])
  /\ (forall s0 : Client.State,
        Client.documentDiagnostics s0 = [] ->
        Client.getAllDiagnostics s0 = []).
Proof.
  apply (C8_second_publish_replaces_first Examples.hostPid Examples.hostResolve
           Examples.quiet Examples.ready
           (Examples.publishDiagnostics "file:///a.txt"
              [Examples.diagnostic 2 "w"; Examples.diagnostic 1 "e"])
           (Examples.publishDiagnostics "file:///a.txt"
              [Examples.diagnostic 4 "unused"])
           "file:///a.txt"
           [Examples.diagnostic 2 "w"; Examples.diagnostic 1 "e"]
           [Examples.diagnostic 4 "unused"] 7%nat).
  - discriminate.
  - intros key. vm_compute. lia.
  - unfold ClientSpec.publishes. repeat split. eexists. repeat split.
  - unfold ClientSpec.publishes. repeat split. eexists. repeat split.
  - repeat constructor.
  - reflexivity.
Defined.

(** ** Shutdown *)

Section Shutdown.
Import Client ClientSpec ClientFacts Examples.
Variable pid : Z.
Variable path_resolve : string -> string.
Variable throws : Callback -> JSON -> list JSON -> bool.

Local Abbreviation step := (Client.step pid path_resolve throws).


End Shutdown.



(** ** Open documents and their versions *)

Section Sessions.
Import Client ClientSpec ClientFacts Examples.

Lemma setDelete_elem (x y : string) (set : list string) :
  y ∈ setDelete x set <-> y ∈ set /\ y <> x.
Proof. unfold setDelete. by rewrite list_elem_of_filter, (comm and). Qed.

Lemma setAdd_elem (x y : string) (set : list string) :
  y ∈ setAdd x set <-> y ∈ set \/ y = x.
Proof.
  unfold setAdd. case_bool_decide as H.
  - split; [by left|]. intros [?| ->]; done.
  - rewrite elem_of_app, list_elem_of_singleton. done.
Qed.

(** [openDocument] keeps the open set and the version map in step. *)
Lemma openDocument_sessionsAgree (uri text languageId : string) (s : State) :
  sessionsAgree s -> sessionsAgree (openDocument uri text languageId s).1.
Proof.
  intros H. unfold openDocument.
  destruct (initialized s); cbn [negb]; [|done].
  case_bool_decide as Ho; cbn [fst]; intros u;
    destruct (sendNotification_frame
                (if bool_decide (uri ∈ openedDocuments s)
                 then "textDocument/didChange" else "textDocument/didOpen")
                (Some (if bool_decide (uri ∈ openedDocuments s)
                       then didChangeParams uri (currentVersion uri s + 1) text
                       else didOpenParams uri languageId text)) s) as [w E].
  - rewrite bool_decide_true in E by done. rewrite E. cbn.
    destruct (decide (u = uri)) as [->|Hne].
    + rewrite lookup_insert_eq. split; [eauto|done].
    + rewrite lookup_insert_ne by done. apply H.
  - rewrite bool_decide_false in E by done. rewrite E. cbn.
    rewrite setAdd_elem. destruct (decide (u = uri)) as [->|Hne].
    + rewrite lookup_insert_eq. split; [eauto|]. intros _. by right.
    + rewrite lookup_insert_ne by done. rewrite <- (H u). split; [|by left].
      intros [?|?]; done.
Qed.

(** So does [closeDocument]. *)
Lemma closeDocument_sessionsAgree (uri : string) (s : State) :
  sessionsAgree s -> sessionsAgree (closeDocument uri s).1.
Proof.
  intros H. unfold closeDocument.
  destruct (initialized s); cbn [negb]; [|done].
  case_bool_decide as Ho; cbn [fst]; [|done]. intros u.
  destruct (sendNotification_frame "textDocument/didClose"
              (Some (didCloseParams uri)) s) as [w ->].
  cbn [openedDocuments documentVersions set_written set_openedDocuments
       set_documentVersions].
  rewrite setDelete_elem. destruct (decide (u = uri)) as [->|Hne].
  - rewrite lookup_delete_eq. split; [tauto|]. by intros [? ?].
  - rewrite lookup_delete_ne by done. rewrite <- (H u). tauto.
Qed.

(** So does the reset of [restart], which clears both. *)
Lemma resetState_sessionsAgree (s : State) : sessionsAgree (resetState s).
Proof.
  intros u. cbn. rewrite lookup_empty. split.
  - intros H. by apply elem_of_nil in H.
  - by intros [? ?].
Qed.

(** C5 fails after [shutdown]: with [file:///a.txt] open, a [shutdown]
    whose request is answered empties the open set and leaves version 1 of
    the uri in the version map. *)
Theorem C5_shutdown_keeps_versions :
  let s :=
    run hostPid hostResolve quiet opened
      [CallShutdown; Receive (response 2 JNull)] in
  sessionsAgree opened
  /\ initialized s = false
  /\ openedDocuments s = []
  /\ documentVersions s !! "file:///a.txt" = Some 1
  /\ (sessionsAgree s -> False).
Proof.
  cbv zeta. split; [|split; [|split; [|split]]].
  - apply (openDocument_sessionsAgree "file:///a.txt" "hello" "plaintext" ready).
    intros u. vm_compute. split.
    + intros H. by apply elem_of_nil in H.
    + by intros [? ?].
  - reflexivity.
  - reflexivity.
  - reflexivity.
  - intros H. specialize (H "file:///a.txt").
    assert (Hin : "file:///a.txt" ∈ openedDocuments
                    (run hostPid hostResolve quiet opened
                       [CallShutdown; Receive (response 2 JNull)])).
    { apply H. by exists 1. }
    by apply elem_of_nil in Hin.
Qed.

End Sessions.

(** ** A subscriber that throws *)

Section Subscribers.
Import Client ClientSpec ClientFacts Examples.

(** The dispatch of a notification calls every subscriber, whatever any
    of them throws. *)
Lemma notifyDiagnosticUpdate_calls_all (uri : JSON) (diagnostics : list JSON)
    (s : State) :
  calls (notifyDiagnosticUpdate uri diagnostics s)
  = calls s ++ map (fun callback => (callback, uri, diagnostics))
                   (diagnosticSubscribers s).
Proof. reflexivity. Qed.

(** C7 fails in [subscribeToDiagnostics]: with diagnostics stored for two
    uris, subscribing a callback that throws ends by throwing what the
    callback threw, after one call; the second stored pair is never
    delivered to it. *)
Theorem C7_subscribe_propagates_failure :
  let s :=
    run hostPid hostResolve faulty ready
      [Receive (publishDiagnostics "file:///a.txt" [diagnostic 1 "e"]);
       Receive (publishDiagnostics "file:///b.txt" [diagnostic 2 "w"])] in
  let subscribed := subscribeToDiagnostics faulty 7%nat s in
  getAllDiagnostics s
  = [(JStr "file:///a.txt", [diagnostic 1 "e"]);
     (JStr "file:///b.txt", [diagnostic 2 "w"])]
  /\ subscribed.2 = Threw (CallbackThrew 7%nat)
  /\ calls subscribed.1
     = [(7%nat, JStr "file:///a.txt", [diagnostic 1 "e"])]
  /\ diagnosticSubscribers subscribed.1 = [7%nat].
Proof. vm_compute. repeat split. Qed.

End Subscribers.

(** ** Requests, responses and timeouts *)

Section Requests.
Import Client ClientSpec CorrFacts ClientFacts Refinement.
Variable pid : Z.
Variable path_resolve : string -> string.
Variable throws : Callback -> JSON -> list JSON -> bool.

Local Abbreviation step := (Client.step pid path_resolve throws).
Local Abbreviation run := (Client.run pid path_resolve throws).

Lemma sendsOnly_free (R : Prop) (l : list Act) :
  ~ R -> Forall (sendsOnly R) l ->
  Forall (fun a => exists method, a = ASend method) l.
Proof.
  intros HR Hl. eapply Forall_impl; [exact Hl|].
  intros [m| | |] H; cbn in *; try done. by exists m.
Qed.

(** X7: in every state a client reaches, restarts included, no promise of
    a request has had its [resolve] or [reject] called twice. *)
Theorem settled_at_most_once (events : list Event) :
  NoDup (map fst (settled (run initial events))).
Proof.
  apply (inv_settled_once (corr (run initial events))).
  apply run_CorrInv, CorrInv_initial.
Qed.

(** A call that is pending where no restart is under way: what a response
    to its id, and what its timeout, make of it. *)
Lemma pending_call_settles (s1 : State) (id : Z) (promise : PromiseId)
    (method : string) :
  CorrInv (corr s1) -> ~ restartSuspended s1 ->
  pendingCall id promise method (corr s1) ->
  (forall message after,
     answers id message ->
     settledOf promise (run (step s1 (Receive message)) after)
     = [settlementOf message]
     /\ responsePromises (step s1 (Receive message)) !! id = None)
  /\ (forall after,
        settledOf promise (run (step s1 (TimerFires promise)) after)
        = [Rejected (TimeoutError method)]
        /\ responsePromises (step s1 (TimerFires promise)) !! id = None).
Proof.
  intros Hi1 Hf1 Hp1.
  pose proof (inv_ids _ Hi1 _ _ (proj1 Hp1)) as Hlt.
  split.
  - intros message after Ha.
    destruct (step_receive_answer pid path_resolve throws s1 message id Ha)
      as (l & E & Fl).
    apply (sendsOnly_free _ _ Hf1) in Fl.
    destruct (respond_settles _ _ _ _ (settlementOf message) Hi1 Hp1)
      as (Hs & Hpend & Hnext & Hspent).
    destruct (acts_spent _ l _ Hspent) as [Hspent' Hs'].
    rewrite <- E in Hspent', Hs'. split.
    + rewrite (run_spent pid path_resolve throws _ after _ Hspent').
      change (settledIn promise (corr (step s1 (Receive message)))
              = [settlementOf message]).
      by rewrite Hs'.
    + change (c_pending (corr (step s1 (Receive message))) !! id = None).
      rewrite E. apply sends_keep_free; [done|by rewrite Hnext|done].
  - intros after.
    destruct (step_timer pid path_resolve throws s1 promise _ (proj2 Hp1))
      as (l & E & Fl).
    apply (sendsOnly_free _ _ Hf1) in Fl.
    destruct (fire_settles _ _ _ _ Hi1 Hp1) as (Hs & Hpend & Hnext & Hspent).
    destruct (acts_spent _ l _ Hspent) as [Hspent' Hs'].
    rewrite <- E in Hspent', Hs'. split.
    + rewrite (run_spent pid path_resolve throws _ after _ Hspent').
      change (settledIn promise (corr (step s1 (TimerFires promise)))
              = [Rejected (TimeoutError method)]).
      by rewrite Hs'.
    + change (c_pending (corr (step s1 (TimerFires promise))) !! id = None).
      rewrite E. apply sends_keep_free; [done|by rewrite Hnext|done].
Qed.

(** A response to an id that is not in the table settles nothing and
    leaves the table as it is. *)
Lemma response_without_call (s : State) (message : LSPMessage) (id : Z) :
  answers id message -> responsePromises s !! id = None ->
  settled (step s (Receive message)) = settled s
  /\ responsePromises (step s (Receive message)) = responsePromises s.
Proof.
  intros [Hid _] Hnone. cbn [Client.step].
  unfold handleMessage, handleResponse, storeCapabilities, handleNotification.
  rewrite Hid. cbn [lookupPromise]. rewrite Hnone.
  destruct (defined (msg_result message) || defined (msg_error message));
    cbn [deliver];
    destruct (resultCapabilities message) as [c|];
    try destruct (truthy c); by destruct (msg_method message).
Qed.

(** X6: take a state a client reaches in which no timeout of a
    call abandoned by a restart is armed and no restart is under way, and
    a request that is pending there, with its id, promise and timeout.
    Let any events follow that are neither a restart, nor a response to
    that id, nor that timeout.  If a response to the id is then handled,
    the promise is settled by it, resolved with the result or rejected
    with the error, the pending call is removed, and whatever happens
    afterwards that stays the one settlement of the promise.  If instead
    the timeout expires, the promise is rejected with the timeout error,
    the pending call is removed, and whatever happens afterwards, a late
    response included, that stays its one settlement. *)
Theorem pending_request_settles_once
    (before events : list Event) (id : Z) (promise : PromiseId)
    (method : string) :
  let s0 := run initial before in
  noStaleTimer (corr s0) -> ~ restartSuspended s0 ->
  responsePromises s0 !! id = Some promise ->
  timers s0 !! promise = Some (id, method) ->
  Forall (leavesPending id promise) events ->
  let s1 := run s0 events in
  (forall message after,
     answers id message ->
     settledOf promise (run (step s1 (Receive message)) after)
     = [settlementOf message]
     /\ responsePromises (step s1 (Receive message)) !! id = None)
  /\ (forall after,
        settledOf promise (run (step s1 (TimerFires promise)) after)
        = [Rejected (TimeoutError method)]
        /\ responsePromises (step s1 (TimerFires promise)) !! id = None).
Proof.
  intros s0 Hn Hf Hp Ht He s1.
  assert (Hi : CorrInv (corr s0)) by apply run_CorrInv, CorrInv_initial.
  destruct (run_pendingCall pid path_resolve throws s0 events id promise method
              Hi Hn Hf (conj Hp Ht) He) as (Hi1 & Hn1 & Hf1 & Hp1).
  by apply (pending_call_settles s1 id promise method).
Qed.

(** C2, for a request that is pending in a state a client reaches where
    no restart is under way and no timeout of a call abandoned by an
    earlier restart is armed, and as long as no restart is called while
    it is pending: until a response to its id is handled or its timeout
    expires, the promise is not settled and the call stays in the table.
    When a response to the id is handled the promise is settled by it,
    resolved with the result or rejected with the error, and the call is
    removed; when instead the timeout expires the promise is rejected with
    the timeout error and the call is removed.  Either way that stays the
    one settlement of the promise whatever happens afterwards, and after
    the timeout a late response to the id settles nothing. *)
Theorem C2_request_settles_exactly_once
    (before events : list Event) (id : Z) (promise : PromiseId)
    (method : string) :
  let s0 := run initial before in
  noStaleTimer (corr s0) -> ~ restartSuspended s0 ->
  responsePromises s0 !! id = Some promise ->
  timers s0 !! promise = Some (id, method) ->
  Forall (leavesPending id promise) events ->
  let s1 := run s0 events in
  (settledOf promise s1 = [] /\ responsePromises s1 !! id = Some promise)
  /\ (forall message after,
        answers id message ->
        settledOf promise (run (step s1 (Receive message)) after)
        = [match msg_error message with
           | Some error =>
               if truthy error then Rejected (ServerError error)
               else Resolved (msg_result message)
           | None => Resolved (msg_result message)
           end]
        /\ responsePromises (step s1 (Receive message)) !! id = None)
  /\ (forall after,
        settledOf promise (run (step s1 (TimerFires promise)) after)
        = [Rejected (TimeoutError method)]
        /\ responsePromises (step s1 (TimerFires promise)) !! id = None
        /\ forall late,
             answers id late ->
             settled (step (step s1 (TimerFires promise)) (Receive late))
             = settled (step s1 (TimerFires promise))).
Proof.
  intros s0 Hn Hf Hp Ht He s1.
  assert (Hi : CorrInv (corr s0)) by apply run_CorrInv, CorrInv_initial.
  destruct (run_pendingCall pid path_resolve throws s0 events id promise method
              Hi Hn Hf (conj Hp Ht) He) as (Hi1 & Hn1 & Hf1 & Hp1).
  fold s1 in Hi1, Hn1, Hf1, Hp1.
  destruct (pending_call_settles s1 id promise method Hi1 Hf1 Hp1)
    as [Hanswer Htimeout].
  split; [split|split].
  - destruct (inv_timer_fresh _ Hi1 promise _ (proj2 Hp1)) as [_ Hfresh].
    by apply settledIn_absent.
  - apply (proj1 Hp1).
  - intros message after Ha. apply (Hanswer message after Ha).
  - intros after. destruct (Htimeout after) as [Hs Hgone].
    split; [exact Hs|]. split; [exact Hgone|].
    intros late Hlate.
    apply (response_without_call _ late id Hlate Hgone).
Qed.

(** What [handleMessage] makes of a response that carries a result, and of
    one that carries an error. *)
Lemma settlementOf_result (message : LSPMessage) :
  msg_error message = None ->
  settlementOf message = Resolved (msg_result message).
Proof. intros H. unfold settlementOf. by rewrite H. Qed.

Lemma settlementOf_error (message : LSPMessage) (error : JSON) :
  msg_error message = Some error -> truthy error = true ->
  settlementOf message = Rejected (ServerError error).
Proof. intros H Ht. unfold settlementOf. by rewrite H, Ht. Qed.

(** The reset of [restart] empties the table of pending calls and settles
    none of them. *)
Lemma resetState_abandons (s : State) :
  responsePromises (resetState s) = ∅
  /\ nextId (resetState s) = 1
  /\ settled (resetState s) = settled s
  /\ timers (resetState s) = timers s.
Proof. done. Qed.

End Requests.

Section RequestExamples.
Import Client ClientSpec CorrFacts ClientFacts Refinement Examples.

Local Abbreviation step := (Client.step hostPid hostResolve quiet).
Local Abbreviation run := (Client.run hostPid hostResolve quiet).

(** The hover request of a ready client, while a document is opened,
    diagnostics arrive and a completion is requested. *)
Lemma pending_request_settles_once_witness :
  let s1 := run (run initial hovering) meanwhile in
  (forall message after,
     answers 2 message ->
     settledOf 1%nat (run (step s1 (Receive message)) after)
     = [settlementOf message]
     /\ responsePromises (step s1 (Receive message)) !! 2 = None)
  /\ (forall after,
        settledOf 1%nat (run (step s1 (TimerFires 1%nat)) after)
        = [Rejected (TimeoutError "textDocument/hover")]
        /\ responsePromises (step s1 (TimerFires 1%nat)) !! 2 = None).
Proof.
  assert (Hbefore : Forall notRestart hovering)
    by (repeat constructor; intros r H; discriminate H).
  apply (pending_request_settles_once hostPid hostResolve quiet
           hovering meanwhile 2 1%nat "textDocument/hover").
  - apply (run_without_restart hostPid hostResolve quiet hovering Hbefore).
  - apply (run_without_restart hostPid hostResolve quiet hovering Hbefore).
  - reflexivity.
  - reflexivity.
  - repeat constructor. intros [H _]. discriminate H.
Defined.

(** The [initialize] request of a new client: answered, or timed out. *)
Lemma C2_request_settles_exactly_once_witness :
  let s1 := run (run initial [CallInitialize None]) [] in
  (settledOf 0%nat s1 = [] /\ responsePromises s1 !! 1 = Some 0%nat)
  /\ (forall message after,
        answers 1 message ->
        settledOf 0%nat (run (step s1 (Receive message)) after)
        = [match msg_error message with
           | Some error =>
               if truthy error then Rejected (ServerError error)
               else Resolved (msg_result message)
           | None => Resolved (msg_result message)
           end]
        /\ responsePromises (step s1 (Receive message)) !! 1 = None)
  /\ (forall after,
        settledOf 0%nat (run (step s1 (TimerFires 0%nat)) after)
        = [Rejected (TimeoutError "initialize")]
        /\ responsePromises (step s1 (TimerFires 0%nat)) !! 1 = None
        /\ forall late,
             answers 1 late ->
             settled (step (step s1 (TimerFires 0%nat)) (Receive late))
             = settled (step s1 (TimerFires 0%nat))).
Proof.
  assert (Hbefore : Forall notRestart [CallInitialize None])
    by (repeat constructor; intros r H; discriminate H).
  apply (C2_request_settles_exactly_once hostPid hostResolve quiet
           [CallInitialize None] [] 1 0%nat "initialize").
  - apply (run_without_restart hostPid hostResolve quiet _ Hbefore).
  - apply (run_without_restart hostPid hostResolve quiet _ Hbefore).
  - reflexivity.
  - reflexivity.
  - constructor.
Defined.

(** C2 as stated fails when the client is restarted while a request is
    pending: the [initialize] request of a client is pending, [restart]
    discards the table of pending calls, and when the timeout of the
    request expires nothing is rejected; the promise of the request is
    never settled, whatever happens afterwards. *)
Lemma abandoned_request_never_settles :
  let s :=
    run initial [CallInitialize None; CallRestart None; TimerFires 0%nat] in
  written (run initial [CallInitialize None])
  = [(0%nat, request 1 "initialize"
               (Some (initializeParams hostPid hostResolve ".")))]
  /\ timers (run initial [CallInitialize None]) !! 0%nat
     = Some (1, "initialize")
  /\ settledOf 0%nat s = []
  /\ timers s !! 0%nat = None
  /\ outcomes s = [(OpRestart, Returned None)]
  /\ forall after, settledOf 0%nat (run s after) = [].
Proof.
  cbv zeta. repeat split; try reflexivity.
  intros after.
  rewrite (run_spent hostPid hostResolve quiet _ after 0%nat); [reflexivity|].
  repeat split.
  - vm_compute. lia.
  - intros id. vm_compute. discriminate.
Qed.

(** C3 fails at the timeout of a request made before a restart: the
    [initialize] request of a client gets id 1; the client is restarted
    and [initialize] is called again, its request getting id 1 again; the
    timeout of the first request expires, finds id 1 in the table, removes
    the pending call of the second request and rejects the promise of the
    first.  The response to the second request is then ignored, its own
    timeout does nothing, and its promise is never settled. *)
Lemma stale_timeout_removes_new_call :
  let s1 :=
    run initial [CallInitialize None; CallRestart None; CallInitialize None] in
  let s2 := step s1 (TimerFires 0%nat) in
  let s3 :=
    run s2 [Receive (response 1 (JObj [("capabilities", JObj [])]));
            TimerFires 1%nat] in
  (responsePromises s1 !! 1 = Some 1%nat
   /\ timers s1 !! 0%nat = Some (1, "initialize")
   /\ timers s1 !! 1%nat = Some (1, "initialize"))
  /\ (responsePromises s2 !! 1 = None
      /\ settledOf 0%nat s2 = [Rejected (TimeoutError "initialize")]
      /\ settledOf 1%nat s2 = [])
  /\ (settledOf 1%nat s3 = []
      /\ initialized s3 = false
      /\ waiting s3 !! 1%nat = Some (OpInitialize, [FInitialize])
      /\ forall after, settledOf 1%nat (run s3 after) = []).
Proof.
  cbv zeta. repeat split; try reflexivity.
  intros after.
  rewrite (run_spent hostPid hostResolve quiet _ after 1%nat); [reflexivity|].
  repeat split.
  - vm_compute. lia.
  - intros id. vm_compute. discriminate.
Qed.

End RequestExamples.

(** ** Outbound frames are read back *)

Module FramingFacts.
Import JsString JsStringFacts Decoder DecoderFacts Framing.

Lemma parseInt_snoc (ds : list N) (d : N) :
  parseInt (ds ++ [d]) = parseInt ds * 10 + (Z.of_N d - 48).
Proof. unfold parseInt. by rewrite fold_left_app. Qed.

Lemma isDigit_digit (d : Z) :
  0 <= d < 10 -> isDigit (Z.to_N (48 + d)) = true.
Proof.
  intros Hd. unfold isDigit. apply andb_true_iff.
  split; apply N.leb_le; lia.
Qed.

Lemma digitsOf_spec (fuel : nat) (n : Z) :
  0 <= n < 2 ^ Z.of_nat (S fuel) ->
  parseInt (digitsOf (S fuel) n) = n
  /\ forallb isDigit (digitsOf (S fuel) n) = true
  /\ digitsOf (S fuel) n <> [].
Proof.
  revert n. induction fuel as [|fuel IH]; intros n Hn.
  - assert (n = 0 \/ n = 1) as [-> | ->] by (cbn in Hn; lia); by cbn.
  - rewrite Nat2Z.inj_succ, Z.pow_succ_r in Hn by lia.
    change (digitsOf (S (S fuel)) n)
      with (if n <? 10 then [Z.to_N (48 + n)]
            else digitsOf (S fuel) (n / 10) ++ [Z.to_N (48 + n mod 10)]).
    destruct (n <? 10) eqn:E.
    + apply Z.ltb_lt in E. repeat split; [| |done].
      * unfold parseInt. cbn [fold_left]. lia.
      * cbn [forallb]. by rewrite isDigit_digit by lia.
    + apply Z.ltb_ge in E.
      assert (Hdiv : 0 <= n / 10 < 2 ^ Z.of_nat (S fuel)).
      { split; [apply Z.div_pos; lia|].
        apply Z.div_lt_upper_bound; lia. }
      destruct (IH _ Hdiv) as (Hp & Hd & Hne).
      pose proof (Z.mod_pos_bound n 10 ltac:(lia)) as Hm.
      repeat split.
      * rewrite parseInt_snoc, Hp.
        rewrite Z2N.id by lia. pose proof (Z.div_mod n 10 ltac:(lia)). lia.
      * rewrite forallb_app, Hd. cbn [forallb].
        by rewrite isDigit_digit by lia.
      * intros H. by apply app_eq_nil in H as [_ H].
Qed.

(** The digits of a length are read back by [parseInt]. *)
Lemma decimal_spec (n : Z) :
  0 <= n ->
  parseInt (decimal n) = n
  /\ forallb isDigit (decimal n) = true
  /\ decimal n <> [].
Proof.
  intros Hn. apply digitsOf_spec.
  destruct (decide (n = 0)) as [->|Hne]; [done|].
  rewrite Nat2Z.inj_succ, Z2Nat.id by apply Z.log2_nonneg.
  pose proof (Z.log2_spec n ltac:(lia)) as [Hlo Hhi].
  by split.
Qed.

Lemma byteLength_ascii (content : list N) :
  Forall (fun c => (c < 128)%N) content -> byteLength content = len content.
Proof.
  induction 1 as [|c rest Hc _ IH]; [done|].
  cbn [byteLength]. apply N.ltb_lt in Hc. rewrite Hc, IH.
  unfold len. cbn [length]. lia.
Qed.

Lemma byteLength_bounds (content : list N) :
  len content <= byteLength content <= 3 * len content.
Proof.
  unfold len.
  enough (H : (Z.of_nat (length content) <= byteLength content
               <= 3 * Z.of_nat (length content))
              /\ forall c,
                  Z.of_nat (length (c :: content))
                  <= byteLength (c :: content)
                  <= 3 * Z.of_nat (length (c :: content))) by apply H.
  induction content as [|d rest [IH1 IH2]].
  - split; [cbn; lia|]. intros c. cbn. repeat case_match; lia.
  - split; [apply IH2|]. intros c. specialize (IH2 d).
    cbn [byteLength length] in *.
    repeat case_match; lia.
Qed.

Section RoundTrip.
Variable JSON_parse : list N -> option LSPMessage.

(** X1: a frame written the way [sendRequest] and [sendNotification] frame
    their content, with an ASCII content of at most 10 MiB that ends with a
    closing brace, is decoded by [handleData]'s loop into that content,
    which goes to [JSON.parse], and decoding goes on behind the frame. *)
Theorem outbound_frame_read_back (content rest : list N) :
  Forall (fun c => (c < 128)%N) content ->
  lastChar content = Some CLOSE_BRACE ->
  len content <= MAX_BUFFER_SIZE ->
  decode JSON_parse (frameOf content ++ rest)
  = let '(later, buffer) := decode JSON_parse rest in
    match JSON_parse content with
    | Some message => (message :: later, buffer)
    | None => (later, buffer)
    end.
Proof.
  intros Hascii Hlast Hcap. unfold frameOf.
  rewrite (byteLength_ascii _ Hascii).
  destruct (decimal_spec (len content) (len_nonneg _)) as (Hp & Hd & Hne).
  rewrite <- !app_assoc. by apply decode_frame.
Qed.

End RoundTrip.

End FramingFacts.

(** ** More on the frame decoder *)

Module DecoderMore.
Import JsString JsStringFacts Decoder DecoderFacts.

Lemma lastIndexOf_None (s : list N) (c : N) :
  c ∉ s -> lastIndexOf s c = None.
Proof.
  induction s as [|x r IH]; [done|]. intros Hc.
  apply not_elem_of_cons in Hc as [Hx Hr]. cbn. rewrite (IH Hr).
  destruct (N.eqb_spec x c); [by subst|done].
Qed.

Lemma lastIndexOf_last (body tail : list N) (c : N) :
  c ∉ tail -> lastIndexOf (body ++ c :: tail) c = Some (len body).
Proof.
  intros Hc. induction body as [|x r IH].
  - cbn. rewrite (lastIndexOf_None _ _ Hc). by rewrite N.eqb_refl.
  - cbn [app lastIndexOf]. rewrite IH. f_equal. unfold len. cbn [length]. lia.
Qed.

Lemma last_not_in (body tail : list N) (c : N) :
  tail <> [] -> c ∉ tail -> last (body ++ c :: tail) <> Some c.
Proof.
  intros Hne Hc E.
  destruct (exists_last Hne) as (front & x & ->).
  change (c :: front ++ [x]) with ((c :: front) ++ [x]) in E.
  rewrite app_assoc, last_snoc in E.
  injection E as ->. apply Hc. apply elem_of_app. right. by left.
Qed.

Section Loop.
Variable JSON_parse : list N -> option LSPMessage.

Local Abbreviation decode := (Decoder.decode JSON_parse).

Lemma processBuffer_suffix (fuel : nat) (buffer : list N) :
  (processBuffer JSON_parse fuel buffer).2 `suffix_of` buffer.
Proof.
  revert buffer. induction fuel as [|fuel IH]; intros buffer; [done|].
  cbn [processBuffer].
  destruct (matchHeader buffer) as [[digits headerEnd]|]; [|done].
  assert (Hstep : forall k,
    (processBuffer JSON_parse fuel (substringFrom buffer k)).2
    `suffix_of` buffer).
  { intros k. etrans; [apply IH|]. apply suffix_drop. }
  destruct (MAX_BUFFER_SIZE <? parseInt digits); [apply Hstep|].
  destruct (len buffer <? headerEnd + parseInt digits); [done|].
  destruct (negb _).
  - destruct (lastIndexOf _ _) as [i|].
    + specialize (Hstep (headerEnd + (i + 1))).
      destruct (processBuffer _ _ _), (JSON_parse _); exact Hstep.
    + specialize (Hstep (headerEnd + parseInt digits)).
      destruct (processBuffer _ _ _), (JSON_parse _); exact Hstep.
  - specialize (Hstep (headerEnd + parseInt digits)).
    destruct (processBuffer _ _ _), (JSON_parse _); exact Hstep.
Qed.

Lemma appendData_suffix (buffer : list N) (data : list byte) :
  appendData buffer data `suffix_of` buffer ++ toString data
  /\ len (appendData buffer data) <= MAX_BUFFER_SIZE.
Proof.
  unfold appendData. destruct (MAX_BUFFER_SIZE <? _) eqn:E.
  - split; [apply suffix_drop|].
    apply Z.ltb_lt in E. unfold substringFrom, len in *.
    assert (0 <= MAX_BUFFER_SIZE) by done.
    rewrite length_drop. lia.
  - apply Z.ltb_ge in E. by split.
Qed.

(** A complete frame within the cap, whatever its content: what goes to
    [JSON.parse] and what the loop goes on with. *)
Lemma decode_complete (digits content rest : list N) :
  digits <> [] -> forallb isDigit digits = true ->
  parseInt digits = len content ->
  len content <= MAX_BUFFER_SIZE ->
  decode (HEADER ++ digits ++ CRLFCRLF ++ content ++ rest)
  = let '(parsed, buffer) :=
      if bool_decide (lastChar content = Some CLOSE_BRACE)
      then (content, rest)
      else
        match lastIndexOf content CLOSE_BRACE with
        | Some lastBraceIndex =>
            (take (Z.to_nat (lastBraceIndex + 1)) content,
             drop (Z.to_nat (lastBraceIndex + 1)) content ++ rest)
        | None => (content, rest)
        end in
    let '(later, buffer) := decode buffer in
    match JSON_parse parsed with
    | Some message => (message :: later, buffer)
    | None => (later, buffer)
    end.
Proof.
  intros Hne Hd Hlen Hcap.
  remember (HEADER ++ digits ++ CRLFCRLF ++ content ++ rest) as buffer
    eqn:Hbuf.
  assert (Hm : matchHeader buffer = Some (digits, 20 + len digits))
    by (subst buffer; by apply matchHeader_frame).
  unfold Decoder.decode at 1. cbn [processBuffer]. rewrite Hm.
  rewrite Hlen. apply Z.ltb_ge in Hcap. rewrite Hcap.
  assert (Hhdr : buffer = (HEADER ++ digits ++ CRLFCRLF) ++ content ++ rest)
    by (subst buffer; by rewrite <- !app_assoc).
  assert (Hhl : Z.to_nat (20 + len digits)
                = length (HEADER ++ digits ++ CRLFCRLF)).
  { rewrite !length_app. unfold len. cbn. lia. }
  assert (Hlb : (len buffer <? 20 + len digits + len content) = false).
  { apply Z.ltb_ge. rewrite Hhdr, !len_app.
    change (len HEADER) with 16. change (len CRLFCRLF) with 4.
    pose proof (len_nonneg rest). lia. }
  rewrite Hlb.
  assert (Hc : substring buffer (20 + len digits)
                 (20 + len digits + len content) = content).
  { unfold substring. rewrite Hhl at 2. rewrite Hhdr, drop_app_length.
    replace (Z.to_nat (20 + len digits + len content)
             - Z.to_nat (20 + len digits))%nat with (length content)
      by (pose proof (len_nonneg digits); unfold len in *; lia).
    apply take_app_length. }
  rewrite Hc.
  assert (Hr : forall k, 0 <= k <= len content ->
    substringFrom buffer (20 + len digits + k)
    = drop (Z.to_nat k) content ++ rest).
  { intros k Hk. unfold substringFrom.
    replace (Z.to_nat (20 + len digits + k))
      with (length (HEADER ++ digits ++ CRLFCRLF) + Z.to_nat k)%nat
      by (rewrite <- Hhl; pose proof (len_nonneg digits); lia).
    rewrite Hhdr, drop_app_add. apply drop_app_le. unfold len in Hk. lia. }
  assert (Hfuel : forall b, (length b <= length (content ++ rest))%nat ->
    processBuffer JSON_parse (length buffer) b = decode b).
  { intros b Hb. apply processBuffer_fuel; [|lia].
    rewrite Hhdr, length_app. rewrite !length_app. cbn [length HEADER]. 
    change (length HEADER) with 16%nat.
    rewrite length_app in Hb. lia. }
  case_bool_decide as Hlast; cbn [negb].
  - rewrite (Hr (len content)) by (pose proof (len_nonneg content); lia).
    unfold len at 1. rewrite Nat2Z.id, drop_all. cbn [app].
    rewrite Hfuel by (rewrite length_app; lia). done.
  - destruct (lastIndexOf content CLOSE_BRACE) as [i|] eqn:Ei.
    + pose proof (lastIndexOf_nonneg _ _ _ Ei) as Hi.
      rewrite (Hr (i + 1)) by lia.
      unfold substring. rewrite Z2Nat.inj_0, Nat.sub_0_r. cbn [drop].
      rewrite Hfuel; [done|].
      rewrite !length_app, length_drop. lia.
    + rewrite (Hr (len content)) by (pose proof (len_nonneg content); lia).
      unfold len at 1. rewrite Nat2Z.id, drop_all. cbn [app].
      rewrite Hfuel by (rewrite length_app; lia). done.
Qed.

(** X2: whatever the buffer holds and whatever arrives, [handleData]
    leaves a buffer of at most 10 MiB code units that is the end of the
    old buffer followed by the decoded chunk: nothing in the buffer is ever
    rewritten or reordered, only dropped from the front. *)
Theorem buffer_kept_within_cap (buffer : list N) (data : list byte) :
  (handleData JSON_parse buffer data).2 `suffix_of` buffer ++ toString data
  /\ len (handleData JSON_parse buffer data).2 <= MAX_BUFFER_SIZE.
Proof.
  destruct (appendData_suffix buffer data) as [Hs Hl].
  pose proof (processBuffer_suffix (S (length (appendData buffer data)))
                (appendData buffer data)) as Hp.
  change (processBuffer JSON_parse _ _) with (handleData JSON_parse buffer data)
    in Hp.
  split; [by etrans|].
  apply suffix_length in Hp. unfold len in *. lia.
Qed.

(** X3: a complete frame whose content does not end with a closing brace
    but holds one is cut behind its last closing brace: what is before
    goes to [JSON.parse], and what is behind stays in the buffer in front
    of the data that follows the frame, where the loop looks for the next
    header. *)
Theorem frame_cut_at_last_brace (digits body tail rest : list N) :
  digits <> [] -> forallb isDigit digits = true ->
  parseInt digits = len (body ++ CLOSE_BRACE :: tail) ->
  parseInt digits <= MAX_BUFFER_SIZE ->
  tail <> [] -> CLOSE_BRACE ∉ tail ->
  decode (HEADER ++ digits ++ CRLFCRLF ++ (body ++ CLOSE_BRACE :: tail) ++ rest)
  = let '(later, buffer) := decode (tail ++ rest) in
    match JSON_parse (body ++ [CLOSE_BRACE]) with
    | Some message => (message :: later, buffer)
    | None => (later, buffer)
    end.
Proof.
  intros Hne Hd Hlen Hcap Htail Hbrace.
  rewrite decode_complete by (done || lia).
  rewrite bool_decide_false by (by apply last_not_in).
  rewrite (lastIndexOf_last _ _ _ Hbrace).
  replace (Z.to_nat (len body + 1)) with (length (body ++ [CLOSE_BRACE]))
    by (rewrite length_app; unfold len; cbn; lia).
  rewrite (cons_middle CLOSE_BRACE body tail), app_assoc.
  by rewrite take_app_length, drop_app_length.
Qed.

(** X4: a complete frame whose content holds no closing brace goes to
    [JSON.parse] whole and is consumed whole. *)
Theorem frame_without_brace (digits content rest : list N) :
  digits <> [] -> forallb isDigit digits = true ->
  parseInt digits = len content ->
  len content <= MAX_BUFFER_SIZE ->
  CLOSE_BRACE ∉ content ->
  decode (HEADER ++ digits ++ CRLFCRLF ++ content ++ rest)
  = let '(later, buffer) := decode rest in
    match JSON_parse content with
    | Some message => (message :: later, buffer)
    | None => (later, buffer)
    end.
Proof.
  intros Hne Hd Hlen Hcap Hbrace.
  rewrite decode_complete by done.
  rewrite (lastIndexOf_None _ _ Hbrace).
  by case_bool_decide.
Qed.

(** X5: the decoder does not look for a header anywhere but at the start
    of the buffer.  Once the buffer starts with a character that is not
    the C of [Content-Length], no chunk that fits under the cap yields
    a message, whatever frames it holds: everything piles up behind that
    character. *)
Theorem no_resynchronisation (c : N) (buffer : list N)
    (chunks : list (list byte)) :
  c <> 67%N ->
  len (c :: buffer) + len (concat (map toString chunks)) <= MAX_BUFFER_SIZE ->
  feed JSON_parse (c :: buffer) chunks
  = ([], c :: buffer ++ concat (map toString chunks)).
Proof.
  intros Hc. revert buffer.
  induction chunks as [|data chunks IH]; intros buffer Hlen.
  - cbn. by rewrite app_nil_r.
  - cbn [feed map concat] in *. rewrite len_app in Hlen.
    pose proof (len_nonneg (concat (map toString chunks))).
    rewrite handleData_decode, appendData_fits
      by (change (len ((c :: buffer) ++ toString data)
                  <= MAX_BUFFER_SIZE); rewrite len_app; lia).
    cbn [app]. rewrite decode_no_header by (by apply matchHeader_other).
    rewrite IH.
    + by rewrite <- app_assoc.
    + unfold len in *. cbn [length] in *. rewrite length_app. lia.
Qed.

End Loop.

End DecoderMore.

(** ** The states a client reaches *)

Module Reach.
Import Client ClientSpec ClientInv ClientFacts.

Lemma sameCore_refl (s : State) : sameCore s s.
Proof. by repeat split. Qed.

Lemma sameCore_trans (s1 s2 s3 : State) :
  sameCore s1 s2 -> sameCore s2 s3 -> sameCore s1 s3.
Proof.
  intros (?&?&?&?&?&?&?&?) (?&?&?&?&?&?&?&?).
  repeat split; congruence.
Qed.

Lemma Sound_sameCore (s s' : State) : sameCore s s' -> Sound s -> Sound s'.
Proof.
  intros (Hp & Hi & Hw & Hsp & Ho & Hv & Hd & Hs) [].
  constructor; rewrite ?Hp, ?Hi, ?Hw, ?Hsp, ?Ho, ?Hv, ?Hd, ?Hs; done.
Qed.

Lemma Started_sameCore (s s' : State) :
  sameCore s s' -> Started s -> Started s'.
Proof.
  intros Hc [Hs Hp]. split; [by apply (Sound_sameCore s)|].
  destruct Hc as (-> & _). done.
Qed.

Lemma Sound_initial : Sound initial.
Proof.
  constructor; cbn; try done; try apply NoDup_nil_2;
    try apply oneEntryPerKey_nil.
  intros uri H. by apply elem_of_nil in H.
Qed.

Lemma setAdd_NoDup {A} `{EqDecision A} (x : A) (l : list A) :
  NoDup l -> NoDup (setAdd x l).
Proof.
  intros H. unfold setAdd. case_bool_decide; [done|].
  apply NoDup_app. split; [done|]. split; [|apply NoDup_singleton].
  intros y Hy Hx. apply list_elem_of_singleton in Hx. by subst.
Qed.

Lemma setDelete_NoDup {A} `{EqDecision A} (x : A) (l : list A) :
  NoDup l -> NoDup (setDelete x l).
Proof. apply NoDup_filter. Qed.

Lemma setDelete_in {A} `{EqDecision A} (x y : A) (l : list A) :
  y ∈ setDelete x l <-> y ∈ l /\ y <> x.
Proof. unfold setDelete. rewrite list_elem_of_filter. tauto. Qed.

Lemma setAdd_in {A} `{EqDecision A} (x y : A) (l : list A) :
  y ∈ setAdd x l <-> y ∈ l \/ y = x.
Proof.
  unfold setAdd. case_bool_decide.
  - split; [by left|]. intros [?| ->]; done.
  - rewrite elem_of_app, list_elem_of_singleton. tauto.
Qed.

Section Host.
Variable pid : Z.
Variable path_resolve : string -> string.
Variable throws : Callback -> JSON -> list JSON -> bool.

Local Abbreviation step := (Client.step pid path_resolve throws).
Local Abbreviation run := (Client.run pid path_resolve throws).

Lemma sendNotification_same (method : string) (params : option JSON)
    (s : State) : sameCore s (sendNotification method params s).
Proof.
  destruct s. unfold sameCore, sendNotification, write. cbn.
  by case_match.
Qed.

Lemma sendRequest_same (method : string) (params : option JSON) (s : State) :
  sameCore s (sendRequest method params s).1.
Proof.
  destruct s. unfold sameCore, sendRequest, write. cbn.
  by case_match.
Qed.

Lemma sendRequest_pending (method : string) (params : option JSON)
    (s : State) (promise : PromiseId) :
  (sendRequest method params s).2 = inr promise -> is_Some (process s).
Proof. unfold sendRequest. destruct (process s); [done|discriminate]. Qed.

Lemma closeAll_same (s : State) : sameCore s (closeAll s).
Proof.
  unfold closeAll. generalize (openedDocuments s) at 1.
  intros uris. revert s. induction uris as [|uri uris IH]; intros s.
  - apply sameCore_refl.
  - cbn [fold_left]. eapply sameCore_trans; [|apply IH].
    apply sendNotification_same.
Qed.

Lemma handleResponse_same (message : LSPMessage) (s : State) :
  sameCore s (handleResponse message s).1.
Proof.
  destruct s. unfold sameCore, handleResponse, lookupPromise. cbn.
  by repeat case_match.
Qed.

Lemma storeCapabilities_same (message : LSPMessage) (s : State) :
  sameCore s (storeCapabilities message s).
Proof.
  destruct s. unfold sameCore, storeCapabilities. cbn.
  by repeat case_match.
Qed.

Lemma onTimeout_same (promise : PromiseId) (id : Z) (method : string)
    (s : State) :
  sameCore s (onTimeout promise id method (clearTimeout promise s)).1.
Proof.
  destruct s. unfold sameCore, onTimeout. cbn.
  by repeat case_match.
Qed.

Lemma handleNotification_Sound (message : LSPMessage) (s : State) :
  Sound s -> Sound (handleNotification message s)
  /\ process (handleNotification message s) = process s.
Proof.
  intros Hs. unfold handleNotification.
  repeat case_match; try done.
  destruct s, Hs. split; [|done]. constructor; cbn in *; try done.
  by apply mapSet_oneEntryPerKey.
Qed.

Lemma handleMessage_Sound (message : LSPMessage) (s : State) :
  Sound s -> Sound (handleMessage message s).1.
Proof.
  intros Hs. unfold handleMessage.
  pose proof (handleResponse_same message s) as H1.
  destruct (handleResponse message s) as [s1 x]. cbn [fst] in *.
  apply handleNotification_Sound.
  eapply Sound_sameCore; [apply storeCapabilities_same|].
  by eapply Sound_sameCore.
Qed.

Lemma openDocument_Sound (uri text languageId : string) (s : State) :
  Sound s -> Sound (openDocument uri text languageId s).1.
Proof.
  intros Hs. unfold openDocument. cbv zeta.
  destruct (negb (initialized s)); [done|].
  case_bool_decide as Hopen; cbn [fst].
  - pose proof (sendNotification_same "textDocument/didChange"
      (Some (didChangeParams uri (currentVersion uri s + 1) text)) s) as Hc.
    apply (Sound_sameCore _ _ Hc) in Hs as Hs'.
    destruct (sound_versions _ Hs _ Hopen) as (v & Hv & Hv1).
    assert (Hcur : 1 <= currentVersion uri s).
    { unfold currentVersion. rewrite Hv. by case_match; lia. }
    destruct Hc as (Hp & Hi & Hw & Hsp & Ho & Hdv & Hd & Hsu).
    revert Hs' Hdv. generalize (sendNotification "textDocument/didChange"
      (Some (didChangeParams uri (currentVersion uri s + 1) text)) s).
    intros s' [] Hdv. destruct s'. constructor; cbn in *; try done.
    intros u Hu. destruct (decide (u = uri)) as [->|Hne].
    + rewrite lookup_insert_eq. eexists. split; [done|lia].
    + rewrite lookup_insert_ne by done. auto.
  - pose proof (sendNotification_same "textDocument/didOpen"
      (Some (didOpenParams uri languageId text)) s) as Hc.
    apply (Sound_sameCore _ _ Hc) in Hs as Hs'.
    destruct Hc as (Hp & Hi & Hw & Hsp & Ho & Hdv & Hd & Hsu).
    revert Hs' Ho. generalize (sendNotification "textDocument/didOpen"
      (Some (didOpenParams uri languageId text)) s).
    intros s' [] Ho. destruct s'. constructor; cbn in *; try done.
    + intros u Hu. destruct (decide (u = uri)) as [->|Hne].
      * rewrite lookup_insert_eq. eexists. split; [done|lia].
      * rewrite lookup_insert_ne by done.
        apply setAdd_in in Hu as [Hu|Hu]; [auto|done].
    + by apply setAdd_NoDup.
Qed.

Lemma openDocument_process (uri text languageId : string) (s : State) :
  process (openDocument uri text languageId s).1 = process s.
Proof.
  destruct s. unfold openDocument, sendNotification, write. cbn.
  repeat case_match; done.
Qed.

Lemma closeDocument_Sound (uri : string) (s : State) :
  Sound s -> Sound (closeDocument uri s).1.
Proof.
  intros Hs. unfold closeDocument. cbv zeta.
  destruct (negb (initialized s)); [done|].
  case_bool_decide as Hopen; cbn [fst]; [|done].
  pose proof (sendNotification_same "textDocument/didClose"
    (Some (didCloseParams uri)) s) as Hc.
  apply (Sound_sameCore _ _ Hc) in Hs as Hs'.
  revert Hs'. generalize (sendNotification "textDocument/didClose"
    (Some (didCloseParams uri)) s).
  intros s' []. destruct s'. constructor; cbn in *; try done.
  - intros u Hu. apply setDelete_in in Hu as [Hu Hne].
    rewrite lookup_delete_ne by done. auto.
  - by apply setDelete_NoDup.
Qed.

Lemma subscribeToDiagnostics_Sound (callback : Callback) (s : State) :
  Sound s -> Sound (subscribeToDiagnostics throws callback s).1.
Proof.
  intros []. unfold subscribeToDiagnostics.
  destruct s. cbn in *.
  destruct (deliverStored _ _ _) as [made [e|]];
    constructor; cbn; try done; by apply setAdd_NoDup.
Qed.

Lemma unsubscribeFromDiagnostics_Sound (callback : Callback) (s : State) :
  Sound s -> Sound (unsubscribeFromDiagnostics callback s).
Proof.
  intros []. destruct s. constructor; cbn in *; try done.
  by apply setDelete_NoDup.
Qed.

(** Operations on a started client. *)

Lemma startProcess_Started (s : State) :
  (forall p, process s = Some p -> (proc p < spawned s)%nat) ->
  (forall uri, uri ∈ openedDocuments s ->
     exists version, documentVersions s !! uri = Some version /\ 1 <= version) ->
  NoDup (openedDocuments s) -> oneEntryPerKey (documentDiagnostics s) ->
  NoDup (diagnosticSubscribers s) ->
  Started (startProcess s).
Proof.
  intros Hp Hv Ho Hd Hs. destruct s. split; [|done].
  constructor; cbn in *; try done.
  intros p [= <-]. cbn. split; [done|lia].
Qed.

Lemma initialize_Sound (rootDirectory : string) (s : State) :
  Sound s ->
  Sound (initialize pid path_resolve rootDirectory s).1
  /\ forall promise stack,
       (initialize pid path_resolve rootDirectory s).2 = Pending promise stack ->
       is_Some (process (initialize pid path_resolve rootDirectory s).1).
Proof.
  intros Hs. unfold initialize.
  destruct (initialized s); [by split|].
  set (s0 := match process s with None => startProcess s | Some _ => s end).
  assert (H0 : Started s0).
  { subst s0. destruct (process s) eqn:E; [by split; [|rewrite E]|].
    destruct Hs. apply startProcess_Started; try done.
    intros p Hp. congruence. }
  clearbody s0.
  pose proof (sendRequest_same "initialize"
                (Some (initializeParams pid path_resolve rootDirectory)) s0) as Hc.
  destruct (sendRequest _ _ s0) as [s1 [e|promise]]; cbn [fst snd] in *.
  - split; [by apply (Sound_sameCore s0), H0|]. done.
  - destruct (Started_sameCore _ _ Hc H0) as [H1 H2]. by split.
Qed.

Lemma initializeResume_Started (outcome : Outcome) (s : State) :
  Started s -> Started (initializeResume outcome s).1.
Proof.
  intros H. unfold initializeResume. destruct outcome; [|done].
  cbv zeta. cbn [fst].
  apply (Started_sameCore _ _ (sendNotification_same "initialized"
           (Some (JObj [])) s)) in H.
  revert H. generalize (sendNotification "initialized" (Some (JObj [])) s).
  intros s' [[] Hp]. destruct s'. split; [|done].
  constructor; cbn in *; try done.
  intros ->. by destruct Hp.
Qed.

Lemma shutdownResume_Started (outcome : Outcome) (s : State) :
  Started s -> Started (shutdownResume outcome s).1.
Proof.
  intros H. unfold shutdownResume. destruct outcome; [|done].
  cbv zeta. cbn [fst].
  apply (Started_sameCore _ _ (sendNotification_same "exit" None s)) in H.
  revert H. generalize (sendNotification "exit" None s).
  intros s' [[] Hp]. destruct s'. split; [|done].
  constructor; cbn in *; try done.
  - intros ->. by destruct Hp.
  - intros uri H. by apply elem_of_nil in H.
  - apply NoDup_nil_2.
Qed.

Lemma shutdown_Started (s : State) :
  Started s -> Started (shutdown s).1.
Proof.
  intros H. unfold shutdown. cbv zeta.
  destruct (negb (initialized s)); [done|].
  assert (H1 : Started (clearDiagnosticSubscribers s)).
  { destruct H as [[] Hp]. destruct s. split; [|done].
    constructor; cbn in *; try done. apply NoDup_nil_2. }
  apply (Started_sameCore _ _ (closeAll_same _)) in H1.
  revert H1. generalize (closeAll (clearDiagnosticSubscribers s)).
  intros s1 H1.
  pose proof (sendRequest_same "shutdown" None s1) as Hc.
  apply (Started_sameCore _ _ Hc) in H1.
  destruct (sendRequest "shutdown" None s1) as [s2 [e|promise]];
    cbn [fst] in *; [|done].
  by apply shutdownResume_Started.
Qed.

Lemma restartResume_Started (rootDirectory : option string) (s : State) :
  Sound s -> Started (restartResume pid path_resolve rootDirectory s).1.
Proof.
  intros Hs. unfold restartResume. cbv zeta.
  assert (H0 : Started (startProcess (resetState (killProcess s)))).
  { destruct Hs. destruct s. apply startProcess_Started; cbn in *;
      try apply NoDup_nil_2; try apply oneEntryPerKey_nil.
    - intros p. destruct process0 as [q|]; [|done].
      destruct (sound_alive0 q eq_refl) as [Hk Hq].
      unfold killProcess. cbn. rewrite Hk. cbn. intros [= <-]. done.
    - intros uri H. by apply elem_of_nil in H. }
  revert H0. generalize (startProcess (resetState (killProcess s))).
  intros s0 H0.
  destruct (givenRoot rootDirectory) as [root|]; [|done].
  destruct (initialize_Sound root s0 (proj1 H0)) as [H1 H2].
  assert (Hp : is_Some (process (initialize pid path_resolve root s0).1)).
  { unfold initialize. destruct (initialized s0); [apply H0|].
    destruct H0 as [_ [p Hp]]. rewrite Hp.
    pose proof (sendRequest_same "initialize"
      (Some (initializeParams pid path_resolve root)) s0) as (Hq & _).
    destruct (sendRequest _ _ s0) as [s1 [e|promise]]; cbn [fst] in *;
      by rewrite Hq, Hp. }
  destruct (initialize pid path_resolve root s0) as [s1 [outcome|promise stack]];
    by split.
Qed.

Lemma resumeFrame_Started (frame : Frame) (outcome : Outcome) (s : State) :
  Started s -> Started (resumeFrame pid path_resolve frame outcome s).1.
Proof.
  intros H. destruct frame; cbn [resumeFrame]; try done.
  - by apply initializeResume_Started.
  - by apply shutdownResume_Started.
  - apply restartResume_Started, H.
Qed.

Lemma unwind_Started (stack : list Frame) (outcome : Outcome) (s : State) :
  Started s -> Started (unwind pid path_resolve stack outcome s).1.
Proof.
  revert outcome s. induction stack as [|frame rest IH]; intros outcome s H;
    [done|].
  cbn [unwind].
  pose proof (resumeFrame_Started frame outcome s H) as H1.
  destruct (resumeFrame pid path_resolve frame outcome s)
    as [s1 [outcome1|promise stack]]; cbn [fst] in *; [|done].
  by apply IH.
Qed.

Lemma park_Sound (operation : Operation) (call : State * Await) :
  Sound call.1 ->
  (forall promise stack, call.2 = Pending promise stack ->
     is_Some (process call.1)) ->
  Sound (park operation call).
Proof.
  destruct call as [s [outcome|promise stack]]; cbn [fst snd park];
    intros [] Hp.
  - destruct s. constructor; cbn in *; done.
  - specialize (Hp _ _ eq_refl). destruct s. constructor; cbn in *; try done.
    intros ->. by destruct Hp.
Qed.

Lemma park_Started (operation : Operation) (call : State * Await) :
  Started call.1 -> Sound (park operation call).
Proof. intros [H1 H2]. by apply park_Sound. Qed.

Lemma deliver_Sound (s : State) (x : option (PromiseId * Settlement)) :
  Sound s -> Sound (deliver pid path_resolve (s, x)).
Proof.
  intros Hs. cbn [deliver]. destruct x as [[promise how]|]; [|done].
  destruct (waiting s !! promise) as [[operation stack]|] eqn:Hw; [|done].
  apply park_Started, unwind_Started.
  assert (Hp : is_Some (process s)).
  { destruct (process s) eqn:E; [done|].
    destruct (sound_started _ Hs E) as [_ Hempty].
    rewrite Hempty in Hw. done. }
  destruct Hs. destruct s. split; [|done].
  constructor; cbn in *; try done.
  intros ->. by destruct Hp.
Qed.

Lemma query_Sound (method : string) (params : option JSON) (s : State) :
  Sound s ->
  Sound (query method params s).1
  /\ forall promise stack,
       (query method params s).2 = Pending promise stack ->
       is_Some (process (query method params s).1).
Proof.
  intros Hs. unfold query. destruct (negb (initialized s)); [by split|].
  pose proof (sendRequest_same method params s) as Hc.
  pose proof (sendRequest_pending method params s) as Hp.
  destruct (sendRequest method params s) as [s1 [e|promise]];
    cbn [fst snd] in *.
  - split; [by apply (Sound_sameCore s)|done].
  - split; [by apply (Sound_sameCore s)|]. intros _ _ _.
    destruct Hc as (-> & _). by eapply Hp.
Qed.

Lemma shutdown_Sound (s : State) :
  Sound s ->
  Sound (shutdown s).1
  /\ forall promise stack,
       (shutdown s).2 = Pending promise stack -> is_Some (process (shutdown s).1).
Proof.
  intros Hs. destruct (process s) eqn:E.
  - destruct (shutdown_Started s) as [H1 H2]; [by split; [|rewrite E]|].
    by split.
  - destruct (sound_started _ Hs E) as [Hi _].
    unfold shutdown. rewrite Hi. by split.
Qed.

Lemma restart_Sound (rootDirectory : option string) (s : State) :
  Sound s -> Sound (park OpRestart (restart pid path_resolve rootDirectory s)).
Proof.
  intros Hs. unfold restart. destruct (initialized s) eqn:Hi.
  - assert (Hst : Started s).
    { split; [done|]. destruct (process s) eqn:E; [done|].
      destruct (sound_started _ Hs E). congruence. }
    pose proof (shutdown_Started s Hst) as H1.
    destruct (shutdown s) as [s1 [outcome|promise stack]]; cbn [andThen fst] in *.
    + apply park_Started, restartResume_Started, H1.
    + by apply park_Started.
  - apply park_Started, restartResume_Started, Hs.
Qed.

Lemma step_Sound (s : State) (event : Event) : Sound s -> Sound (step s event).
Proof.
  intros Hs. destruct event; cbn [Client.step].
  - by apply park_Sound; apply initialize_Sound.
  - by apply openDocument_Sound.
  - by apply closeDocument_Sound.
  - by apply subscribeToDiagnostics_Sound.
  - by apply unsubscribeFromDiagnostics_Sound.
  - by apply park_Sound; apply query_Sound.
  - by apply park_Sound; apply shutdown_Sound.
  - by apply restart_Sound.
  - pose proof (handleMessage_Sound message s Hs) as H.
    destruct (handleMessage message s) as [s1 x]. by apply deliver_Sound.
  - destruct (timers s !! promise) as [[id method]|]; [|done].
    pose proof (onTimeout_same promise id method s) as H.
    destruct (onTimeout promise id method (clearTimeout promise s)) as [s1 x].
    apply deliver_Sound. by apply (Sound_sameCore s).
Qed.

Lemma run_Sound (s : State) (events : list Event) :
  Sound s -> Sound (run s events).
Proof.
  revert s. induction events as [|event events IH]; intros s Hs; [done|].
  apply IH. by apply step_Sound.
Qed.

End Host.

End Reach.

(** ** What holds in every state a client reaches *)

Section Reachable.
Import Client ClientSpec ClientInv Reach.
Variable pid : Z.
Variable path_resolve : string -> string.
Variable throws : Callback -> JSON -> list JSON -> bool.

Local Abbreviation run := (Client.run pid path_resolve throws).

(** X16: in every state a client reaches, every document of the open set
    has a version, and that version is at least 1: the fallback of
    [openDocument] for a missing version is never taken. *)
Theorem open_documents_have_versions (events : list Event) :
  let s := run initial events in
  Forall
    (fun uri =>
       exists version,
         documentVersions s !! uri = Some version /\ 1 <= version
         /\ currentVersion uri s = version)
    (openedDocuments s).
Proof.
  intros s. apply Forall_forall. intros uri Huri.
  destruct (sound_versions s (run_Sound pid path_resolve throws _ events
                                Sound_initial) uri Huri) as (v & Hv & Hv1).
  exists v. repeat split; try done.
  unfold currentVersion. rewrite Hv.
  destruct (Z.eqb_spec v 0); [lia|done].
Qed.

(** In every state a client reaches, the diagnostics store has at most one
    entry per key and the set of subscribers holds each callback once, as
    the [Map] and the [Set] of the client do; and the set of open
    documents holds each uri once. *)
Lemma stores_hold_no_duplicates (events : list Event) :
  let s := run initial events in
  oneEntryPerKey (documentDiagnostics s)
  /\ NoDup (diagnosticSubscribers s)
  /\ NoDup (openedDocuments s).
Proof.
  intros s.
  destruct (run_Sound pid path_resolve throws _ events Sound_initial).
  done.
Qed.

(** X18: in every state a client reaches, either no server was ever
    started, and then the client is not initialized and no operation
    awaits a response, or the client holds a server process that it
    spawned and has not killed.  An initialized client always has a
    server to write to. *)
Theorem initialized_client_has_server (events : list Event) :
  let s := run initial events in
  (process s = None /\ initialized s = false /\ waiting s = ∅)
  \/ exists server,
       process s = Some server /\ killed server = false
       /\ (proc server < spawned s)%nat.
Proof.
  intros s.
  pose proof (run_Sound pid path_resolve throws _ events Sound_initial) as Hs.
  fold s in Hs. destruct (process s) as [server|] eqn:E.
  - right. exists server. destruct (sound_alive s Hs server E). done.
  - left. destruct (sound_started s Hs E). done.
Qed.

End Reachable.

(** ** The lifecycle, turn by turn *)

Module Lifecycle.
Import Client ClientSpec ClientInv ClientFacts.

(** Runs the operations of the client on a state given field by field. *)
Ltac exec :=
  cbv beta iota zeta delta
    [Client.step Client.park Client.deliver Client.unwind Client.resumeFrame
     Client.initialize Client.initializeResume Client.shutdown
     Client.shutdownResume Client.restart Client.restartResume
     Client.restartInitializeResume Client.andThen Client.query
     Client.handleMessage Client.handleResponse Client.storeCapabilities
     Client.handleNotification Client.lookupPromise Client.onTimeout
     Client.clearTimeout Client.settle Client.sendRequest
     Client.sendNotification Client.write Client.startProcess
     Client.killProcess Client.resetState Client.clearDiagnosticSubscribers
     Client.notifyDiagnosticUpdate Client.openDocument Client.closeDocument
     Client.subscribeToDiagnostics Client.unsubscribeFromDiagnostics
     Client.outcomeOf
     Client.set_process Client.set_buffer Client.set_messageQueue
     Client.set_nextId Client.set_responsePromises Client.set_initialized
     Client.set_serverCapabilities Client.set_openedDocuments
     Client.set_documentVersions Client.set_processingQueue
     Client.set_documentDiagnostics Client.set_diagnosticSubscribers
     Client.set_spawned Client.set_written Client.set_timers
     Client.set_nextPromise Client.set_settled Client.set_waiting
     Client.set_outcomes Client.set_calls
     Client.process Client.buffer Client.messageQueue Client.nextId
     Client.responsePromises Client.initialized Client.serverCapabilities
     Client.openedDocuments Client.documentVersions Client.processingQueue
     Client.documentDiagnostics Client.diagnosticSubscribers Client.spawned
     Client.written Client.timers Client.nextPromise Client.settled
     Client.waiting Client.outcomes Client.calls
     Client.proc Client.killed
     fst snd negb orb andb].

Section Host.
Variable pid : Z.
Variable path_resolve : string -> string.
Variable throws : Callback -> JSON -> list JSON -> bool.

Local Abbreviation step := (Client.step pid path_resolve throws).
Local Abbreviation run := (Client.run pid path_resolve throws).

(** What a response to a pending request does before the operation that
    awaits it goes on. *)
Lemma handleMessage_answer (message : LSPMessage) (id : Z)
    (promise : PromiseId) (s : State) :
  answers id message -> responsePromises s !! id = Some promise ->
  handleMessage message s
  = (storeCapabilities message
       (set_responsePromises (delete id (responsePromises s))
          (settle promise (settlementOf message) (clearTimeout promise s))),
     Some (promise, settlementOf message)).
Proof.
  intros [Hid Hdef] Hp.
  unfold handleMessage, handleResponse, handleNotification, lookupPromise.
  rewrite Hid, Hdef, Hp. fold (settlementOf message).
  cbn [responsePromises settle clearTimeout set_timers set_settled].
  destruct (msg_method message); reflexivity.
Qed.

(** X19: [initialize] on a client that is not initialized starts the
    server unless one is started, writes the [initialize] request with
    the next id and waits.  When the response arrives with a result, the
    [initialized] notification is written, the client is initialized and
    the call returns; the capabilities of the result are kept.  When the
    response carries an error, or when the timeout expires, the call
    throws that error, nothing more is written and the client stays
    uninitialized, with the server left running. *)
Theorem initialize_handshake (rootDirectory : option string) (s : State) :
  initialized s = false ->
  let root := match rootDirectory with Some r => r | None => "." end in
  let server :=
    match process s with
    | Some p => p
    | None => {| proc := spawned s; killed := false |}
    end in
  let s1 := step s (CallInitialize rootDirectory) in
  (process s1 = Some server
   /\ written s1
      = written s
        ++ [(proc server,
             request (nextId s) "initialize"
               (Some (initializeParams pid path_resolve root)))]
   /\ initialized s1 = false
   /\ outcomes s1 = outcomes s)
  /\ (forall message,
        answers (nextId s) message ->
        let s2 := step s1 (Receive message) in
        process s2 = Some server
        /\ serverCapabilities s2
           = serverCapabilities (storeCapabilities message s)
        /\ match settlementOf message with
           | Resolved _ =>
               initialized s2 = true
               /\ written s2
                  = written s1
                    ++ [(proc server, notification "initialized" (JObj []))]
               /\ outcomes s2 = outcomes s ++ [(OpInitialize, Returned None)]
           | Rejected error =>
               initialized s2 = false
               /\ written s2 = written s1
               /\ outcomes s2 = outcomes s ++ [(OpInitialize, Threw error)]
           end)
  /\ (let s2 := step s1 (TimerFires (nextPromise s)) in
      process s2 = Some server
      /\ initialized s2 = false
      /\ written s2 = written s1
      /\ outcomes s2
         = outcomes s ++ [(OpInitialize, Threw (TimeoutError "initialize"))]).
Proof.
  intros Hi root server s1.
  assert (E1 : s1 =
    set_waiting (<[nextPromise s := (OpInitialize, [FInitialize])]> (waiting s))
      (set_written
         (written s
          ++ [(proc server,
               request (nextId s) "initialize"
                 (Some (initializeParams pid path_resolve root)))])
         (set_responsePromises
            (<[nextId s := nextPromise s]> (responsePromises s))
            (set_timers
               (<[nextPromise s := (nextId s, "initialize")]> (timers s))
               (set_nextPromise (S (nextPromise s))
                  (set_nextId (nextId s + 1)
                     (set_spawned
                        (match process s with
                         | Some _ => spawned s
                         | None => S (spawned s)
                         end)
                        (set_process (Some server) s)))))))).
  { subst s1 server root. destruct s. cbn in Hi. subst. exec.
    destruct process0; reflexivity. }
  clearbody s1. subst s1. destruct s. cbn in Hi, server. subst.
  split; [by repeat split|]. split.
  - intros message Ha s2. subst s2. cbn [Client.step].
    erewrite handleMessage_answer; [|exact Ha|apply lookup_insert_eq].
    destruct Ha as [Hid _]. unfold storeCapabilities. rewrite Hid.
    destruct (resultCapabilities message) as [c|]; [destruct (truthy c)|];
      exec; rewrite lookup_insert_eq;
      destruct (settlementOf message); exec; by repeat split.
  - exec. rewrite lookup_insert_eq. exec. rewrite lookup_insert_eq.
    exec. rewrite lookup_insert_eq. exec. by repeat split.
Qed.


(** X20: [restart] on a client that is not initialized sends nothing to the
    old server: it starts a new one and empties the buffer, the message
    queue, the table of pending calls, the document sessions, the
    diagnostics store and the set of subscribers, with ids starting again
    at 1.  No promise is settled and no timeout is cleared on the way.
    Without a root directory the call returns and the client stays
    uninitialized; with one, the [initialize] request goes to the new
    server with id 1 and the call waits for its response. *)
Theorem restart_when_not_initialized (rootDirectory : option string)
    (s : State) :
  initialized s = false ->
  let s1 := step s (CallRestart rootDirectory) in
  (process s1 = Some {| proc := spawned s; killed := false |}
   /\ spawned s1 = S (spawned s)
   /\ buffer s1 = [] /\ messageQueue s1 = []
   /\ openedDocuments s1 = [] /\ documentVersions s1 = ∅
   /\ documentDiagnostics s1 = [] /\ diagnosticSubscribers s1 = []
   /\ serverCapabilities s1 = None /\ initialized s1 = false
   /\ settled s1 = settled s)
  /\ match givenRoot rootDirectory with
     | None =>
         nextId s1 = 1 /\ responsePromises s1 = ∅
         /\ timers s1 = timers s
         /\ written s1 = written s
         /\ outcomes s1 = outcomes s ++ [(OpRestart, Returned None)]
     | Some root =>
         nextId s1 = 2
         /\ responsePromises s1 = <[1 := nextPromise s]> ∅
         /\ timers s1 = <[nextPromise s := (1, "initialize")]> (timers s)
         /\ written s1
            = written s
              ++ [(spawned s,
                   request 1 "initialize"
                     (Some (initializeParams pid path_resolve root)))]
         /\ outcomes s1 = outcomes s
         /\ waiting s1
            = <[nextPromise s := (OpRestart, [FInitialize; FRestartInitialize])]>
                (waiting s)
     end.
Proof.
  intros Hi s1. subst s1. destruct s. cbn in Hi. subst.
  destruct (givenRoot rootDirectory) as [root|] eqn:Hroot.
  - exec. rewrite Hroot. destruct process0 as [[n []]|]; exec; by repeat split.
  - exec. rewrite Hroot. destruct process0 as [[n []]|]; exec; by repeat split.
Qed.



(** X23: before [initialize] has succeeded, [openDocument],
    [closeDocument] and the queries throw the "not initialized" error and
    [shutdown] returns at once; none of them writes to the server, starts
    one or changes the client. *)
Theorem refused_before_initialize (s : State) :
  initialized s = false ->
  (forall uri text languageId,
     openDocument uri text languageId s = (s, Threw NotInitialized))
  /\ (forall uri, closeDocument uri s = (s, Threw NotInitialized))
  /\ (forall method params,
        query method params s = (s, Done (Threw NotInitialized)))
  /\ shutdown s = (s, Done (Returned None)).
Proof.
  intros Hi. unfold openDocument, closeDocument, query, shutdown.
  rewrite Hi. done.
Qed.

End Host.

End Lifecycle.

(** ** Inbound messages, documents and subscribers *)

Module Inbound.
Import Client ClientSpec ClientInv ClientFacts Logging.

Section Host.
Variable pid : Z.
Variable path_resolve : string -> string.
Variable throws : Callback -> JSON -> list JSON -> bool.

Local Abbreviation step := (Client.step pid path_resolve throws).
Local Abbreviation run := (Client.run pid path_resolve throws).

(** X11: a request of the server to the client, a message with an id and a
    method but neither result nor error, changes nothing: it is not
    answered, nothing is written, no promise is settled. *)
Theorem server_request_ignored (s : State) (message : LSPMessage) (id : JSON) :
  msg_id message = Some id ->
  msg_result message = None -> msg_error message = None ->
  step s (Receive message) = s.
Proof.
  intros Hid Hr He. cbn [Client.step].
  unfold handleMessage, handleResponse, storeCapabilities, resultCapabilities,
    handleNotification.
  rewrite Hid, Hr, He. cbn. by destruct (msg_method message).
Qed.

(** X12: a response whose id is that of no pending call, or is not a
    number, settles nothing and resumes nothing; the only thing kept of
    it is the [capabilities] of its result when it has one that is
    truthy, whatever request it was meant for. *)
Theorem unmatched_response (s : State) (message : LSPMessage) (id : JSON) :
  msg_id message = Some id -> lookupPromise id s = None ->
  step s (Receive message)
  = match resultCapabilities message with
    | Some capabilities =>
        if truthy capabilities
        then set_serverCapabilities (Some capabilities) s
        else s
    | None => s
    end.
Proof.
  intros Hid Hp. cbn [Client.step].
  unfold handleMessage, handleResponse, storeCapabilities, handleNotification.
  rewrite Hid. cbv beta iota.
  assert (E : forall A (x : A) (y : Z -> PromiseId -> A),
    match id with
    | JNum n =>
        match lookupPromise (JNum n) s with
        | Some promise => y n promise
        | None => x
        end
    | _ => x
    end = x).
  { intros A x y. destruct id; try done. by rewrite Hp. }
  rewrite E.
  destruct (defined (msg_result message) || defined (msg_error message));
    cbn [deliver];
    destruct (resultCapabilities message) as [c|];
    try destruct (truthy c); by destruct (msg_method message).
Qed.

(** X13: a notification is ignored unless it is a
    [textDocument/publishDiagnostics] with truthy parameters, a truthy
    [uri] and an array of [diagnostics]: any other method, or a missing or
    empty uri, or diagnostics that are not an array, change nothing. *)
Theorem notification_ignored (s : State) (message : LSPMessage) :
  msg_id message = None ->
  (forall method, msg_method message = Some method ->
     isString "textDocument/publishDiagnostics" method = false
     \/ (forall params, msg_params message = Some params ->
           truthy params = false
           \/ isTruthy (field "uri" params) = false
           \/ forall diagnostics,
                field "diagnostics" params <> Some (JArr diagnostics))) ->
  step s (Receive message) = s.
Proof.
  intros Hid H. cbn [Client.step].
  unfold handleMessage, handleResponse, storeCapabilities, handleNotification.
  rewrite Hid. cbn [deliver].
  destruct (msg_method message) as [method|]; [|done].
  destruct (H method eq_refl) as [-> | Hparams]; [done|].
  destruct (isString _ method); [|done]. cbn [andb].
  destruct (msg_params message) as [params|]; [|done].
  destruct (Hparams params eq_refl) as [Ht | [Hu | Hd]].
  - cbn. by rewrite Ht.
  - cbn. destruct (truthy params); [|done].
    destruct (field "uri" params) as [uri|]; [|done].
    cbn in Hu. rewrite Hu. by repeat case_match.
  - cbn. destruct (truthy params); [|done].
    repeat case_match; try done. by edestruct Hd.
Qed.

(** X14: a [publishDiagnostics] notification for a uri, with diagnostics
    whose severities can be read (none is [null], none has for severity
    an object that cannot be made a number: reading or comparing such a
    severity throws before anything is stored), replaces what the store
    held for that uri and leaves the entries of the other uris alone;
    every subscriber is called with the uri and the new diagnostics, in
    the order of subscription, whether or not the ones before it throw;
    nothing is written to the server and no subscriber is dropped. *)
Theorem publish_stored_and_announced (s : State) (message : LSPMessage)
    (uri : string) (diagnostics : list JSON) :
  publishes message uri diagnostics -> uri <> "" ->
  readable diagnostics ->
  let s1 := step s (Receive message) in
  getDiagnostics uri s1 = diagnostics
  /\ (forall other,
        other <> uri -> getDiagnostics other s1 = getDiagnostics other s)
  /\ calls s1
     = calls s ++ map (fun callback => (callback, JStr uri, diagnostics))
                      (diagnosticSubscribers s)
  /\ diagnosticSubscribers s1 = diagnosticSubscribers s
  /\ written s1 = written s
  /\ settled s1 = settled s.
Proof.
  intros Hpub Huri Hread s1. subst s1.
  rewrite (step_publishes pid path_resolve throws message uri diagnostics s
             Hpub Huri (readable_quiet _ _ Hread)).
  destruct s. unfold getDiagnostics.
  cbn [documentDiagnostics notifyDiagnosticUpdate set_calls
       set_documentDiagnostics calls diagnosticSubscribers written settled].
  rewrite (mapGet_mapSet _ _ _ (sameValueZero_self uri)).
  repeat split; try done.
  intros other Hne. rewrite mapGet_mapSet_other; [done|].
  cbn. apply String.eqb_neq. congruence.
Qed.

(** A [publishDiagnostics] notification with a [null] among its
    diagnostics: reading the severity of that item throws, [handleMessage]
    is left before anything is stored, and the client is as it was; the
    diagnostics it held for the uri are kept and no subscriber is
    called. *)
Lemma publish_with_null_item_dropped (s : State) (message : LSPMessage)
    (uri : string) (diagnostics : list JSON) :
  publishes message uri diagnostics -> JNull ∈ diagnostics ->
  step s (Receive message) = s.
Proof.
  intros Hpub Hnull.
  apply (step_throws pid path_resolve throws message uri diagnostics s Hpub).
  unfold publishThrows. apply orb_true_iff. left.
  apply existsb_exists. exists JNull. split; [|done].
  by apply list_elem_of_In.
Qed.

(** The [uri] of a notification is not checked to be a string: any value
    that is truthy and can be written in the log line is a key of the
    store, and the subscribers are called with it. *)
Lemma publish_with_any_uri (s : State) (message : LSPMessage)
    (params uri : JSON) (diagnostics : list JSON) :
  msg_method message = Some (JStr "textDocument/publishDiagnostics") ->
  msg_id message = None ->
  msg_params message = Some params -> truthy params = true ->
  field "uri" params = Some uri -> truthy uri = true ->
  field "diagnostics" params = Some (JArr diagnostics) ->
  publishThrows uri diagnostics = false ->
  step s (Receive message)
  = notifyDiagnosticUpdate uri diagnostics
      (set_documentDiagnostics
         (mapSet uri diagnostics (documentDiagnostics s)) s).
Proof.
  intros Hm Hid Hp Htp Hu Htu Hd Hq. cbn [Client.step].
  unfold handleMessage, handleResponse, storeCapabilities, handleNotification.
  rewrite Hid, Hm, Hp. cbn [isString isTruthy].
  rewrite String.eqb_refl, Htp. cbn [andb deliver].
  by rewrite Hu, Hd, Htu, Hq.
Qed.

(** X15: [closeDocument] on an initialized client writes the [didClose]
    notification exactly when the document is open, and then forgets the
    document and its version; the versions of the other documents and the
    diagnostics stored for the uri stay.  Closing a document that is not
    open, a second time for instance, does nothing.  A document opened
    again after it was closed is announced with [didOpen] at version 1. *)
Theorem close_then_reopen (uri text languageId : string) (s : State)
    (p : ChildProcess) :
  initialized s = true -> process s = Some p ->
  uri ∈ openedDocuments s ->
  let s1 := (closeDocument uri s).1 in
  let s2 := (openDocument uri text languageId s1).1 in
  (written s1
   = written s ++ [(proc p, notification "textDocument/didClose"
                              (didCloseParams uri))]
   /\ (uri ∉ openedDocuments s1)
   /\ documentVersions s1 !! uri = None
   /\ (forall other, other <> uri ->
         (documentVersions s1 !! other = documentVersions s !! other)
         /\ ((other ∈ openedDocuments s1) <-> (other ∈ openedDocuments s)))
   /\ documentDiagnostics s1 = documentDiagnostics s)
  /\ closeDocument uri s1 = (s1, Returned None)
  /\ (written s2
      = written s1 ++ [(proc p, notification "textDocument/didOpen"
                                  (didOpenParams uri languageId text))]
      /\ uri ∈ openedDocuments s2
      /\ documentVersions s2 !! uri = Some 1).
Proof.
  intros Hi Hp Hopen s1 s2.
  assert (Hclosed : uri ∉ setDelete uri (openedDocuments s)).
  { intros H. apply Reach.setDelete_in in H as [_ H]. done. }
  assert (E1 : s1 =
    set_documentVersions (delete uri (documentVersions s))
      (set_openedDocuments (setDelete uri (openedDocuments s))
         (set_written
            (written s ++ [(proc p, notification "textDocument/didClose"
                                      (didCloseParams uri))]) s))).
  { subst s1. unfold closeDocument. rewrite Hi.
    rewrite bool_decide_true by done. cbn [negb fst].
    by rewrite (sendNotification_written _ _ _ _ Hp). }
  clearbody s1. subst s1 s2. destruct s. cbn in Hi, Hp, Hopen, Hclosed. subst.
  split; [|split].
  - cbn. repeat split; try done.
    + apply lookup_delete_eq.
    + by apply lookup_delete_ne.
    + intros Hin. by apply Reach.setDelete_in in Hin as [Hin _].
    + intros Hin. by apply Reach.setDelete_in.
  - unfold closeDocument. cbn. by rewrite bool_decide_false.
  - unfold openDocument, sendNotification, write. cbn.
    rewrite bool_decide_false by done. cbn. repeat split.
    + apply Reach.setAdd_in. by right.
    + apply lookup_insert_eq.
Qed.

End Host.

End Inbound.

(** ** Pending calls in the states a client reaches *)

Section PendingCalls.
Import Client ClientSpec CorrFacts ClientFacts Refinement.
Variable pid : Z.
Variable path_resolve : string -> string.
Variable throws : Callback -> JSON -> list JSON -> bool.

Local Abbreviation step := (Client.step pid path_resolve throws).
Local Abbreviation run := (Client.run pid path_resolve throws).

(** Requests sent and resets settle nothing, and hand out no promise made
    before. *)
Lemma acts_sends (R : Prop) (l : list Act) (c : Corr) (promise : PromiseId) :
  Forall (sendsOnly R) l ->
  (promise < c_nextPromise c)%nat ->
  (forall id, c_pending c !! id <> Some promise) ->
  c_settled (acts c l) = c_settled c
  /\ forall id, c_pending (acts c l) !! id <> Some promise.
Proof.
  intros Hl. revert c. induction Hl as [|a l Ha Hl IH]; intros c Hlt Hfree;
    [done|].
  cbn [acts fold_left]. fold (acts (act c a) l).
  destruct a as [method| | |]; cbn in Ha; try done.
  - destruct (IH (act c (ASend method))) as [Hs Hp].
    + cbn. lia.
    + intros id. cbn. destruct (decide (id = c_nextId c)) as [->|Hne].
      * rewrite lookup_insert_eq. intros [= E]. lia.
      * rewrite lookup_insert_ne by done. apply Hfree.
    + by split.
  - destruct (IH (act c AReset)) as [Hs Hp]; [done| |by split].
    intros id. cbn. by rewrite lookup_empty.
Qed.

(** X8: in every state a client reaches, restarts included, every entry
    of the table of pending calls has an id below the next id to give
    out, the timeout of its request is armed and closes over that id, and
    its promise has been neither resolved nor rejected. *)
Theorem pending_calls_are_live (events : list Event) :
  let s := run initial events in
  map_Forall
    (fun id promise =>
       id < nextId s
       /\ (exists method, timers s !! promise = Some (id, method))
       /\ settledOf promise s = [])
    (responsePromises s).
Proof.
  intros s.
  assert (Hi : CorrInv (corr s)) by apply run_CorrInv, CorrInv_initial.
  intros id promise Hp. split; [|split].
  - apply (inv_ids _ Hi id promise Hp).
  - apply (inv_pending_timer _ Hi id promise Hp).
  - destruct (inv_pending_timer _ Hi id promise Hp) as [method Ht].
    destruct (inv_timer_fresh _ Hi promise _ Ht) as [_ Hfresh].
    by apply settledIn_absent.
Qed.

(** X9: as long as [restart] is never called, every timeout that is
    armed is that of a call still pending: no timeout outlives the entry
    of its request in the table. *)
Theorem timers_follow_pending_calls (events : list Event) :
  Forall notRestart events ->
  let s := run initial events in
  map_Forall
    (fun promise call => responsePromises s !! call.1 = Some promise)
    (timers s).
Proof.
  intros He s promise [id method] Ht.
  destruct (run_without_restart pid path_resolve throws events He) as [Hn _].
  apply (Hn promise id method Ht).
Qed.

(** X10: the timeout of a request abandoned by a restart, when the id of
    that request has since been given to a newer request that is still
    pending.  The timeout takes the id for its own: the promise of the
    old request is rejected with the timeout error, and the entry of the
    newer request is removed from the table without its promise being
    settled, so that no response can reach it any more. *)
Theorem stale_timeout_unhooks_newer_call (events : list Event)
    (stale newer : PromiseId) (id : Z) (method : string) :
  let s := run initial events in
  timers s !! stale = Some (id, method) ->
  responsePromises s !! id = Some newer ->
  newer <> stale ->
  let s' := step s (TimerFires stale) in
  settledOf stale s' = [Rejected (TimeoutError method)]
  /\ settledOf newer s' = []
  /\ forall id', responsePromises s' !! id' <> Some newer.
Proof.
  intros s Ht Hp Hne s'.
  assert (Hi : CorrInv (corr s)) by apply run_CorrInv, CorrInv_initial.
  destruct (step_timer pid path_resolve throws s stale _ Ht) as (l & E & Fl).
  fold s' in E. clearbody s'.
  destruct (inv_timer_fresh _ Hi stale _ Ht) as [_ Hstale].
  destruct (inv_pending_timer _ Hi id newer Hp) as [method' Ht'].
  destruct (inv_timer_fresh _ Hi newer _ Ht') as [Hlt Hnewer].
  set (c1 := act (corr s) (AFire stale)) in *.
  assert (Hc1 : c1 =
    {| c_nextId := nextId s;
       c_pending := delete id (responsePromises s);
       c_timers := delete stale (timers s);
       c_nextPromise := nextPromise s;
       c_settled := settled s ++ [(stale, Rejected (TimeoutError method))] |}).
  { subst c1. cbn. by rewrite Ht, Hp. }
  destruct (acts_sends _ l c1 newer Fl) as [Hs Hfree].
  - by rewrite Hc1.
  - intros id'. rewrite Hc1. cbn.
    destruct (decide (id' = id)) as [->|Hid]; [by rewrite lookup_delete_eq|].
    rewrite lookup_delete_ne by done. intros Hp'.
    destruct (inv_pending_timer _ Hi id' newer Hp') as [m Ht''].
    cbn in Ht', Ht''. congruence.
  - rewrite <- E in Hs, Hfree. rewrite Hc1 in Hs.
    change (settled s'
            = settled s ++ [(stale, Rejected (TimeoutError method))]) in Hs.
    change (forall id', responsePromises s' !! id' <> Some newer) in Hfree.
    unfold settledOf. rewrite Hs.
    split; [|split; [|exact Hfree]].
    + rewrite settledIn_snoc, settledIn_absent by done.
      by rewrite decide_True.
    + rewrite settledIn_snoc, settledIn_absent by done.
      by rewrite decide_False.
Qed.

End PendingCalls.

(** ** Log levels *)

Module LoggingFacts.
Import Logging.

Lemma priority_range (level : LoggingLevel) :
  0 <= LOG_LEVEL_PRIORITY level <= 7.
Proof. destruct level; cbn; lia. Qed.

Lemma priority_inj (a b : LoggingLevel) :
  LOG_LEVEL_PRIORITY a = LOG_LEVEL_PRIORITY b -> a = b.
Proof. destruct a, b; cbn; intros H; try done; lia. Qed.

Lemma prefix_app (p s : string) : String.prefix p (p ++ s) = true.
Proof.
  induction p as [|c p IH]; [by destruct s|].
  change (String c p +:+ s) with (String c (p +:+ s)). cbn [String.prefix].
  destruct (Ascii.ascii_dec c c); [exact IH|congruence].
Qed.

(** X24: [shouldLog] is a threshold on the order of the eight levels: the
    current level itself passes, everything passes at [debug], [emergency]
    always passes, what passes lets every level above it pass, and of two
    levels one passes at the other. *)
Theorem shouldLog_is_a_threshold (logLevel a b : LoggingLevel) :
  shouldLog logLevel logLevel = true
  /\ shouldLog debug a = true
  /\ shouldLog logLevel emergency = true
  /\ (shouldLog logLevel a = true -> shouldLog a b = true ->
      shouldLog logLevel b = true)
  /\ (shouldLog a b = false -> shouldLog b a = true)
  /\ (shouldLog a b = true -> shouldLog b a = true -> a = b).
Proof.
  unfold shouldLog.
  pose proof (priority_range logLevel). pose proof (priority_range a).
  pose proof (priority_range b).
  rewrite !Z.leb_le, Z.leb_gt. change (LOG_LEVEL_PRIORITY debug) with 0.
  change (LOG_LEVEL_PRIORITY emergency) with 7.
  repeat split; try lia. intros. apply priority_inj. lia.
Qed.

(** X25: the level at which [sendRequest], [sendNotification] and
    [handleMessage] log a message is [debug], [info] or [notice], never
    more: once the current level is [warning] or above, no traffic is
    logged.  It is [notice] exactly for [initialize], [initialized],
    [shutdown] and [exit], and [debug] for every method that starts with
    [textDocument/did], whatever follows. *)
Theorem traffic_log_levels (method suffix : string) (logLevel : LoggingLevel) :
  (getLSPMethodLogLevel method = debug
   \/ getLSPMethodLogLevel method = info
   \/ getLSPMethodLogLevel method = notice)
  /\ (shouldLog warning logLevel = true ->
      shouldLog logLevel (getLSPMethodLogLevel method) = false)
  /\ (getLSPMethodLogLevel method = notice
      <-> method = "initialize" \/ method = "initialized"
          \/ method = "shutdown" \/ method = "exit")
  /\ getLSPMethodLogLevel ("textDocument/did" ++ suffix) = debug.
Proof.
  split; [|split; [|split]].
  - unfold getLSPMethodLogLevel. repeat case_match; auto.
  - intros Hw. unfold shouldLog in *. apply Z.leb_le in Hw. apply Z.leb_gt.
    change (LOG_LEVEL_PRIORITY warning) with 3 in Hw.
    unfold getLSPMethodLogLevel. repeat case_match; cbn; lia.
  - split.
    + unfold getLSPMethodLogLevel. repeat case_match; try done. intros _.
      repeat match goal with
             | H : _ || _ = true |- _ => apply orb_true_iff in H as [H|H]
             | H : String.eqb _ _ = true |- _ => apply String.eqb_eq in H
             end; auto.
    + intros [-> | [-> | [-> | ->]]]; reflexivity.
  - unfold getLSPMethodLogLevel.
    by rewrite (prefix_app "textDocument/did" suffix).
Qed.

(** X26: the level the logger starts with is the one [LOG_LEVEL] names,
    and [info] when the variable is unset, empty or names no level. *)
Theorem initial_level_from_environment (LOG_LEVEL : option string)
    (level : LoggingLevel) :
  initialLevel (Some (levelName level)) = level
  /\ initialLevel None = info
  /\ initialLevel (Some "") = info
  /\ ((forall named, LOG_LEVEL <> Some (levelName named)) ->
      initialLevel LOG_LEVEL = info).
Proof.
  split; [by destruct level|]. split; [done|]. split; [done|].
  intros Hno. destruct LOG_LEVEL as [name|]; [|done].
  unfold initialLevel. destruct (String.eqb_spec name ""); [done|].
  unfold levelNamed.
  destruct (List.find _ levels) as [l|] eqn:E; [|done].
  apply find_some in E as [_ E]. apply String.eqb_eq in E.
  destruct (Hno l). by rewrite E.
Qed.

(** [setLogLevel] makes the given level the current one and always
    writes its announcement, which names the old and the new level; the
    line it logs besides, a notice, is written exactly when the new level
    is [debug], [info] or [notice]. *)
Lemma setLogLevel_announces (level oldLevel : LoggingLevel) :
  (setLogLevel level oldLevel).1 = level
  /\ (setLogLevel level oldLevel).2
     = Announced oldLevel level
       :: (if shouldLog warning level then []
           else [Logged notice level]).
Proof. by destruct level. Qed.

Lemma minSeverity_null (diagnostics : list JSON) :
  JNull ∈ diagnostics -> minSeverity diagnostics = TypeError.
Proof.
  induction diagnostics as [|d rest IH]; intros H.
  - by apply elem_of_nil in H.
  - apply elem_of_cons in H as [<- | H]; [done|].
    cbn [minSeverity]. rewrite (IH H). by destruct (severityOf d).
Qed.

Lemma minSeverity_numbers (diagnostics : list JSON) :
  Forall (fun d => exists n, severityOf d = Number n) diagnostics ->
  diagnostics <> [] ->
  exists d m,
    d ∈ diagnostics /\ severityOf d = Number m
    /\ Forall (fun d' => forall n, severityOf d' = Number n -> m <= n)
         diagnostics
    /\ minSeverity diagnostics = Number m.
Proof.
  induction 1 as [|d rest [n Hd] Hrest IH]; intros Hne; [done|].
  cbn [minSeverity]. rewrite Hd.
  destruct rest as [|d2 rest'].
  - exists d, n. split; [by left|]. split; [done|]. split; [|done].
    constructor; [|done]. intros n'. rewrite Hd. intros [= <-]. lia.
  - destruct IH as (d0 & m & Hin & Hd0 & Hmin & Hm); [done|].
    rewrite Hm. destruct (Z.le_ge_cases n m) as [Hle|Hge].
    + exists d, n. split; [by left|]. split; [done|].
      split; [|by rewrite Z.min_l].
      constructor; [intros n'; rewrite Hd; intros [= <-]; lia|].
      eapply Forall_impl; [exact Hmin|]. cbn. intros d' H' n' Hn'.
      specialize (H' n' Hn'). lia.
    + exists d0, m. split; [by right|]. split; [done|].
      split; [|by rewrite Z.min_r by lia].
      constructor; [intros n'; rewrite Hd; intros [= <-]; lia|done].
Qed.

(** X27: the level at which [handleMessage] logs the diagnostics of a
    notification.  An empty array is logged at [debug].  When every
    diagnostic has a number for its severity, or none, the level is that
    of the lowest number among them, the most severe: [error] for 1,
    [warning] for 2, [info] for 3, [debug] for anything else, with a
    missing severity counting as 4.  When a diagnostic is [null], reading
    its severity throws. *)
Theorem diagnostics_logged_at_most_severe (diagnostics : list JSON) :
  diagnosticsLevel [] = Some debug
  /\ (JNull ∈ diagnostics -> minSeverity diagnostics = TypeError)
  /\ (Forall (fun d => exists n, severityOf d = Number n) diagnostics ->
      diagnostics <> [] ->
      exists d m,
        d ∈ diagnostics /\ severityOf d = Number m
        /\ Forall (fun d' => forall n, severityOf d' = Number n -> m <= n)
             diagnostics
        /\ diagnosticsLevel diagnostics = Some (severityToLevel m)).
Proof.
  split; [done|]. split; [apply minSeverity_null|].
  intros Hall Hne.
  destruct (minSeverity_numbers diagnostics Hall Hne)
    as (d & m & Hin & Hd & Hmin & Hm).
  exists d, m. unfold diagnosticsLevel. by rewrite Hm.
Qed.

End LoggingFacts.

(** ** The message queue *)

Module MessageQueueFacts.
Import MessageQueue.

Section Queue.
Variable throws : LSPMessage -> bool.

Local Abbreviation step := (MessageQueue.step throws).
Local Abbreviation run := (MessageQueue.run throws).

Local Abbreviation Inv := MessageQueue.Consistent.
Local Abbreviation Quiet := (MessageQueue.Quiet throws).

Lemma step_Inv (pushed : list LSPMessage) (s : State) (event : Event) :
  Inv pushed s -> Inv (pushed ++ arrivals [event]) (step s event).
Proof.
  destruct s as [queue processing waits done]. intros [Hq Hp].
  cbn in Hq, Hp. subst pushed processing.
  destruct event as [message|]; cbn [arrivals flat_map MessageQueue.step].
  - unfold enqueue, processMessageQueue, loop.
    destruct waits as [threw|]; cbn.
    + split; cbn; [by rewrite app_assoc|done].
    + destruct queue as [|first rest]; cbn; split; cbn; try done;
        by rewrite <- ?app_assoc, ?app_nil_r.
  - rewrite !app_nil_r. unfold resume, loop.
    destruct waits as [[]|]; cbn; [by split| |by split].
    destruct queue as [|first rest]; cbn; split; cbn;
      rewrite <- ?app_assoc, ?app_nil_r; done.
Qed.

Lemma arrivals_app (events1 events2 : list Event) :
  arrivals (events1 ++ events2) = arrivals events1 ++ arrivals events2.
Proof. unfold arrivals. apply flat_map_app. Qed.

Lemma run_Inv (pushed : list LSPMessage) (s : State) (events : list Event) :
  Inv pushed s -> Inv (pushed ++ arrivals events) (run s events).
Proof.
  revert pushed s. induction events as [|event events IH]; intros pushed s H.
  - cbn. by rewrite app_nil_r.
  - change (event :: events) with ([event] ++ events).
    rewrite arrivals_app, app_assoc. apply IH. by apply step_Inv.
Qed.

Lemma run_app (s : State) (events1 events2 : list Event) :
  run s (events1 ++ events2) = run (run s events1) events2.
Proof. apply fold_left_app. Qed.

(** X28: however the arrival of messages and the resumptions of the loop
    are interleaved, the messages handed to [handleMessage] followed by
    those still in the queue are the messages that arrived, in their
    order of arrival: no message is handled twice, dropped or
    overtaken.  The flag is set exactly while a loop is suspended at its
    [await], so that there is never more than one. *)
Theorem queue_is_first_in_first_out (events : list Event) :
  let s := run initial events in
  handled s ++ messageQueue s = arrivals events
  /\ (processingQueue s = true <-> is_Some (awaiting s)).
Proof.
  intros s. destruct (run_Inv [] initial events) as [Hq Hp]; [by split|].
  fold s in Hq, Hp. split; [done|]. rewrite Hp.
  destruct (awaiting s); split; try done.
Qed.

Lemma resume_next (first : LSPMessage) (rest done : list LSPMessage)
    (processing : bool) :
  MessageQueue.resume throws
    {| messageQueue := first :: rest; processingQueue := processing;
       awaiting := Some false; handled := done |}
  = {| messageQueue := rest; processingQueue := processing;
       awaiting := Some (throws first); handled := done ++ [first] |}.
Proof. reflexivity. Qed.

Lemma drain (s : State) :
  Forall (fun message => throws message = false) (messageQueue s) ->
  awaiting s = Some false ->
  let s' := run s (repeat Resume (S (length (messageQueue s)))) in
  handled s' = handled s ++ messageQueue s
  /\ messageQueue s' = [] /\ processingQueue s' = false
  /\ awaiting s' = None.
Proof.
  destruct s as [queue processing waits done].
  cbn [messageQueue awaiting handled].
  intros Hq ->. revert processing done.
  induction Hq as [|first rest Hfirst Hrest IH]; intros processing done.
  - cbn. by rewrite app_nil_r.
  - cbn [length].
    change (repeat Resume (S (S (length rest))))
      with (Resume :: repeat Resume (S (length rest))).
    cbn [MessageQueue.run fold_left MessageQueue.step].
    rewrite resume_next, Hfirst.
    destruct (IH processing (done ++ [first])) as (H1 & H2 & H3 & H4).
    rewrite <- app_assoc in H1. done.
Qed.

Lemma step_Quiet (s : State) (event : Event) :
  Forall (fun message => throws message = false) (arrivals [event]) ->
  processingQueue s
  = match awaiting s with Some _ => true | None => false end ->
  Quiet s -> Quiet (step s event).
Proof.
  destruct s as [queue processing waits done]. unfold Quiet. cbn.
  intros He -> [Hq [-> | [-> ->]]].
  - destruct event as [message|]; cbn.
    + rewrite app_nil_r in He. split; [|by left].
      apply Forall_app. by split.
    + unfold resume, loop. cbn.
      destruct Hq as [|first rest Hfirst Hrest]; cbn; [by auto|].
      rewrite Hfirst. auto.
  - destruct event as [message|]; cbn; [|by auto].
    rewrite app_nil_r in He. apply Forall_cons in He as [-> _]. auto.
Qed.

Lemma run_Quiet (pushed : list LSPMessage) (s : State) (events : list Event) :
  Forall (fun message => throws message = false) (arrivals events) ->
  Inv pushed s -> Quiet s -> Quiet (run s events).
Proof.
  revert pushed s. induction events as [|event events IH];
    intros pushed s He Hi Hq; [done|].
  change (event :: events) with ([event] ++ events) in He.
  rewrite arrivals_app in He. apply Forall_app in He as [He1 He2].
  apply (IH (pushed ++ arrivals [event])); [done|by apply step_Inv|].
  apply step_Quiet; [done|apply Hi|done].
Qed.

(** X29: when the handling of no message throws, the queue is drained:
    after any interleaving of arrivals and resumptions, resuming the loop
    once more than there are messages in the queue hands every message
    that arrived to [handleMessage], in order, empties the queue and
    clears the flag. *)
Theorem queue_drains (events : list Event) :
  Forall (fun message => throws message = false) (arrivals events) ->
  let s := run initial events in
  let s' := run s (repeat Resume (S (length (messageQueue s)))) in
  handled s' = arrivals events
  /\ messageQueue s' = [] /\ processingQueue s' = false.
Proof.
  intros He s.
  destruct (run_Inv [] initial events) as [Hi Hp]; [by split|].
  destruct (run_Quiet [] initial events He) as [Hq Hw];
    [by split|by split; [|right]|].
  fold s in Hi, Hp, Hq, Hw. cbn [app] in Hi.
  destruct Hw as [Hw | [Hw Hempty]].
  - destruct (drain s Hq Hw) as (H1 & H2 & H3 & _).
    cbv zeta. by rewrite H1, Hi.
  - cbv zeta. rewrite Hempty in *. rewrite app_nil_r in Hi. cbn.
    unfold resume. rewrite Hw, Hi, Hempty, Hp, Hw. done.
Qed.

(** While a loop is suspended, arrivals only lengthen the queue. *)
Lemma run_enqueue_busy (rest : list LSPMessage) (s : State) :
  processingQueue s = true ->
  run s (map Enqueue rest)
  = {| messageQueue := messageQueue s ++ rest;
       processingQueue := true; awaiting := awaiting s;
       handled := handled s |}.
Proof.
  revert s. induction rest as [|message rest IH]; intros s Hp.
  - destruct s. cbn in *. subst. by rewrite app_nil_r.
  - cbn [map MessageQueue.run fold_left MessageQueue.step].
    assert (E : enqueue throws message s
                = {| messageQueue := messageQueue s ++ [message];
                     processingQueue := true; awaiting := awaiting s;
                     handled := handled s |}).
    { unfold enqueue, processMessageQueue. cbn. by rewrite Hp. }
    rewrite E. change (fold_left (MessageQueue.step throws) ?l ?x)
      with (run x l).
    rewrite IH by done. cbn. by rewrite <- app_assoc.
Qed.

(** X30: when the handling of a message throws while others are queued
    behind it, the loop ends and leaves them there: however often the
    loop is resumed, they are not handled, until another message
    arrives. *)
Theorem throw_leaves_the_rest_queued (first : LSPMessage)
    (rest : list LSPMessage) (resumptions : nat) :
  throws first = true ->
  let s := run initial (map Enqueue (first :: rest)
                        ++ repeat Resume (S resumptions)) in
  handled s = [first] /\ messageQueue s = rest
  /\ processingQueue s = false /\ awaiting s = None.
Proof.
  intros Hthrows s. subst s. rewrite run_app.
  cbn [map MessageQueue.run fold_left MessageQueue.step].
  change (fold_left (MessageQueue.step throws) ?l ?x) with (run x l).
  change (enqueue throws first initial)
    with {| messageQueue := []; processingQueue := true;
            awaiting := Some (throws first); handled := [first] |}.
  rewrite Hthrows, run_enqueue_busy by done.
  cbn [repeat MessageQueue.run fold_left MessageQueue.step messageQueue
       awaiting handled app].
  change (resume throws _)
    with {| messageQueue := rest; processingQueue := false;
            awaiting := None; handled := [first] |}.
  induction resumptions as [|n IH]; [done|]. exact IH.
Qed.

End Queue.

End MessageQueueFacts.

(** ** The open set and the version map *)

Module SessionFacts.
Import Client ClientSpec ClientInv ClientFacts Reach Sessions.

Lemma sameSessions_refl (s : State) : sameSessions s s.
Proof. by repeat split. Qed.

Lemma sameSessions_trans (s1 s2 s3 : State) :
  sameSessions s1 s2 -> sameSessions s2 s3 -> sameSessions s1 s3.
Proof. intros (?&?&?) (?&?&?). repeat split; congruence. Qed.

Lemma sameCore_sessions (s s' : State) : sameCore s s' -> sameSessions s s'.
Proof. intros (_ & _ & Hw & _ & Ho & Hv & _). by repeat split. Qed.

Lemma sessionsAgree_same (s s' : State) :
  sameSessions s s' -> sessionsAgree s -> sessionsAgree s'.
Proof. intros (Ho & Hv & _) H uri. rewrite Ho, Hv. apply H. Qed.

Lemma Agree_same (s s' : State) : sameSessions s s' -> Agree s -> Agree s'.
Proof.
  intros Hs [Ha Hw]. split; [by apply (sessionsAgree_same s)|].
  destruct Hs as (_ & _ & ->). done.
Qed.

Lemma sessionsAgree_empty (s : State) :
  openedDocuments s = [] -> documentVersions s = ∅ -> sessionsAgree s.
Proof.
  intros Ho Hv uri. rewrite Ho, Hv, lookup_empty. split.
  - intros H. by apply elem_of_nil in H.
  - by intros [? ?].
Qed.

Section Host.
Variable pid : Z.
Variable path_resolve : string -> string.
Variable throws : Callback -> JSON -> list JSON -> bool.

Local Abbreviation step := (Client.step pid path_resolve throws).
Local Abbreviation run := (Client.run pid path_resolve throws).

Lemma handleMessage_sessions (message : LSPMessage) (s : State) :
  sameSessions s (handleMessage message s).1.
Proof.
  unfold handleMessage.
  pose proof (handleResponse_same message s) as H1.
  destruct (handleResponse message s) as [s1 x]. cbn [fst] in *.
  apply sameCore_sessions in H1.
  pose proof (sameCore_sessions _ _ (storeCapabilities_same message s1)) as H2.
  assert (H3 : sameSessions (storeCapabilities message s1)
                 (handleNotification message (storeCapabilities message s1))).
  { generalize (storeCapabilities message s1). intros s2.
    unfold handleNotification.
    repeat case_match; try apply sameSessions_refl.
    destruct s2. by repeat split. }
  exact (sameSessions_trans _ _ _ H1 (sameSessions_trans _ _ _ H2 H3)).
Qed.

Lemma initialize_sessions (rootDirectory : string) (s : State) :
  sameSessions s (initialize pid path_resolve rootDirectory s).1
  /\ forall promise stack,
       (initialize pid path_resolve rootDirectory s).2 = Pending promise stack ->
       stack = [FInitialize].
Proof.
  destruct s. unfold initialize, sendRequest, write, startProcess.
  destruct initialized0, process0; cbn; unfold sameSessions; cbn;
    (split; [done|]); first [done | by intros ? ? [= _ <-]].
Qed.

Lemma initializeResume_sessions (outcome : Outcome) (s : State) :
  sameSessions s (initializeResume outcome s).1
  /\ exists result, (initializeResume outcome s).2 = Done result.
Proof.
  destruct s. unfold initializeResume, sendNotification, write.
  destruct outcome, process0; cbn; unfold sameSessions; cbn;
    (split; [done|]); by eexists.
Qed.

Lemma query_sessions (method : string) (params : option JSON) (s : State) :
  sameSessions s (query method params s).1
  /\ forall promise stack,
       (query method params s).2 = Pending promise stack -> stack = [FQuery].
Proof.
  destruct s. unfold query, sendRequest, write.
  destruct initialized0, process0; cbn; unfold sameSessions; cbn;
    (split; [done|]); first [done | by intros ? ? [= _ <-]].
Qed.

Lemma shutdown_sessions (s : State) :
  forall promise stack,
    (shutdown s).2 = Pending promise stack ->
    sameSessions s (shutdown s).1 /\ stack = [FShutdown].
Proof.
  intros promise stack. unfold shutdown.
  destruct (negb (initialized s)); [done|]. cbv zeta.
  assert (H1 : sameSessions s (closeAll (clearDiagnosticSubscribers s))).
  { eapply sameSessions_trans; [|apply sameCore_sessions, closeAll_same].
    by destruct s. }
  revert H1. generalize (closeAll (clearDiagnosticSubscribers s)). intros s1 H1.
  pose proof (sendRequest_same "shutdown" None s1) as H2.
  apply sameCore_sessions in H2.
  destruct (sendRequest "shutdown" None s1) as [s2 [e|p]]; cbn [fst snd] in *.
  - unfold shutdownResume. done.
  - intros [= _ <-]. split; [|done]. by eapply sameSessions_trans.
Qed.

Lemma restartResume_sessions (rootDirectory : option string) (s : State) :
  let r := restartResume pid path_resolve rootDirectory s in
  sessionsAgree r.1 /\ waiting r.1 = waiting s
  /\ forall promise stack,
       r.2 = Pending promise stack ->
       stack = [FInitialize; FRestartInitialize].
Proof.
  destruct s. unfold restartResume, initialize, sendRequest, write,
    startProcess, resetState, killProcess, andThen.
  destruct (givenRoot rootDirectory), process0 as [[n []]|]; cbn;
    (split; [by apply sessionsAgree_empty|]);
    (split; [done|]); first [done | by intros ? ? [= _ <-]].
Qed.

(** The frames of a suspended operation, run to their end or to the next
    [await]. *)
Lemma unwind_known (stack : list Frame) (outcome : Outcome) (s : State) :
  knownStack stack -> sessionsAgree s ->
  let r := unwind pid path_resolve stack outcome s in
  sessionsAgree r.1 /\ waiting r.1 = waiting s
  /\ forall promise stack',
       r.2 = Pending promise stack' -> knownStack stack'.
Proof.
  intros [-> | [-> | [-> | [rootDirectory ->]]]] Ha; cbv zeta.
  - cbn [unwind resumeFrame].
    destruct (initializeResume_sessions outcome s) as [Hs [result E]].
    destruct (initializeResume outcome s) as [s1 a]. cbn [fst snd] in *.
    subst a. cbn. split; [by apply (sessionsAgree_same s)|].
    split; [apply Hs|done].
  - cbn [unwind resumeFrame fst snd]. split; [done|]. by split.
  - cbn [unwind resumeFrame].
    destruct (initializeResume_sessions outcome s) as [Hs [result E]].
    destruct (initializeResume outcome s) as [s1 a]. cbn [fst snd] in *.
    subst a. cbn. split; [by apply (sessionsAgree_same s)|].
    split; [apply Hs|done].
  - cbn [unwind resumeFrame].
    assert (Hw : waiting (shutdownResume outcome s).1 = waiting s
                 /\ exists result, (shutdownResume outcome s).2 = Done result).
    { destruct s. unfold shutdownResume, sendNotification, write.
      destruct outcome, process0; cbn; (split; [done|]); by eexists. }
    destruct Hw as [Hw [result E]].
    destruct (shutdownResume outcome s) as [s1 a]. cbn [fst snd] in *.
    subst a.
    destruct (restartResume_sessions rootDirectory s1) as (H1 & H2 & H3).
    destruct (restartResume pid path_resolve rootDirectory s1)
      as [s2 [result2|promise stack]]; cbn [fst snd] in *.
    + cbn. split; [done|]. split; [congruence|done].
    + split; [done|]. split; [congruence|].
      intros p st [= _ <-]. rewrite (H3 _ _ eq_refl). cbn.
      right. right. by left.
Qed.

Lemma park_Agree (operation : Operation) (call : State * Await) :
  Agree call.1 ->
  (forall promise stack, call.2 = Pending promise stack -> knownStack stack) ->
  Agree (park operation call).
Proof.
  destruct call as [s [outcome|promise stack]]; cbn [fst snd park];
    intros [Ha Hw] Hk.
  - destruct s. by split.
  - specialize (Hk _ _ eq_refl). destruct s. split; [done|]. cbn in *.
    by apply map_Forall_insert_2.
Qed.

Lemma deliver_Agree (s : State) (x : option (PromiseId * Settlement)) :
  Agree s -> Agree (deliver pid path_resolve (s, x)).
Proof.
  intros [Ha Hw]. cbn [deliver]. destruct x as [[promise how]|]; [|done].
  destruct (waiting s !! promise) as [[operation stack]|] eqn:E; [|done].
  pose proof (Hw _ _ E) as Hk. cbn in Hk.
  set (s0 := set_waiting (delete promise (waiting s)) s).
  assert (H0 : Agree s0).
  { subst s0. destruct s. split; [done|]. cbn in *.
    by apply map_Forall_delete. }
  clearbody s0. destruct H0 as [Ha0 Hw0].
  destruct (unwind_known stack (outcomeOf how) s0 Hk Ha0) as (H1 & H2 & H3).
  apply park_Agree; [|done]. split; [done|]. by rewrite H2.
Qed.

Lemma restartResume_Agree (rootDirectory : option string) (s : State) :
  map_Forall (fun _ suspended => knownStack suspended.2) (waiting s) ->
  Agree (park OpRestart (restartResume pid path_resolve rootDirectory s)).
Proof.
  intros Hw.
  destruct (restartResume_sessions rootDirectory s) as (H1 & H2 & H3).
  apply park_Agree.
  - split; [done|]. by rewrite H2.
  - intros p st E. rewrite (H3 _ _ E). right. right. by left.
Qed.

Lemma step_Agree (s : State) (event : Event) :
  notShutdown event -> Agree s -> Agree (step s event).
Proof.
  intros Hev Hs. destruct event; cbn [Client.step].
  - destruct (initialize_sessions
                (match rootDirectory with Some r => r | None => "." end) s)
      as [H1 H2].
    apply park_Agree; [by apply (Agree_same s)|].
    intros p st E. rewrite (H2 _ _ E). by left.
  - destruct Hs as [Ha Hw]. split; [by apply openDocument_sessionsAgree|].
    destruct (Refinement.openDocument_steady True uri text languageId s)
      as [_ ->]. done.
  - destruct Hs as [Ha Hw]. split; [by apply closeDocument_sessionsAgree|].
    destruct (Refinement.closeDocument_steady True uri s) as [_ ->]. done.
  - apply (Agree_same s); [|done]. destruct s.
    unfold subscribeToDiagnostics. cbn.
    by destruct (deliverStored _ _ _) as [made [e|]].
  - apply (Agree_same s); [|done]. by destruct s.
  - destruct (query_sessions method params s) as [H1 H2].
    apply park_Agree; [by apply (Agree_same s)|].
    intros p st E. rewrite (H2 _ _ E). right. by left.
  - done.
  - unfold restart. destruct (initialized s).
    + pose proof (shutdown_sessions s) as Hsh.
      destruct (shutdown s) as [s1 [outcome|promise stack]] eqn:E;
        cbn [andThen fst snd] in *.
      * apply restartResume_Agree.
        destruct (Refinement.shutdown_steady True s) as [[_ Hw] _].
        rewrite E in Hw. cbn [fst] in Hw. rewrite Hw. apply Hs.
      * destruct (Hsh _ _ eq_refl) as [H1 ->].
        apply park_Agree; [by apply (Agree_same s)|].
        intros p st [= _ <-]. cbn. right. right. right. by eexists.
    + apply restartResume_Agree, Hs.
  - pose proof (handleMessage_sessions message s) as H.
    destruct (handleMessage message s) as [s1 x].
    apply deliver_Agree. by apply (Agree_same s).
  - destruct (timers s !! promise) as [[id method]|]; [|done].
    pose proof (onTimeout_same promise id method s) as H.
    destruct (onTimeout promise id method (clearTimeout promise s)) as [s1 x].
    apply deliver_Agree.
    apply (Agree_same s); [by apply sameCore_sessions|done].
Qed.

Lemma run_Agree (s : State) (events : list Event) :
  Forall notShutdown events -> Agree s -> Agree (run s events).
Proof.
  intros He. revert s. induction He as [|event events He Hes IH]; intros s Hs;
    [done|].
  apply IH. by apply step_Agree.
Qed.

Lemma Agree_initial : Agree initial.
Proof.
  split; [by apply sessionsAgree_empty|]. apply map_Forall_empty.
Qed.

(** X17: as long as [shutdown] is not called directly, and whatever else
    happens, restarts of an initialized client and the shutdown they
    perform included, the open set and the version map go together
    between two turns of the event loop: a uri is open exactly when it
    has a version. *)
Theorem sessions_agree_without_shutdown (events : list Event) :
  Forall notShutdown events ->
  sessionsAgree (run initial events).
Proof. intros He. apply (run_Agree initial events He), Agree_initial. Qed.


End Host.

End SessionFacts.

(** ** The properties above on concrete inputs *)

Section MoreWitnesses.
Import JsString JsStringFacts Decoder DecoderFacts Framing FramingFacts.
Import DecoderMore Client ClientSpec ClientFacts Examples MoreExamples.
Import Lifecycle Inbound.

Local Abbreviation step := (Client.step hostPid hostResolve quiet).
Local Abbreviation run := (Client.run hostPid hostResolve quiet).

(** The frame of the first payload as the client would write it, followed
    by the second frame. *)
Lemma outbound_frame_read_back_witness :
  frameOf (of_bytes payload1) ++ frame2 = of_bytes stream12
  /\ decode parse12 (frameOf (of_bytes payload1) ++ frame2)
     = ([message1; message2], []).
Proof.
  split; [reflexivity|].
  etrans; [apply (outbound_frame_read_back parse12 (of_bytes payload1) frame2)|].
  - by apply isAscii_Forall.
  - reflexivity.
  - vm_compute. discriminate.
  - vm_compute. reflexivity.
Defined.

(** The first payload followed by a line break inside its frame: the
    line break stays in front of the second frame, which is never
    decoded. *)
Lemma frame_cut_at_last_brace_witness :
  decode parse12
    (HEADER ++ lit "40" ++ CRLFCRLF
     ++ (body1 ++ CLOSE_BRACE :: [CR; LF]) ++ frame2)
  = ([message1], [CR; LF] ++ frame2).
Proof.
  etrans; [apply (frame_cut_at_last_brace parse12 (lit "40") body1 [CR; LF]
                    frame2)|].
  - discriminate.
  - reflexivity.
  - reflexivity.
  - vm_compute. discriminate.
  - discriminate.
  - intros H. repeat (apply elem_of_cons in H as [H|H]; [discriminate H|]).
    by apply elem_of_nil in H.
  - vm_compute. reflexivity.
Defined.

(** A payload that is an array is handed whole to [JSON.parse]. *)
Lemma frame_without_brace_witness :
  decode (fun content =>
            if bool_decide (content = arrayPayload) then Some message1
            else parse12 content)
    (HEADER ++ lit "3" ++ CRLFCRLF ++ arrayPayload ++ frame2)
  = ([message1; message2], []).
Proof.
  etrans; [apply (frame_without_brace _ (lit "3") arrayPayload frame2)|].
  - discriminate.
  - reflexivity.
  - reflexivity.
  - vm_compute. discriminate.
  - intros H. repeat (apply elem_of_cons in H as [H|H]; [discriminate H|]).
    by apply elem_of_nil in H.
  - vm_compute. reflexivity.
Defined.

(** A line break in front of two frames. *)
Lemma no_resynchronisation_witness :
  feed parse12 [LF] [encodeFrame digits1 payload1; encodeFrame digits2 payload2]
  = ([], LF :: of_bytes stream12).
Proof.
  etrans; [apply (no_resynchronisation parse12 LF []
                    [encodeFrame digits1 payload1;
                     encodeFrame digits2 payload2])|].
  - discriminate.
  - vm_compute. discriminate.
  - vm_compute. reflexivity.
Defined.

Lemma timers_follow_pending_calls_witness :
  map_Forall
    (fun promise call =>
       responsePromises (run initial (hovering ++ meanwhile)) !! call.1
       = Some promise)
    (timers (run initial (hovering ++ meanwhile))).
Proof.
  apply (timers_follow_pending_calls hostPid hostResolve quiet
           (hovering ++ meanwhile)).
  repeat constructor; intros r H; discriminate H.
Defined.

Lemma stale_timeout_unhooks_newer_call_witness :
  settledOf 0%nat (step (run initial restarted) (TimerFires 0%nat))
  = [Rejected (TimeoutError "initialize")]
  /\ settledOf 1%nat (step (run initial restarted) (TimerFires 0%nat)) = []
  /\ forall id',
       responsePromises (step (run initial restarted) (TimerFires 0%nat)) !! id'
       <> Some 1%nat.
Proof.
  apply (stale_timeout_unhooks_newer_call hostPid hostResolve quiet restarted
           0%nat 1%nat 1 "initialize").
  - reflexivity.
  - reflexivity.
  - discriminate.
Defined.

Lemma server_request_ignored_witness :
  step ready (Receive configurationRequest) = ready.
Proof.
  apply (server_request_ignored hostPid hostResolve quiet ready
           configurationRequest (JNum 7)); reflexivity.
Defined.

Lemma unmatched_response_witness :
  step ready (Receive (response 99 (JObj [("capabilities", hoverCapabilities)])))
  = set_serverCapabilities (Some hoverCapabilities) ready.
Proof.
  etrans; [apply (unmatched_response hostPid hostResolve quiet ready _
                    (JNum 99))|]; reflexivity.
Defined.

Lemma notification_ignored_witness :
  step watched (Receive logMessage) = watched.
Proof.
  apply (notification_ignored hostPid hostResolve quiet watched logMessage).
  - reflexivity.
  - intros method [= <-]. by left.
Defined.

Lemma publish_stored_and_announced_witness :
  let message := publishDiagnostics "file:///a.txt" [diagnostic 1 "e"] in
  let s1 := step watched (Receive message) in
  getDiagnostics "file:///a.txt" s1 = [diagnostic 1 "e"]
  /\ calls s1
     = [(7%nat, JStr "file:///a.txt", [diagnostic 1 "e"]);
        (9%nat, JStr "file:///a.txt", [diagnostic 1 "e"])]
  /\ written s1 = written watched.
Proof.
  destruct (publish_stored_and_announced hostPid hostResolve quiet watched
              (publishDiagnostics "file:///a.txt" [diagnostic 1 "e"])
              "file:///a.txt" [diagnostic 1 "e"])
    as (H1 & _ & H2 & _ & H3 & _).
  - split; [done|]. split; [done|]. by eexists.
  - discriminate.
  - repeat constructor.
  - split; [exact H1|]. split; [exact H2|exact H3].
Defined.

Lemma close_then_reopen_witness :
  let s1 := (closeDocument "file:///a.txt" opened).1 in
  let s2 := (openDocument "file:///a.txt" "again" "plaintext" s1).1 in
  written s1
  = written opened
    ++ [(0%nat, notification "textDocument/didClose"
                  (didCloseParams "file:///a.txt"))]
  /\ closeDocument "file:///a.txt" s1 = (s1, Returned None)
  /\ documentVersions s2 !! "file:///a.txt" = Some 1.
Proof.
  destruct (close_then_reopen "file:///a.txt" "again" "plaintext" opened server0)
    as ((H1 & _) & H2 & _ & _ & H3).
  - reflexivity.
  - reflexivity.
  - vm_compute. by left.
  - split; [exact H1|]. split; [exact H2|exact H3].
Defined.

Lemma initialize_handshake_witness :
  let s1 := step initial (CallInitialize None) in
  let s2 := step s1 (Receive (response 1 (JObj [("capabilities", JObj [])]))) in
  let s3 := step s1 (TimerFires 0%nat) in
  written s1
  = [(0%nat, request 1 "initialize"
               (Some (initializeParams hostPid hostResolve ".")))]
  /\ initialized s2 = true
  /\ outcomes s2 = [(OpInitialize, Returned None)]
  /\ initialized s3 = false
  /\ outcomes s3 = [(OpInitialize, Threw (TimeoutError "initialize"))].
Proof.
  destruct (initialize_handshake hostPid hostResolve quiet None initial)
    as ((_ & H1 & _) & H2 & (_ & H3 & _ & H4)); [reflexivity|].
  destruct (H2 (response 1 (JObj [("capabilities", JObj [])])))
    as (_ & _ & H5 & _ & H6); [by split|].
  split; [exact H1|]. split; [exact H5|]. split; [exact H6|].
  split; [exact H3|exact H4].
Defined.

Lemma restart_when_not_initialized_witness :
  let s1 := step initial (CallRestart (Some "/srv")) in
  process s1 = Some server0
  /\ written s1
     = [(0%nat, request 1 "initialize"
                  (Some (initializeParams hostPid hostResolve "/srv")))]
  /\ outcomes s1 = [].
Proof.
  destruct (restart_when_not_initialized hostPid hostResolve quiet
              (Some "/srv") initial)
    as ((H1 & _) & _ & _ & _ & H2 & H3 & _); [reflexivity|].
  split; [exact H1|]. split; [exact H2|exact H3].
Defined.



Lemma refused_before_initialize_witness :
  openDocument "file:///a.txt" "hello" "plaintext" initial
  = (initial, Threw NotInitialized)
  /\ query "textDocument/hover" None initial
     = (initial, Done (Threw NotInitialized))
  /\ shutdown initial = (initial, Done (Returned None)).
Proof.
  destruct (refused_before_initialize initial) as (H1 & _ & H2 & H3);
    [reflexivity|].
  split; [apply H1|]. split; [apply H2|exact H3].
Defined.

(** A client is initialized, opens a document and is restarted; the
    [shutdown] request of the restart is answered. *)
Lemma sessions_agree_without_shutdown_witness :
  sessionsAgree
    (run initial
       [CallInitialize None;
        Receive (response 1 (JObj [("capabilities", JObj [])]));
        CallOpenDocument "file:///a.txt" "hello" "plaintext";
        CallRestart None;
        Receive (response 2 JNull);
        CallInitialize None]).
Proof.
  apply (SessionFacts.sessions_agree_without_shutdown hostPid hostResolve
           quiet).
  repeat constructor; discriminate.
Defined.

(** Two messages arrive in one chunk, the loop goes on, a third message
    arrives. *)
Lemma queue_drains_witness :
  let events :=
    [MessageQueue.Enqueue message1; MessageQueue.Enqueue message2;
     MessageQueue.Resume; MessageQueue.Enqueue message1] in
  let s := MessageQueue.run (fun _ => false) MessageQueue.initial events in
  let s' :=
    MessageQueue.run (fun _ => false) s
      (repeat MessageQueue.Resume
         (S (length (MessageQueue.messageQueue s)))) in
  MessageQueue.handled s' = [message1; message2; message1]
  /\ MessageQueue.messageQueue s' = []
  /\ MessageQueue.processingQueue s' = false.
Proof.
  apply (MessageQueueFacts.queue_drains (fun _ => false)
           [MessageQueue.Enqueue message1; MessageQueue.Enqueue message2;
            MessageQueue.Resume; MessageQueue.Enqueue message1]).
  repeat constructor.
Defined.

(** The handling of notifications throws, that of responses does not: a
    notification arrives with a response behind it. *)
Lemma throw_leaves_the_rest_queued_witness :
  let throws (message : LSPMessage) :=
    match msg_method message with Some _ => true | None => false end in
  let s :=
    MessageQueue.run throws MessageQueue.initial
      (map MessageQueue.Enqueue [message2; message1]
       ++ repeat MessageQueue.Resume 3) in
  MessageQueue.handled s = [message2]
  /\ MessageQueue.messageQueue s = [message1]
  /\ MessageQueue.processingQueue s = false
  /\ MessageQueue.awaiting s = None.
Proof.
  apply (MessageQueueFacts.throw_leaves_the_rest_queued
           (fun message =>
              match msg_method message with Some _ => true | None => false end)
           message2 [message1] 2).
  reflexivity.
Defined.

End MoreWitnesses.
